(** * darch/core.py: the graph model and its traversal algorithms

    A shallow embedding of [src/darch/core.py].  Python objects live in a
    heap: every [Input], [Output], [Module] and [Hyperparameter] instance is
    an address (a natural number) into a finite map holding its attributes,
    so that aliasing and in-place mutation are visible.  Methods are state
    transformers on that heap which may raise; the state reached at the
    moment of the raise is kept, as in Python. *)

From stdpp Require Import gmap list strings pretty.

Set Default Proof Using "Type".

(** ** Exceptions and results *)

Inductive exn : Type :=
  | AssertionError       (* a failed [assert] *)
  | ValueError           (* [list.remove(x)]: x not in list *)
  | AttributeError       (* method looked up on an object that lacks it *)
  | RecursionError       (* the interpreter's call depth is exhausted *)
  | RuntimeError         (* OrderedDict mutated during iteration *)
  | NotImplementedError  (* abstract method of the base class *)
  | NoSuchObject         (* an address that is not allocated in the heap *)
  | OutOfFuel.           (* the loop budget of the model is exhausted *)

Inductive result (A : Type) : Type :=
  | Ok (a : A)
  | Raise (e : exn).
Arguments Ok {A} a.
Arguments Raise {A} e.

(** A dynamically typed reference, as far as [isinstance] and method
    dispatch in core.py distinguish them. *)
Inductive pyobj : Type :=
  | PInput (ix : nat)
  | POutput (ox : nat)
  | POther.

(** ** class OrderedSet: an insertion-ordered set, kept as its list of keys *)

Definition OrderedSet := list nat.

Definition OrderedSet_add (x : nat) (d : OrderedSet) : OrderedSet :=
  if decide (x ∈ d) then d else d ++ [x].

Definition OrderedSet_update (xs : list nat) (d : OrderedSet) : OrderedSet :=
  foldl (fun d x => OrderedSet_add x d) d xs.

(** [list.remove(x)]: drops the first occurrence, [None] when absent. *)
Fixpoint list_remove_first (x : nat) (l : list nat) : option (list nat) :=
  match l with
  | [] => None
  | y :: l' => if decide (x = y) then Some l'
               else cons y <$> list_remove_first x l'
  end.

Section Model.
Context {Val : Type}.

(** ** Objects *)

Record Input : Type := mkInput {
  i_module : nat;
  from_output : option nat }.

Record Output : Type := mkOutput {
  o_module : nat;
  to_inputs : list nat }.

Record Hyperparameter : Type := mkHyperparameter {
  set_done : bool;
  val : option Val;
  modules : OrderedSet }.

(** [inputs], [outputs] and [hyperps] are OrderedDicts from local names. *)
Record ModuleObj : Type := mkModule {
  inputs : list (string * nat);
  outputs : list (string * nat);
  hyperps : list (string * nat);
  _is_compiled : bool }.

Definition itervalues (d : list (string * nat)) : list nat := d.*2.

Record Heap : Type := mkHeap {
  h_inputs : gmap nat Input;
  h_outputs : gmap nat Output;
  h_modules : gmap nat ModuleObj;
  h_hyperps : gmap nat Hyperparameter }.

(** Calls made to the abstract methods, with the heap they were entered in. *)
Inductive Call : Type :=
  | CheckVal (h : nat) (v : Val) (at_entry : Heap)
  | Update (m : nat) (at_entry : Heap)
  | Compile (m : nat) (at_entry : Heap)
  | Forward (m : nat) (at_entry : Heap).

Record World : Type := mkWorld {
  heap : Heap;
  calls : list Call }.

(** ** The monad of heap-mutating, possibly raising computations *)

Definition Py (A : Type) : Type := World -> World * result A.

Definition ret {A} (a : A) : Py A := fun w => (w, Ok a).
Definition raise {A} (e : exn) : Py A := fun w => (w, Raise e).
Definition bind {A B} (m : Py A) (k : A -> Py B) : Py B :=
  fun w => match m w with
           | (w', Ok a) => k a w'
           | (w', Raise e) => (w', Raise e)
           end.

Definition py_assert (b : bool) : Py unit :=
  if b then ret tt else raise AssertionError.

End Model.

Arguments Input : clear implicits.
Arguments Output : clear implicits.
Arguments Hyperparameter : clear implicits.
Arguments ModuleObj : clear implicits.
Arguments Heap : clear implicits.
Arguments Call : clear implicits.
Arguments World : clear implicits.
Arguments Py : clear implicits.

Notation "'let!' x ':=' m 'in' k" := (bind m (fun x => k))
  (at level 10, x name, m at level 100, k at level 200,
   format "'[v' 'let!'  x  ':='  m  'in' '/' k ']'").
Notation "m '>>' k" := (bind m (fun _ => k))
  (at level 100, k at level 200, right associativity).

Section Ports.
Context {Val : Type}.

Definition get_input (ix : nat) : Py Val (Input) :=
  fun w => match h_inputs (heap w) !! ix with
           | Some i => (w, Ok i)
           | None => (w, Raise NoSuchObject)
           end.

Definition get_output (ox : nat) : Py Val (Output) :=
  fun w => match h_outputs (heap w) !! ox with
           | Some o => (w, Ok o)
           | None => (w, Raise NoSuchObject)
           end.

Definition set_input (ix : nat) (i : Input) : Py Val unit :=
  fun w => let h := heap w in
    (mkWorld (mkHeap (<[ix := i]> (h_inputs h)) (h_outputs h)
                     (h_modules h) (h_hyperps h)) (calls w), Ok tt).

Definition set_output (ox : nat) (o : Output) : Py Val unit :=
  fun w => let h := heap w in
    (mkWorld (mkHeap (h_inputs h) (<[ox := o]> (h_outputs h))
                     (h_modules h) (h_hyperps h)) (calls w), Ok tt).

(** ** class Input *)

Definition Input_is_connected (self : nat) : Py Val bool :=
  let! i := get_input self in
  ret (bool_decide (from_output i <> None)).

Definition Input_get_connected_output (self : nat) : Py Val (option nat) :=
  let! i := get_input self in
  ret (from_output i).

Definition Input_get_module (self : nat) : Py Val nat :=
  let! i := get_input self in
  ret (i_module i).

(** [Input.connect]: both assertions come before either assignment. *)
Definition Input_connect (self : nat) (from_out : pyobj) : Py Val unit :=
  match from_out with
  | POutput ox =>
      let! i := get_input self in
      py_assert (bool_decide (from_output i = None)) >>
      set_input self (mkInput (i_module i) (Some ox)) >>
      let! o := get_output ox in
      set_output ox (mkOutput (o_module o) (to_inputs o ++ [self]))
  | _ => raise AssertionError
  end.

Definition Input_disconnect (self : nat) : Py Val unit :=
  let! i := get_input self in
  match from_output i with
  | None => raise AssertionError
  | Some ox =>
      let! o := get_output ox in
      match list_remove_first self (to_inputs o) with
      | None => raise ValueError
      | Some l =>
          set_output ox (mkOutput (o_module o) l) >>
          set_input self (mkInput (i_module i) None)
      end
  end.

(** ** class Output *)

Definition Output_is_connected (self : nat) : Py Val bool :=
  let! o := get_output self in
  ret (bool_decide (0 < length (to_inputs o))).

Definition Output_get_connected_inputs (self : nat) : Py Val (list nat) :=
  let! o := get_output self in
  ret (to_inputs o).

Definition Output_get_module (self : nat) : Py Val nat :=
  let! o := get_output self in
  ret (o_module o).

(** [Output.connect] only forwards to [to_input.connect(self)], whatever
    [to_input] is: the method is looked up on the argument's class.  When the
    argument is itself an Output the call lands in [Output.connect] again, one
    frame deeper; [depth] is the number of frames the interpreter still
    grants. *)
Fixpoint Output_connect (depth : nat) (self : nat) (to_input : pyobj)
    : Py Val unit :=
  match depth with
  | 0 => raise RecursionError
  | S depth' =>
      match to_input with
      | PInput ix => Input_connect ix (POutput self)
      | POutput ox => Output_connect depth' ox (POutput self)
      | POther => raise AttributeError
      end
  end.

(** [for ix in self.to_inputs]: the list iterator keeps an index into the
    live list, which the body mutates; every round re-reads
    [self.to_inputs] from the heap. *)
Fixpoint reroute_all_loop (fuel : nat) (self : nat) (from_out : pyobj)
    (idx : nat) : Py Val unit :=
  match fuel with
  | 0 => raise OutOfFuel
  | S fuel' =>
      let! o := get_output self in
      match to_inputs o !! idx with
      | None => ret tt
      | Some ix =>
          Input_disconnect ix >>
          Input_connect ix from_out >>
          reroute_all_loop fuel' self from_out (S idx)
      end
  end.

Definition Output_reroute_all_connected_inputs (fuel : nat) (self : nat)
    (from_out : pyobj) : Py Val unit :=
  reroute_all_loop fuel self from_out 0.

End Ports.

(** ** Abstract methods

    [Hyperparameter._check_val], [Module._update], [Module._compile] and
    [Module._forward] raise NotImplementedError in the base classes and are
    supplied by subclasses.  A subclass body may read and write the heap and
    may raise. *)

Class Behaviour (Val : Type) : Type := {
  _check_val : nat -> Val -> Heap Val -> Heap Val * result unit;
  _update : nat -> Heap Val -> Heap Val * result unit;
  _compile : nat -> Heap Val -> Heap Val * result unit;
  _forward : nat -> Heap Val -> Heap Val * result unit }.

(** The base classes themselves. *)
Definition base_classes (Val : Type) : Behaviour Val := {|
  _check_val := fun _ _ h => (h, Raise NotImplementedError);
  _update := fun _ h => (h, Raise NotImplementedError);
  _compile := fun _ h => (h, Raise NotImplementedError);
  _forward := fun _ h => (h, Raise NotImplementedError) |}.

Inductive method : Type := M_check_val | M_update | M_compile | M_forward.

Definition call_method {Val} (c : Call Val) : method * nat :=
  match c with
  | CheckVal h _ _ => (M_check_val, h)
  | Update m _ => (M_update, m)
  | Compile m _ => (M_compile, m)
  | Forward m _ => (M_forward, m)
  end.

Definition call_heap {Val} (c : Call Val) : Heap Val :=
  match c with
  | CheckVal _ _ h | Update _ h | Compile _ h | Forward _ h => h
  end.

Section Objects.
Context {Val : Type} {B : Behaviour Val}.

(** Entering an abstract method: the call is logged with the heap at entry,
    then the body runs. *)
Definition call (c : Heap Val -> Call Val)
    (body : Heap Val -> Heap Val * result unit) : Py Val unit :=
  fun w => let '(h', r) := body (heap w) in
           (mkWorld h' (calls w ++ [c (heap w)]), r).

Definition get_hyperp (hp : nat) : Py Val (Hyperparameter Val) :=
  fun w => match h_hyperps (heap w) !! hp with
           | Some H => (w, Ok H)
           | None => (w, Raise NoSuchObject)
           end.

Definition set_hyperp (hp : nat) (H : Hyperparameter Val) : Py Val unit :=
  fun w => let h := heap w in
    (mkWorld (mkHeap (h_inputs h) (h_outputs h) (h_modules h)
                     (<[hp := H]> (h_hyperps h))) (calls w), Ok tt).

Definition get_module (m : nat) : Py Val ModuleObj :=
  fun w => match h_modules (heap w) !! m with
           | Some M => (w, Ok M)
           | None => (w, Raise NoSuchObject)
           end.

Definition set_module (m : nat) (M : ModuleObj) : Py Val unit :=
  fun w => let h := heap w in
    (mkWorld (mkHeap (h_inputs h) (h_outputs h) (<[m := M]> (h_modules h))
                     (h_hyperps h)) (calls w), Ok tt).

(** ** class Hyperparameter *)

Definition Hyperparameter_is_set (self : nat) : Py Val bool :=
  let! H := get_hyperp self in
  ret (set_done H).

Definition Hyperparameter_get_val (self : nat) : Py Val Val :=
  let! H := get_hyperp self in
  py_assert (set_done H) >>
  match val H with
  | Some v => ret v
  | None => raise AttributeError
  end.

Definition Hyperparameter_register_module (self module : nat)
    : Py Val unit :=
  let! H := get_hyperp self in
  set_hyperp self
    (mkHyperparameter (set_done H) (val H) (OrderedSet_add module (modules H))).

(** [for m in self.modules: m._update()].  [OrderedSet.__iter__] walks the
    keys of the underlying OrderedDict; its iterator raises RuntimeError when
    asked for a further key after the key set changed (the only change an
    OrderedSet admits is a new key).  [seen] is the key list at loop entry,
    [rest] what is left of it. *)
Fixpoint update_loop (self : nat) (seen : OrderedSet) (rest : list nat)
    : Py Val unit :=
  match rest with
  | [] => ret tt
  | m :: rest' =>
      let! H := get_hyperp self in
      if decide (modules H = seen)
      then call (Update m) (_update m) >> update_loop self seen rest'
      else raise RuntimeError
  end.

Definition Hyperparameter_set_val (self : nat) (v : Val) : Py Val unit :=
  let! H := get_hyperp self in
  py_assert (negb (set_done H)) >>
  call (CheckVal self v) (_check_val self v) >>
  let! H := get_hyperp self in
  set_hyperp self (mkHyperparameter true (val H) (modules H)) >>
  let! H := get_hyperp self in
  set_hyperp self (mkHyperparameter (set_done H) (Some v) (modules H)) >>
  let! H := get_hyperp self in
  update_loop self (modules H) (modules H).

(** ** class Module *)

Definition Module_forward (self : nat) : Py Val unit :=
  let! M := get_module self in
  (if _is_compiled M then ret tt
   else
     call (Compile self) (_compile self) >>
     let! M := get_module self in
     set_module self (mkModule (inputs M) (outputs M) (hyperps M) true)) >>
  call (Forward self) (_forward self).

(** [n] calls of [self.forward()] in a row. *)
Fixpoint forward_times (n : nat) (self : nat) : Py Val unit :=
  match n with
  | 0 => ret tt
  | S n' => Module_forward self >> forward_times n' self
  end.

End Objects.

(** ** Graph algorithms

    The functions below only read the graph; they take the heap as an
    argument and return a result.  The visit function handed to a traversal
    is a closure: [St] is the state it captures and updates. *)

Definition rbind {A B} (r : result A) (k : A -> result B) : result B :=
  match r with
  | Ok a => k a
  | Raise e => Raise e
  end.

Notation "'let?' x ':=' r 'in' k" := (rbind r (fun x => k))
  (at level 10, x name, r at level 100, k at level 200,
   format "'[v' 'let?'  x  ':='  r  'in' '/' k ']'").

Definition deref {A} (o : option A) : result A :=
  match o with
  | Some a => Ok a
  | None => Raise NoSuchObject
  end.

Fixpoint result_mapM {A B} (f : A -> result B) (l : list A)
    : result (list B) :=
  match l with
  | [] => Ok []
  | x :: l' =>
      let? y := f x in
      let? ys := result_mapM f l' in
      Ok (y :: ys)
  end.

Section Graph.
Context {Val : Type}.
Implicit Types h : Heap Val.

(** [x.get_module()] behind [assert isinstance(x, (Input, Output))]. *)
Definition obj_get_module h (x : pyobj) : result nat :=
  match x with
  | PInput ix => let? i := deref (h_inputs h !! ix) in Ok (i_module i)
  | POutput ox => let? o := deref (h_outputs h !! ox) in Ok (o_module o)
  | POther => Raise AssertionError
  end.

Fixpoint extract_loop h (lst : list pyobj) (ms : OrderedSet)
    : result (list nat) :=
  match lst with
  | [] => Ok ms
  | x :: lst' =>
      let? m := obj_get_module h x in
      extract_loop h lst' (OrderedSet_add m ms)
  end.

Definition extract_unique_modules h (input_or_output_lst : list pyobj)
    : result (list nat) :=
  extract_loop h input_or_output_lst [].

(** *** traverse_backward *)

(** The inner loop [for ix in itervalues(m.inputs)]: it extends [memo] and
    appends to [ms], the very list the outer loop iterates over. *)
Fixpoint visit_inputs h (ixs : list nat) (memo : gset nat) (ms : list nat)
    : result (gset nat * list nat) :=
  match ixs with
  | [] => Ok (memo, ms)
  | ix :: ixs' =>
      let? i := deref (h_inputs h !! ix) in
      match from_output i with
      | None => visit_inputs h ixs' memo ms
      | Some ox =>
          let? o := deref (h_outputs h !! ox) in
          let m_prev := o_module o in
          if decide (m_prev ∈ memo)
          then visit_inputs h ixs' memo ms
          else visit_inputs h ixs' ({[m_prev]} ∪ memo) (ms ++ [m_prev])
      end
  end.

(** [for m in ms]: the iterator is an index into the growing list. *)
Fixpoint traverse_backward_loop {St} h (fn : nat -> St -> result (bool * St))
    (fuel idx : nat) (ms : list nat) (memo : gset nat) (st : St)
    : result St :=
  match fuel with
  | 0 => Raise OutOfFuel
  | S fuel' =>
      match ms !! idx with
      | None => Ok st
      | Some m =>
          let? r := fn m st in
          if r.1 then Ok r.2
          else
            let? M := deref (h_modules h !! m) in
            let? q := visit_inputs h (itervalues (inputs M)) memo ms in
            traverse_backward_loop h fn fuel' (S idx) q.2 q.1 r.2
      end
  end.

Definition traverse_backward {St} h (fuel : nat) (output_lst : list pyobj)
    (fn : nat -> St -> result (bool * St)) (st : St) : result St :=
  let? ms := extract_unique_modules h output_lst in
  traverse_backward_loop h fn fuel 0 ms ∅ st.

(** What a traversal computes once the order [vs] of its visits is known:
    [fn] applied along [vs] until it asks to stop. *)
Fixpoint run_visits {St} (fn : nat -> St -> result (bool * St))
    (vs : list nat) (st : St) : result St :=
  match vs with
  | [] => Ok st
  | m :: vs' =>
      let? r := fn m st in
      if r.1 then Ok r.2 else run_visits fn vs' r.2
  end.

(** *** is_specified *)

(** The closure [fn] of [is_specified]; its state is the cell [is_spec[0]]. *)
Fixpoint is_specified_fn_loop h (hs : list nat) (is_spec : bool)
    : result (bool * bool) :=
  match hs with
  | [] => Ok (false, is_spec)
  | hp :: hs' =>
      let? H := deref (h_hyperps h !! hp) in
      if negb (set_done H) then Ok (true, false)
      else is_specified_fn_loop h hs' is_spec
  end.

Definition is_specified_fn h (module : nat) (is_spec : bool)
    : result (bool * bool) :=
  let? M := deref (h_modules h !! module) in
  is_specified_fn_loop h (itervalues (hyperps M)) is_spec.

Definition is_specified h (fuel : nat) (output_lst : list pyobj)
    : result bool :=
  traverse_backward h fuel output_lst (is_specified_fn h) true.

(** *** get_unset_hyperparameters *)

(** The closure [fn] of [get_unset_hyperparameters]; its state is [hs]. *)
Fixpoint get_unset_fn_loop h (hps : list nat) (hs : OrderedSet)
    : result (bool * OrderedSet) :=
  match hps with
  | [] => Ok (false, hs)
  | hp :: hps' =>
      let? H := deref (h_hyperps h !! hp) in
      if negb (set_done H)
      then get_unset_fn_loop h hps' (OrderedSet_add hp hs)
      else get_unset_fn_loop h hps' hs
  end.

Definition get_unset_fn h (module : nat) (hs : OrderedSet)
    : result (bool * OrderedSet) :=
  let? M := deref (h_modules h !! module) in
  get_unset_fn_loop h (itervalues (hyperps M)) hs.

Definition get_unset_hyperparameters h (fuel : nat)
    (output_lst : list pyobj) : result OrderedSet :=
  let? spec := is_specified h fuel output_lst in
  if negb spec
  then traverse_backward h fuel output_lst (get_unset_fn h) []
  else Raise AssertionError.

(** *** determine_module_eval_seq *)

(** [for ox in itervalues(m.outputs)]: marks the inputs fed by [m] and
    appends their modules to [ms]. *)
Fixpoint extend_outputs h (oxs : list nat) (input_memo : gset nat)
    (ms : list nat) : result (gset nat * list nat) :=
  match oxs with
  | [] => Ok (input_memo, ms)
  | ox :: oxs' =>
      let? o := deref (h_outputs h !! ox) in
      let ix_lst := to_inputs o in
      let? m_lst :=
        result_mapM (fun ix => obj_get_module h (PInput ix)) ix_lst in
      extend_outputs h oxs' (list_to_set ix_lst ∪ input_memo) (ms ++ m_lst)
  end.

Fixpoint eval_seq_loop h (fuel idx : nat) (ms module_seq : list nat)
    (module_memo input_memo : gset nat) : result (list nat) :=
  match fuel with
  | 0 => Raise OutOfFuel
  | S fuel' =>
      match ms !! idx with
      | None => Ok module_seq
      | Some m =>
          if decide (m ∈ module_memo)
          then eval_seq_loop h fuel' (S idx) ms module_seq
                 module_memo input_memo
          else
            let? M := deref (h_modules h !! m) in
            if forallb (fun ix => bool_decide (ix ∈ input_memo))
                 (itervalues (inputs M))
            then
              let? q := extend_outputs h (itervalues (outputs M))
                          input_memo ms in
              eval_seq_loop h fuel' (S idx) q.2 (module_seq ++ [m])
                ({[m]} ∪ module_memo) q.1
            else eval_seq_loop h fuel' (S idx) ms module_seq
                   module_memo input_memo
      end
  end.

Definition determine_module_eval_seq h (fuel : nat) (input_lst : list nat)
    : result (list nat) :=
  let? ms := extract_unique_modules h (PInput <$> input_lst) in
  eval_seq_loop h fuel 0 ms [] ∅ (list_to_set input_lst).

End Graph.

(** ** Well-formed heaps, budgets and reference notions *)

Definition opt_all {A} (P : A -> Prop) (o : option A) : Prop :=
  match o with
  | Some a => P a
  | None => True
  end.

#[global] Instance opt_all_dec {A} (P : A -> Prop)
  `{!∀ a, Decision (P a)} (o : option A) : Decision (opt_all P o).
Proof. destruct o; simpl; apply _. Defined.

Section Wf.
Context {Val : Type}.
Implicit Types h : Heap Val.

(** Every reference stored in an object points to an allocated object: this
    always holds of a Python heap. *)
Definition module_closed h (M : ModuleObj) : Prop :=
  Forall (fun ix => is_Some (h_inputs h !! ix)) (itervalues (inputs M)) ∧
  Forall (fun ox => is_Some (h_outputs h !! ox)) (itervalues (outputs M)) ∧
  Forall (fun hp => is_Some (h_hyperps h !! hp)) (itervalues (hyperps M)).

Definition input_closed h (i : Input) : Prop :=
  is_Some (h_modules h !! i_module i) ∧
  opt_all (fun ox => is_Some (h_outputs h !! ox)) (from_output i).

Definition output_closed h (o : Output) : Prop :=
  is_Some (h_modules h !! o_module o) ∧
  Forall (fun ix => is_Some (h_inputs h !! ix)) (to_inputs o).

Definition closed h : Prop :=
  map_Forall (fun _ M => module_closed h M) (h_modules h) ∧
  map_Forall (fun _ i => input_closed h i) (h_inputs h) ∧
  map_Forall (fun _ o => output_closed h o) (h_outputs h).

Definition allocated h (x : pyobj) : Prop :=
  match x with
  | PInput ix => is_Some (h_inputs h !! ix)
  | POutput ox => is_Some (h_outputs h !! ox)
  | POther => False
  end.

(** Referential symmetry of the data model: whatever an output lists among
    its connected inputs points back at that output. *)
Definition ref_symmetric h : Prop :=
  map_Forall (fun ox o =>
    Forall (fun ix => from_output <$> h_inputs h !! ix = Some (Some ox))
           (to_inputs o)) (h_outputs h).

(** Rounds granted to a backward traversal: one per seed and one per
    allocated module, plus the final, empty one. *)
Definition traverse_fuel h (output_lst : list pyobj) : nat :=
  S (length output_lst + size (h_modules h)).

(** Number of inputs fed by the outputs of a module. *)
Definition fanout h (M : ModuleObj) : nat :=
  sum_list ((fun ox => from_option (fun o => length (to_inputs o)) 0
                         (h_outputs h !! ox)) <$> itervalues (outputs M)).

(** The same, summed over the modules that are not in [memo]. *)
Definition pending_fanout_of h (memo : gset nat)
    (l : list (nat * ModuleObj)) : nat :=
  sum_list ((fun p => if decide (p.1 ∈ memo) then 0 else fanout h p.2) <$> l).

Definition pending_fanout h (memo : gset nat) : nat :=
  pending_fanout_of h memo (map_to_list (h_modules h)).

(** Rounds granted to [determine_module_eval_seq]: one per seed and one per
    input fed by an output of an allocated module, plus the final one. *)
Definition eval_seq_fuel h (input_lst : list nat) : nat :=
  S (length input_lst + pending_fanout h ∅).

(** Does one of the hyperparameters [hps] read as not set? *)
Definition any_unset h (hps : list nat) : bool :=
  existsb (fun hp => from_option (fun H => negb (set_done H)) false
                       (h_hyperps h !! hp)) hps.

(** Modules a backward walk from the seed modules [ms] can reach. *)
Inductive reach_backward h (ms : list nat) : nat -> Prop :=
  | reach_seed m : m ∈ ms -> reach_backward h ms m
  | reach_step m M ix i ox o :
      reach_backward h ms m ->
      h_modules h !! m = Some M ->
      ix ∈ itervalues (inputs M) ->
      h_inputs h !! ix = Some i ->
      from_output i = Some ox ->
      h_outputs h !! ox = Some o ->
      reach_backward h ms (o_module o).

(** Input [ix] is listed as connected by an output of module [m]. *)
Definition fed_by h (m : nat) (ix : nat) : Prop :=
  ∃ M ox o, h_modules h !! m = Some M ∧ ox ∈ itervalues (outputs M) ∧
            h_outputs h !! ox = Some o ∧ ix ∈ to_inputs o.

(** Input [ix] of the module at position [k] of [seq] is a seed or is fed by
    a module at a strictly smaller position. *)
Definition satisfied h (seeds seq : list nat) (k ix : nat) : Prop :=
  ix ∈ seeds ∨ ∃ j m, j < k ∧ seq !! j = Some m ∧ fed_by h m ix.

End Wf.

#[global] Instance closed_dec {Val} (h : Heap Val) : Decision (closed h).
Proof. unfold closed, module_closed, input_closed, output_closed. apply _. Defined.

#[global] Instance allocated_dec {Val} (h : Heap Val) x : Decision (allocated h x).
Proof. destruct x; simpl; apply _. Defined.

#[global] Instance ref_symmetric_dec {Val} (h : Heap Val) :
  Decision (ref_symmetric h).
Proof. unfold ref_symmetric. apply _. Defined.

(** Registration order with repetitions dropped: the first occurrence of a
    module stays. *)
Fixpoint dedup_first (seen : list nat) (l : list nat) : list nat :=
  match l with
  | [] => []
  | x :: l' => if decide (x ∈ seen) then dedup_first seen l'
               else x :: dedup_first (seen ++ [x]) l'
  end.

Section Drivers.
Context {Val : Type} {B : Behaviour Val}.

(** [m._register_hyperparameter] of each module of [regs] in turn: each one
    ends in [h._register_module(m)]. *)
Fixpoint register_modules (self : nat) (regs : list nat) : Py Val unit :=
  match regs with
  | [] => ret tt
  | m :: regs' =>
      Hyperparameter_register_module self m >> register_modules self regs'
  end.

(** An abstract method body that returns normally and leaves one attribute
    of one object as it found it. *)
Definition returns_keeping {A} (view : Heap Val -> A)
    (body : Heap Val -> Heap Val * result unit) : Prop :=
  ∀ h, ∃ h', body h = (h', Ok tt) ∧ view h' = view h.

(** What [self._is_compiled] reads in heap [h]. *)
Definition compiled_flag (self : nat) (h : Heap Val) : option bool :=
  _is_compiled <$> h_modules h !! self.

(** The visit function that never stops and records the modules it sees. *)
Definition record_visit (m : nat) (seen : list nat)
    : result (bool * list nat) :=
  Ok (false, seen ++ [m]).

End Drivers.

(** ** Sample graphs *)

(** Output 0 (of module 0) fans out to inputs 0 and 1 (of modules 1 and 2);
    module 3 owns output 1 and input 2, both unconnected. *)
Definition fanout_graph : Heap nat := {|
  h_inputs := list_to_map
    [(0, mkInput 1 (Some 0)); (1, mkInput 2 (Some 0)); (2, mkInput 3 None)];
  h_outputs := list_to_map
    [(0, mkOutput 0 [0; 1]); (1, mkOutput 3 [])];
  h_modules := list_to_map
    [(0, mkModule [] [("out", 0)] [] false);
     (1, mkModule [("in", 0)] [] [] false);
     (2, mkModule [("in", 1)] [] [] false);
     (3, mkModule [("in", 2)] [("out", 1)] [] false)];
  h_hyperps := ∅ |}.

(** Module 0 feeds module 1: output 0 of module 0 is connected to input 0 of
    module 1; input 1 of module 0 is unconnected.  Module 0 depends on
    hyperparameter 0, whose state is [H]. *)
Definition chain_graph (H : Hyperparameter nat) : Heap nat := {|
  h_inputs := list_to_map
    [(0, mkInput 1 (Some 0)); (1, mkInput 0 None)];
  h_outputs := list_to_map
    [(0, mkOutput 0 [0]); (1, mkOutput 1 [])];
  h_modules := list_to_map
    [(0, mkModule [("in", 1)] [("out", 0)] [("h", 0)] false);
     (1, mkModule [("in", 0)] [("out", 1)] [] false)];
  h_hyperps := {[ 0 := H ]} |}.

Definition unset_hyperp : Hyperparameter nat := mkHyperparameter false None [0].
Definition set_hyperp_7 : Hyperparameter nat :=
  mkHyperparameter true (Some 7) [0].

(** A subclass family: values below 10 are valid, [_update] and [_compile]
    leave the heap alone, [_forward] stores a fresh unconnected Input of
    the module at the next free address. *)
Definition sample_classes : Behaviour nat := {|
  _check_val := fun _ v h =>
    (h, if bool_decide (v < 10) then Ok tt else Raise AssertionError);
  _update := fun _ h => (h, Ok tt);
  _compile := fun _ h => (h, Ok tt);
  _forward := fun m h =>
    (mkHeap (<[size (h_inputs h) := mkInput m None]> (h_inputs h))
            (h_outputs h) (h_modules h) (h_hyperps h), Ok tt) |}.

(** ** class Scope

    The two OrderedDicts are never iterated, so they are kept as finite
    maps.  Elements are keyed by object identity; [Elem] is the type of
    object identities.  A lookup that raises KeyError is [None]. *)

Section ScopeModel.
Context {Elem : Type} `{Countable Elem}.

Record Scope : Type := mkScope {
  name_to_elem : gmap string Elem;
  elem_to_name : gmap Elem string }.

Definition Scope_init : Scope := mkScope ∅ ∅.

Definition Scope_register (name : string) (elem : Elem) (sc : Scope)
    : result Scope :=
  match name_to_elem sc !! name with
  | Some _ => Raise AssertionError
  | None =>
      Ok (mkScope (<[name := elem]> (name_to_elem sc))
                  (<[elem := name]> (elem_to_name sc)))
  end.

Definition Scope_get_name (elem : Elem) (sc : Scope) : option string :=
  elem_to_name sc !! elem.

Definition Scope_get_elem (name : string) (sc : Scope) : option Elem :=
  name_to_elem sc !! name.

(** [while True]: [i] counts up until [prefix + str(i)] is free. *)
Fixpoint get_unused_name_loop (fuel : nat) (prefix : string) (i : nat)
    (sc : Scope) : result string :=
  match fuel with
  | 0 => Raise OutOfFuel
  | S fuel' =>
      let name := prefix +:+ pretty i in
      match name_to_elem sc !! name with
      | None => Ok name
      | Some _ => get_unused_name_loop fuel' prefix (S i) sc
      end
  end.

Definition Scope_get_unused_name (fuel : nat) (prefix : string) (sc : Scope)
    : result string :=
  get_unused_name_loop fuel prefix 0 sc.

(** The naming done by [Hyperparameter.__init__] and [Module.__init__]:
    [kind] is ['H'] or ['M'], [base] the given name or the class name; the
    unused name is then registered by [Addressable.__init__]. *)
Definition Addressable_init_named (fuel : nat) (kind base : string)
    (self : Elem) (sc : Scope) : result Scope :=
  let? name := Scope_get_unused_name fuel (kind +:+ "." +:+ base +:+ "-") sc in
  Scope_register name self sc.

(** Every registered element is found again under the name it reads. *)
Definition scope_consistent (sc : Scope) : Prop :=
  ∀ elem name, elem_to_name sc !! elem = Some name ->
               name_to_elem sc !! name = Some elem.

End ScopeModel.

Arguments Scope Elem {_ _}.

(** ** Further methods of the ports, modules and hyperparameters *)

Section MorePorts.
Context {Val : Type}.

(** [Input.reroute_connected_output]: [old_ox.connect(to_input)] is a call
    of [Output.connect], one frame down. *)
Definition Input_reroute_connected_output (depth : nat) (self : nat)
    (to_input : pyobj) : Py Val unit :=
  match to_input with
  | PInput _ =>
      let! i := get_input self in
      let old_ox := from_output i in
      Input_disconnect self >>
      match old_ox with
      | Some ox => Output_connect depth ox to_input
      | None => raise AttributeError
      end
  | _ => raise AssertionError
  end.

(** [Output.disconnect_all]: as in [reroute_all_connected_inputs], the list
    under iteration is the one [disconnect] removes from. *)
Fixpoint disconnect_all_loop (fuel : nat) (self : nat) (idx : nat)
    : Py Val unit :=
  match fuel with
  | 0 => raise OutOfFuel
  | S fuel' =>
      let! o := get_output self in
      match to_inputs o !! idx with
      | None => ret tt
      | Some ix => Input_disconnect ix >> disconnect_all_loop fuel' self (S idx)
      end
  end.

Definition Output_disconnect_all (fuel : nat) (self : nat) : Py Val unit :=
  disconnect_all_loop fuel self 0.

(** [Module._register_hyperparameter(h, name)], for [h] a Hyperparameter.
    [self.hyperps[name] = h] appends, the key being new. *)
Definition Module_register_hyperparameter (self h : nat) (name : string)
    : Py Val unit :=
  let! M := get_module self in
  py_assert (bool_decide (name ∉ (hyperps M).*1)) >>
  set_module self (mkModule (inputs M) (outputs M)
                     (hyperps M ++ [(name, h)]) (_is_compiled M)) >>
  Hyperparameter_register_module h self.

End MorePorts.

(** The elements an iterator that skips one after each it yields gets to
    see, and those it misses. *)
Fixpoint evens (l : list nat) : list nat :=
  match l with
  | [] => []
  | x :: l' => x :: match l' with [] => [] | _ :: l'' => evens l'' end
  end.

Fixpoint odds (l : list nat) : list nat :=
  match l with
  | [] => []
  | _ :: l' => match l' with [] => [] | y :: l'' => y :: odds l'' end
  end.

Section PortInvariant.
Context {Val : Type}.
Implicit Types h : Heap Val.

(** The connection state is consistent: an output lists an input, once,
    exactly when that input points back at it. *)
Definition ports_consistent h : Prop :=
  ref_symmetric h ∧
  map_Forall (fun _ o => NoDup (to_inputs o)) (h_outputs h) ∧
  map_Forall (fun ix i =>
    opt_all (fun ox => ix ∈ from_option to_inputs [] (h_outputs h !! ox))
            (from_output i)) (h_inputs h).

#[global] Instance ports_consistent_dec h : Decision (ports_consistent h).
Proof. unfold ports_consistent. apply _. Defined.

(** The world [w] with the two port stores replaced. *)
Definition set_ports (w : World Val) (ins : gmap nat Input)
    (outs : gmap nat Output) : World Val :=
  mkWorld (mkHeap ins outs (h_modules (heap w)) (h_hyperps (heap w)))
          (calls w).

End PortInvariant.

(** ** traverse_forward and the collectors *)

Section MoreGraph.
Context {Val : Type}.
Implicit Types h : Heap Val.

(** [for ix in ox.get_connected_inputs()]. *)
Fixpoint visit_connected h (ixs : list nat) (memo : gset nat)
    (ms : list nat) : result (gset nat * list nat) :=
  match ixs with
  | [] => Ok (memo, ms)
  | ix :: ixs' =>
      let? i := deref (h_inputs h !! ix) in
      let m_next := i_module i in
      if decide (m_next ∈ memo)
      then visit_connected h ixs' memo ms
      else visit_connected h ixs' ({[m_next]} ∪ memo) (ms ++ [m_next])
  end.

(** [for ox in itervalues(m.outputs): if ox.is_connected(): ...]. *)
Fixpoint visit_outputs h (oxs : list nat) (memo : gset nat) (ms : list nat)
    : result (gset nat * list nat) :=
  match oxs with
  | [] => Ok (memo, ms)
  | ox :: oxs' =>
      let? o := deref (h_outputs h !! ox) in
      if bool_decide (0 < length (to_inputs o))
      then
        let? q := visit_connected h (to_inputs o) memo ms in
        visit_outputs h oxs' q.1 q.2
      else visit_outputs h oxs' memo ms
  end.

Fixpoint traverse_forward_loop {St} h (fn : nat -> St -> result (bool * St))
    (fuel idx : nat) (ms : list nat) (memo : gset nat) (st : St)
    : result St :=
  match fuel with
  | 0 => Raise OutOfFuel
  | S fuel' =>
      match ms !! idx with
      | None => Ok st
      | Some m =>
          let? r := fn m st in
          if r.1 then Ok r.2
          else
            let? M := deref (h_modules h !! m) in
            let? q := visit_outputs h (itervalues (outputs M)) memo ms in
            traverse_forward_loop h fn fuel' (S idx) q.2 q.1 r.2
      end
  end.

Definition traverse_forward {St} h (fuel : nat) (input_lst : list pyobj)
    (fn : nat -> St -> result (bool * St)) (st : St) : result St :=
  let? ms := extract_unique_modules h input_lst in
  traverse_forward_loop h fn fuel 0 ms ∅ st.

(** The closure of [get_unconnected_inputs]; its state is [ix_lst]. *)
Fixpoint unconnected_inputs_loop h (ixs : list nat) (ix_lst : list nat)
    : result (bool * list nat) :=
  match ixs with
  | [] => Ok (false, ix_lst)
  | ix :: ixs' =>
      let? i := deref (h_inputs h !! ix) in
      if bool_decide (from_output i <> None)
      then unconnected_inputs_loop h ixs' ix_lst
      else unconnected_inputs_loop h ixs' (ix_lst ++ [ix])
  end.

Definition unconnected_inputs_fn h (x : nat) (ix_lst : list nat)
    : result (bool * list nat) :=
  let? M := deref (h_modules h !! x) in
  unconnected_inputs_loop h (itervalues (inputs M)) ix_lst.

Definition get_unconnected_inputs h (fuel : nat) (output_lst : list pyobj)
    : result (list nat) :=
  traverse_backward h fuel output_lst (unconnected_inputs_fn h) [].

(** The closure of [get_unconnected_outputs]; its state is [ox_lst]. *)
Fixpoint unconnected_outputs_loop h (oxs : list nat) (ox_lst : list nat)
    : result (bool * list nat) :=
  match oxs with
  | [] => Ok (false, ox_lst)
  | ox :: oxs' =>
      let? o := deref (h_outputs h !! ox) in
      if bool_decide (0 < length (to_inputs o))
      then unconnected_outputs_loop h oxs' ox_lst
      else unconnected_outputs_loop h oxs' (ox_lst ++ [ox])
  end.

Definition unconnected_outputs_fn h (x : nat) (ox_lst : list nat)
    : result (bool * list nat) :=
  let? M := deref (h_modules h !! x) in
  unconnected_outputs_loop h (itervalues (outputs M)) ox_lst.

Definition get_unconnected_outputs h (fuel : nat) (input_lst : list pyobj)
    : result (list nat) :=
  traverse_forward h fuel input_lst (unconnected_outputs_fn h) [].

(** *** Both traversals as one worklist loop *)

(** What the inner loops do with the neighbours [ns] of a module, in the
    order they meet them. *)
Fixpoint absorb (ns : list nat) (memo : gset nat) (ms : list nat)
    : gset nat * list nat :=
  match ns with
  | [] => (memo, ms)
  | n :: ns' =>
      if decide (n ∈ memo) then absorb ns' memo ms
      else absorb ns' ({[n]} ∪ memo) (ms ++ [n])
  end.

Fixpoint worklist_loop {St} (nbrs : nat -> result (list nat))
    (fn : nat -> St -> result (bool * St))
    (fuel idx : nat) (ms : list nat) (memo : gset nat) (st : St)
    : result St :=
  match fuel with
  | 0 => Raise OutOfFuel
  | S fuel' =>
      match ms !! idx with
      | None => Ok st
      | Some m =>
          let? r := fn m st in
          if r.1 then Ok r.2
          else
            let? ns := nbrs m in
            let q := absorb ns memo ms in
            worklist_loop nbrs fn fuel' (S idx) q.2 q.1 r.2
      end
  end.

(** Modules upstream of the inputs [ixs], one per connected input. *)
Fixpoint upstream_of h (ixs : list nat) : result (list nat) :=
  match ixs with
  | [] => Ok []
  | ix :: ixs' =>
      let? i := deref (h_inputs h !! ix) in
      match from_output i with
      | None => upstream_of h ixs'
      | Some ox =>
          let? o := deref (h_outputs h !! ox) in
          let? ns := upstream_of h ixs' in
          Ok (o_module o :: ns)
      end
  end.

Definition upstream h (m : nat) : result (list nat) :=
  let? M := deref (h_modules h !! m) in
  upstream_of h (itervalues (inputs M)).

(** Modules owning the inputs [ixs]. *)
Fixpoint owners_of h (ixs : list nat) : result (list nat) :=
  match ixs with
  | [] => Ok []
  | ix :: ixs' =>
      let? i := deref (h_inputs h !! ix) in
      let? ns := owners_of h ixs' in
      Ok (i_module i :: ns)
  end.

(** Modules downstream of the outputs [oxs], one per connected input. *)
Fixpoint downstream_of h (oxs : list nat) : result (list nat) :=
  match oxs with
  | [] => Ok []
  | ox :: oxs' =>
      let? o := deref (h_outputs h !! ox) in
      let? ns := owners_of h (to_inputs o) in
      let? ns' := downstream_of h oxs' in
      Ok (ns ++ ns')
  end.

Definition downstream h (m : nat) : result (list nat) :=
  let? M := deref (h_modules h !! m) in
  downstream_of h (itervalues (outputs M)).

(** Modules a forward walk from the seed modules [ms] can reach. *)
Inductive reach_forward h (ms : list nat) : nat -> Prop :=
  | fwd_seed m : m ∈ ms -> reach_forward h ms m
  | fwd_step m M ox o ix i :
      reach_forward h ms m ->
      h_modules h !! m = Some M ->
      ox ∈ itervalues (outputs M) ->
      h_outputs h !! ox = Some o ->
      ix ∈ to_inputs o ->
      h_inputs h !! ix = Some i ->
      reach_forward h ms (i_module i).

(** A hyperparameter of a module, read as not set. *)
Definition unset_in h (m hp : nat) : Prop :=
  ∃ M H, h_modules h !! m = Some M ∧ hp ∈ itervalues (hyperps M) ∧
         h_hyperps h !! hp = Some H ∧ set_done H = false.

(** An input of a module that has no connected output. *)
Definition unconnected_in h (m ix : nat) : Prop :=
  ∃ M i, h_modules h !! m = Some M ∧ ix ∈ itervalues (inputs M) ∧
         h_inputs h !! ix = Some i ∧ from_output i = None.

(** An output of a module that has no connected input. *)
Definition dangling_in h (m ox : nat) : Prop :=
  ∃ M o, h_modules h !! m = Some M ∧ ox ∈ itervalues (outputs M) ∧
         h_outputs h !! ox = Some o ∧ to_inputs o = [].

(** Reachability along an abstract neighbour function. *)
Inductive reach_along (nbrs : nat -> result (list nat)) (ms : list nat)
    : nat -> Prop :=
  | along_seed m : m ∈ ms -> reach_along nbrs ms m
  | along_step m ns n :
      reach_along nbrs ms m -> nbrs m = Ok ns -> n ∈ ns ->
      reach_along nbrs ms n.

End MoreGraph.

(** A scope with two hyperparameters registered by hand. *)
Definition sample_scope : Scope nat :=
  mkScope (list_to_map [("H.D-0", 7); ("H.D-1", 8)])
          (list_to_map [(7, "H.D-0"); (8, "H.D-1")]).

(** Output 0 connected, in this order, to inputs 0, 1, 2, 3 and 4. *)
Definition wide_graph : Heap nat := {|
  h_inputs := list_to_map
    [(0, mkInput 1 (Some 0)); (1, mkInput 1 (Some 0));
     (2, mkInput 1 (Some 0)); (3, mkInput 1 (Some 0));
     (4, mkInput 1 (Some 0)); (5, mkInput 1 None)];
  h_outputs := list_to_map
    [(0, mkOutput 0 [0; 1; 2; 3; 4]); (1, mkOutput 0 [])];
  h_modules := list_to_map
    [(0, mkModule [] [("a", 0); ("b", 1)] [] false);
     (1, mkModule [("i0", 0); ("i1", 1); ("i2", 2); ("i3", 3); ("i4", 4);
                   ("i5", 5)] [] [] false)];
  h_hyperps := ∅ |}.

(** * Properties *)

Ltac py_unfold :=
  unfold bind, ret, raise, py_assert, get_input, get_output, set_input,
    set_output, get_hyperp, set_hyperp, get_module, set_module, call.

Lemma list_remove_first_snoc (x : nat) (l : list nat) :
  x ∉ l -> list_remove_first x (l ++ [x]) = Some l.
Proof.
  induction l as [|y l IH]; intros Hx; simpl.
  - by rewrite decide_True.
  - apply not_elem_of_cons in Hx as [Hxy Hxl].
    rewrite decide_False by done. by rewrite IH.
Qed.

Lemma filter_eq_snoc (x : nat) (l : list nat) :
  x ∉ l -> length (filter (fun y => y = x) (l ++ [x])) = 1.
Proof.
  intros Hx. rewrite filter_app, length_app.
  replace (filter (fun y => y = x) l) with (@nil nat).
  - simpl. rewrite filter_cons_True by done. done.
  - clear -Hx. induction l as [|y l IH]; [done|].
    apply not_elem_of_cons in Hx as [Hxy Hxl].
    rewrite filter_cons_False by congruence. auto.
Qed.

Section PortProperties.
Context {Val : Type}.
Implicit Types w : World Val.

Lemma ref_symmetric_unconnected w O I o i :
  ref_symmetric (heap w) ->
  h_outputs (heap w) !! O = Some o ->
  h_inputs (heap w) !! I = Some i ->
  from_output i = None ->
  I ∉ to_inputs o.
Proof.
  intros Hsym HO HI Hfree Hin.
  specialize (Hsym O o HO). rewrite Forall_forall in Hsym.
  specialize (Hsym I Hin). rewrite HI in Hsym. simpl in Hsym. congruence.
Qed.

(** C8. After [O.connect(I)] on an unconnected input [I] of a graph with
    referential symmetry, [I.is_connected()] holds, [I]'s connected output
    is [O], [O.get_connected_inputs()] lists [I] exactly once, and
    [I.disconnect()] brings the whole state back to what it was before the
    connect. *)
Theorem connect_disconnect_round_trip w (depth O I : nat) o i :
  ref_symmetric (heap w) ->
  h_outputs (heap w) !! O = Some o ->
  h_inputs (heap w) !! I = Some i ->
  from_output i = None ->
  ∃ w1 l,
    Output_connect (S depth) O (PInput I) w = (w1, Ok tt) ∧
    Input_is_connected I w1 = (w1, Ok true) ∧
    Input_get_connected_output I w1 = (w1, Ok (Some O)) ∧
    Output_get_connected_inputs O w1 = (w1, Ok l) ∧
    length (filter (fun x => x = I) l) = 1 ∧
    Input_disconnect I w1 = (w, Ok tt).
Proof.
  intros Hsym HO HI Hfree.
  pose proof (ref_symmetric_unconnected w O I o i Hsym HO HI Hfree) as Hnotin.
  destruct w as [[ins outs mods hyps] cs]. simpl in *.
  eexists _, _. simpl.
  unfold Input_connect, Input_is_connected, Input_get_connected_output,
    Output_get_connected_inputs, Input_disconnect.
  py_unfold. simpl. rewrite HI, Hfree. simpl. rewrite HO.
  split; [reflexivity|]. simpl.
  repeat (rewrite lookup_insert_eq; simpl).
  repeat split; try done.
  - by apply filter_eq_snoc.
  - rewrite list_remove_first_snoc by done. simpl.
    rewrite !insert_insert_eq.
    rewrite (insert_id outs O) by (by destruct o).
    rewrite (insert_id ins I); [done|].
    destruct i; simpl in *; by subst.
Qed.

End PortProperties.

Section ConnectErrors.
Context {Val : Type}.
Implicit Types w : World Val.

(** An input that already has a connected output refuses a second one, and
    nothing is written. *)
Lemma input_connect_twice w (I O O' : nat) i :
  h_inputs (heap w) !! I = Some i ->
  from_output i = Some O' ->
  Input_connect I (POutput O) w = (w, Raise AssertionError).
Proof.
  intros HI Hfrom. unfold Input_connect. py_unfold.
  rewrite HI, Hfrom. done.
Qed.

Lemma output_connect_twice w (depth I O O' : nat) i :
  h_inputs (heap w) !! I = Some i ->
  from_output i = Some O' ->
  Output_connect (S depth) O (PInput I) w = (w, Raise AssertionError).
Proof. apply input_connect_twice. Qed.

(** [Input.connect] checks the class of its argument first. *)
Lemma input_connect_input w (I I' : nat) :
  Input_connect I (PInput I') w = (w, Raise AssertionError).
Proof. done. Qed.

(** C9. [Output.connect] handed an Output where an Input is expected: for
    every call depth the interpreter grants, the two outputs call each
    other's [connect] until that depth is used up.  No assertion is ever
    reached; the only way out is the exhaustion of the stack. *)
Theorem output_connect_output_unbounded w (depth o1 o2 : nat) :
  Output_connect depth o1 (POutput o2) w = (w, Raise RecursionError).
Proof.
  revert o1 o2. induction depth as [|depth IH]; intros o1 o2; [done|].
  simpl. apply IH.
Qed.

(** C1. An output [O] connected to exactly [I1; I2], rerouted to another
    output [O2]: [reroute_all_connected_inputs] returns normally after moving
    [I1] only.  Removing [I1] from the list being iterated shifts [I2] to
    index 0, which the iterator has already passed, so the loop ends: [O]
    still lists [I2], [I2] still points at [O], and [O2] has gained [I1]
    alone. *)
Theorem reroute_all_leaves_second_input w (fuel O O2 I1 I2 : nat)
    o o2 i1 i2 :
  h_outputs (heap w) !! O = Some o -> to_inputs o = [I1; I2] ->
  h_outputs (heap w) !! O2 = Some o2 -> O ≠ O2 -> I1 ≠ I2 ->
  h_inputs (heap w) !! I1 = Some i1 -> from_output i1 = Some O ->
  h_inputs (heap w) !! I2 = Some i2 -> from_output i2 = Some O ->
  ∃ w',
    Output_reroute_all_connected_inputs (2 + fuel) O (POutput O2) w
      = (w', Ok tt) ∧
    to_inputs <$> h_outputs (heap w') !! O = Some [I2] ∧
    to_inputs <$> h_outputs (heap w') !! O2 = Some (to_inputs o2 ++ [I1]) ∧
    from_output <$> h_inputs (heap w') !! I1 = Some (Some O2) ∧
    from_output <$> h_inputs (heap w') !! I2 = Some (Some O).
Proof.
  intros HO Hto HO2 HOO HII HI1 Hf1 HI2 Hf2.
  destruct w as [[ins outs mods hyps] cs]. simpl in *.
  eexists. split.
  - unfold Output_reroute_all_connected_inputs. simpl.
    unfold Input_disconnect, Input_connect. py_unfold. simpl.
    rewrite HO, Hto. simpl. rewrite HI1, Hf1. simpl. rewrite HO, Hto. simpl.
    rewrite decide_True by done. simpl.
    rewrite lookup_insert_eq. simpl.
    rewrite lookup_insert_ne by done. rewrite HO2. simpl.
    rewrite lookup_insert_ne by done. rewrite lookup_insert_eq. simpl.
    reflexivity.
  - simpl. rewrite lookup_insert_ne by done. rewrite !lookup_insert_eq.
    rewrite lookup_insert_ne by done. rewrite lookup_insert_ne by done.
    rewrite HI2. simpl. rewrite Hf2. done.
Qed.

End ConnectErrors.

Section TraversalExamples.

(** C2. Seeds [module 0's output; module 1's output], module 0 feeding
    module 1: the seed modules are never entered into [memo], so module 0 is
    appended again when module 1's input is followed, and the visit function
    is applied to it twice. *)
Theorem traverse_backward_revisits_seed (fuel : nat) :
  traverse_backward (chain_graph unset_hyperp) (4 + fuel)
    [POutput 0; POutput 1] record_visit [] = Ok [0; 1; 0].
Proof. vm_compute. done. Qed.

End TraversalExamples.

Section HyperparameterProperties.
Context {Val : Type} {B : Behaviour Val}.
Implicit Types w : World Val.

(** C6. [set_val] on a hyperparameter that is already set fails on its first
    assertion: nothing is written and the validation is not even called.  On
    an unset hyperparameter whose validation rejects the value (raising
    without writing), [set_val] fails with that error; the heap is the one
    it started from, so the hyperparameter is still unset and holds no
    value, and the validation is the only abstract method that was called:
    no module was notified. *)
Theorem set_val_failure_leaves_state w (self : nat) (v : Val) H :
  h_hyperps (heap w) !! self = Some H ->
  (set_done H = true ->
     Hyperparameter_set_val self v w = (w, Raise AssertionError)) ∧
  (∀ e, set_done H = false ->
     _check_val self v (heap w) = (heap w, Raise e) ->
     Hyperparameter_set_val self v w =
       (mkWorld (heap w) (calls w ++ [CheckVal self v (heap w)]), Raise e)).
Proof.
  intros HH. split.
  - intros Hset. unfold Hyperparameter_set_val. py_unfold.
    rewrite HH, Hset. done.
  - intros e Hunset Hcheck. unfold Hyperparameter_set_val. py_unfold.
    rewrite HH, Hunset. simpl. rewrite Hcheck. done.
Qed.

End HyperparameterProperties.

Lemma OrderedSet_update_dedup (regs : list nat) (d : OrderedSet) :
  OrderedSet_update regs d = d ++ dedup_first d regs.
Proof.
  revert d. induction regs as [|x regs IH]; intros d.
  - by rewrite app_nil_r.
  - unfold OrderedSet_update in *. cbn [foldl dedup_first]. rewrite IH.
    unfold OrderedSet_add. destruct (decide (x ∈ d)) as [Hx|Hx].
    + by rewrite decide_True.
    + rewrite decide_False by done. by rewrite <- app_assoc.
Qed.

Lemma dedup_first_elem (seen l : list nat) (x : nat) :
  x ∈ dedup_first seen l ↔ x ∈ l ∧ x ∉ seen.
Proof.
  revert seen. induction l as [|y l IH]; intros seen; simpl.
  - split; [intros Hx|intros [Hx _]]; by apply not_elem_of_nil in Hx.
  - destruct (decide (y ∈ seen)) as [Hy|Hy].
    + rewrite IH, elem_of_cons. split; [intros [? ?]; by auto|].
      intros [[->|?] ?]; done.
    + rewrite elem_of_cons, IH. rewrite elem_of_cons, elem_of_app.
      rewrite list_elem_of_singleton.
      destruct (decide (x = y)) as [->|Hne]; [tauto|]. tauto.
Qed.

Lemma dedup_first_NoDup (seen l : list nat) : NoDup (dedup_first seen l).
Proof.
  revert seen. induction l as [|y l IH]; intros seen; simpl.
  - constructor.
  - destruct (decide (y ∈ seen)); [apply IH|].
    constructor; [|apply IH].
    rewrite dedup_first_elem. intros [_ Hn]. apply Hn, elem_of_app.
    right. by apply list_elem_of_singleton.
Qed.

Section Notification.
Context {Val : Type} {B : Behaviour Val}.
Implicit Types w : World Val.

Lemma register_modules_spec w (self : nat) (regs : list nat) H :
  h_hyperps (heap w) !! self = Some H ->
  register_modules self regs w =
    (mkWorld
       (mkHeap (h_inputs (heap w)) (h_outputs (heap w)) (h_modules (heap w))
          (<[self := mkHyperparameter (set_done H) (val H)
                       (OrderedSet_update regs (modules H))]>
             (h_hyperps (heap w))))
       (calls w), Ok tt).
Proof.
  revert w H. induction regs as [|m regs IH]; intros w H HH.
  - simpl. unfold ret. f_equal.
    destruct w as [[ins outs mods hyps] cs]. simpl in *.
    rewrite insert_id; [done|]. by destruct H.
  - simpl. unfold Hyperparameter_register_module. py_unfold.
    rewrite HH. simpl.
    erewrite IH by (simpl; apply lookup_insert_eq). simpl.
    by rewrite insert_insert_eq.
Qed.

Lemma update_loop_spec w (self : nat) (rest : list nat) H :
  h_hyperps (heap w) !! self = Some H ->
  (∀ m, returns_keeping (fun h => h_hyperps h !! self) (_update m)) ->
  ∃ w' cs,
    update_loop self (modules H) rest w = (w', Ok tt) ∧
    calls w' = calls w ++ cs ∧
    call_method <$> cs = (fun m => (M_update, m)) <$> rest ∧
    Forall (fun c => h_hyperps (call_heap c) !! self = Some H) cs ∧
    h_hyperps (heap w') !! self = Some H.
Proof.
  intros HH Hupd. revert w HH.
  induction rest as [|m rest IH]; intros w HH.
  - exists w, []. simpl. rewrite app_nil_r. by repeat split.
  - destruct (Hupd m (heap w)) as (h' & Hrun & Hkeep).
    destruct (IH (mkWorld h' (calls w ++ [Update m (heap w)])))
      as (w' & cs & Hloop & Hcalls & Hmeth & Hall & Hfin).
    { simpl. by rewrite Hkeep. }
    exists w', (Update m (heap w) :: cs). simpl in *.
    py_unfold. rewrite HH. rewrite decide_True by done.
    rewrite Hrun. split; [exact Hloop|].
    split; [by rewrite Hcalls, <- app_assoc|].
    split; [by f_equal|].
    split; [by constructor|done].
Qed.

Lemma set_val_spec w (self : nat) (v : Val) H :
  h_hyperps (heap w) !! self = Some H ->
  set_done H = false ->
  returns_keeping (fun h => h_hyperps h !! self) (_check_val self v) ->
  (∀ m, returns_keeping (fun h => h_hyperps h !! self) (_update m)) ->
  let Hset := mkHyperparameter true (Some v) (modules H) in
  ∃ w' cs,
    Hyperparameter_set_val self v w = (w', Ok tt) ∧
    calls w' = calls w ++ CheckVal self v (heap w) :: cs ∧
    call_method <$> cs = (fun m => (M_update, m)) <$> modules H ∧
    Forall (fun c => h_hyperps (call_heap c) !! self = Some Hset) cs ∧
    h_hyperps (heap w') !! self = Some Hset.
Proof.
  intros HH Hunset Hcheck Hupd Hset.
  destruct (Hcheck (heap w)) as (hc & Hrun & Hkeep).
  destruct (update_loop_spec
    (mkWorld
       (mkHeap (h_inputs hc) (h_outputs hc) (h_modules hc)
          (<[self := Hset]> (h_hyperps hc)))
       (calls w ++ [CheckVal self v (heap w)])) self (modules H) Hset)
    as (w' & cs & Hloop & Hcalls & Hmeth & Hall & Hfin);
    [apply lookup_insert_eq|done|].
  exists w', cs. split.
  - unfold Hyperparameter_set_val. py_unfold.
    rewrite HH, Hunset. simpl. rewrite Hrun. simpl.
    rewrite Hkeep, HH. simpl.
    repeat (rewrite lookup_insert_eq; simpl).
    rewrite !insert_insert_eq. exact Hloop.
  - split; [by rewrite Hcalls; simpl; rewrite <- app_assoc|done].
Qed.

(** C5. A hyperparameter starts unset with no dependents.  After the modules
    of [regs] registered with it, in that order and possibly more than once,
    [set_val v] with a valid [v] returns normally having called, after the
    validation, the [_update] hook of each registered module exactly once,
    in the order of first registration.  Every one of these calls was
    entered with the hyperparameter already set and holding [v].  Hooks are
    taken to return normally and to leave the hyperparameter itself alone. *)
Theorem set_val_notifies_in_order w (self : nat) (v : Val)
    (regs : list nat) :
  h_hyperps (heap w) !! self = Some (mkHyperparameter false None []) ->
  returns_keeping (fun h => h_hyperps h !! self) (_check_val self v) ->
  (∀ m, returns_keeping (fun h => h_hyperps h !! self) (_update m)) ->
  ∃ w1 w2 cs,
    register_modules self regs w = (w1, Ok tt) ∧
    Hyperparameter_set_val self v w1 = (w2, Ok tt) ∧
    calls w2 = calls w ++ CheckVal self v (heap w1) :: cs ∧
    call_method <$> cs = (fun m => (M_update, m)) <$> dedup_first [] regs ∧
    NoDup (dedup_first [] regs) ∧
    (∀ m, m ∈ dedup_first [] regs ↔ m ∈ regs) ∧
    Forall (fun c => h_hyperps (call_heap c) !! self =
              Some (mkHyperparameter true (Some v) (dedup_first [] regs))) cs ∧
    h_hyperps (heap w2) !! self =
      Some (mkHyperparameter true (Some v) (dedup_first [] regs)).
Proof.
  intros HH Hcheck Hupd.
  pose proof (register_modules_spec w self regs _ HH) as Hreg.
  rewrite OrderedSet_update_dedup in Hreg. simpl in Hreg.
  match type of Hreg with _ = (?w1, _) =>
    destruct (set_val_spec w1 self v
                (mkHyperparameter false None (dedup_first [] regs)))
      as (w2 & cs & Hrun & Hcalls & Hmeth & Hall & Hfin);
      [apply lookup_insert_eq|done|done|done|];
    exists w1, w2, cs
  end.
  split; [done|]. split; [done|]. split; [done|]. split; [done|].
  split; [apply dedup_first_NoDup|]. split; [|done].
  intros m. rewrite dedup_first_elem. split; [by intros [? _]|].
  intros Hm. split; [done|apply not_elem_of_nil].
Qed.

End Notification.

Section ForwardProperties.
Context {Val : Type} {B : Behaviour Val}.
Implicit Types w : World Val.

Lemma forward_when_uncompiled w (self : nat) :
  compiled_flag self (heap w) = Some false ->
  returns_keeping (compiled_flag self) (_compile self) ->
  returns_keeping (compiled_flag self) (_forward self) ->
  ∃ w' h1,
    Module_forward self w = (w', Ok tt) ∧
    calls w' = calls w ++ [Compile self (heap w); Forward self h1] ∧
    compiled_flag self h1 = Some true ∧
    compiled_flag self (heap w') = Some true.
Proof.
  intros Hflag Hcomp Hfwd. unfold compiled_flag in Hflag.
  destruct (h_modules (heap w) !! self) as [M|] eqn:HM; [|done].
  simpl in Hflag. injection Hflag as Hflag.
  destruct (Hcomp (heap w)) as (hc & Hrun & Hkeep).
  unfold compiled_flag in Hkeep. rewrite HM in Hkeep. simpl in Hkeep.
  destruct (h_modules hc !! self) as [Mc|] eqn:HMc; [|done].
  set (h1 := mkHeap (h_inputs hc) (h_outputs hc)
               (<[self := mkModule (inputs Mc) (outputs Mc) (hyperps Mc) true]>
                  (h_modules hc)) (h_hyperps hc)).
  assert (Hh1 : compiled_flag self h1 = Some true).
  { unfold compiled_flag, h1. simpl. by rewrite lookup_insert_eq. }
  destruct (Hfwd h1) as (hf & Hrunf & Hkeepf).
  exists (mkWorld hf (calls w ++ [Compile self (heap w); Forward self h1])), h1.
  split; [|split; [done|split; [done|simpl; by rewrite Hkeepf]]].
  unfold Module_forward. py_unfold. rewrite HM, Hflag. simpl.
  rewrite Hrun. simpl. rewrite HMc. simpl. fold h1. rewrite Hrunf.
  by rewrite <- app_assoc.
Qed.

Lemma forward_when_compiled w (self : nat) :
  compiled_flag self (heap w) = Some true ->
  returns_keeping (compiled_flag self) (_forward self) ->
  ∃ w',
    Module_forward self w = (w', Ok tt) ∧
    calls w' = calls w ++ [Forward self (heap w)] ∧
    compiled_flag self (heap w') = Some true.
Proof.
  intros Hflag Hfwd.
  destruct (Hfwd (heap w)) as (hf & Hrunf & Hkeepf).
  exists (mkWorld hf (calls w ++ [Forward self (heap w)])).
  split; [|split; [done|simpl; by rewrite Hkeepf]].
  unfold compiled_flag in Hflag.
  destruct (h_modules (heap w) !! self) as [M|] eqn:HM; [|done].
  simpl in Hflag. injection Hflag as Hflag.
  unfold Module_forward. py_unfold. rewrite HM, Hflag. simpl.
  by rewrite Hrunf.
Qed.

Lemma forward_times_compiled (n : nat) w (self : nat) :
  compiled_flag self (heap w) = Some true ->
  returns_keeping (compiled_flag self) (_forward self) ->
  ∃ w' cs,
    forward_times n self w = (w', Ok tt) ∧
    calls w' = calls w ++ cs ∧
    call_method <$> cs = replicate n (M_forward, self) ∧
    Forall (fun c => compiled_flag self (call_heap c) = Some true) cs ∧
    compiled_flag self (heap w') = Some true.
Proof.
  intros Hflag Hfwd. revert w Hflag.
  induction n as [|n IH]; intros w Hflag.
  - exists w, []. simpl. rewrite app_nil_r. by repeat split.
  - destruct (forward_when_compiled w self Hflag Hfwd)
      as (w1 & Hrun & Hcalls & Hflag1).
    destruct (IH w1 Hflag1) as (w' & cs & Hrest & Hcalls' & Hmeth & Hall & Hfin).
    exists w', (Forward self (heap w) :: cs). simpl.
    unfold bind. rewrite Hrun. split; [exact Hrest|].
    split; [by rewrite Hcalls', Hcalls, <- app_assoc|].
    split; [by f_equal|]. split; [by constructor|done].
Qed.

(** C7. On a module that has not been compiled, any number [n >= 1] of
    [forward()] calls in a row makes exactly these calls to the two steps:
    [_compile] once, first, then [_forward] [n] times.  Every [_forward]
    is entered with the compiled flag true, and the flag is true at the end:
    it never goes back to false.  The two steps are taken to return normally
    and not to write the flag themselves. *)
Theorem forward_compiles_exactly_once w (self n : nat) :
  compiled_flag self (heap w) = Some false ->
  returns_keeping (compiled_flag self) (_compile self) ->
  returns_keeping (compiled_flag self) (_forward self) ->
  ∃ w' cs,
    forward_times (S n) self w = (w', Ok tt) ∧
    calls w' = calls w ++ Compile self (heap w) :: cs ∧
    call_method <$> cs = replicate (S n) (M_forward, self) ∧
    Forall (fun c => compiled_flag self (call_heap c) = Some true) cs ∧
    compiled_flag self (heap w') = Some true.
Proof.
  intros Hflag Hcomp Hfwd.
  destruct (forward_when_uncompiled w self Hflag Hcomp Hfwd)
    as (w1 & h1 & Hrun & Hcalls & Hh1 & Hflag1).
  destruct (forward_times_compiled n w1 self Hflag1 Hfwd)
    as (w' & cs & Hrest & Hcalls' & Hmeth & Hall & Hfin).
  exists w', (Forward self h1 :: cs). simpl. unfold bind. rewrite Hrun.
  split; [exact Hrest|].
  split; [by rewrite Hcalls', Hcalls, <- app_assoc|].
  split; [simpl; by f_equal|]. split; [by constructor|done].
Qed.

End ForwardProperties.

Section TraversalProperties.
Context {Val : Type}.
Implicit Types h : Heap Val.

Lemma OrderedSet_add_length (m : nat) (ms : OrderedSet) :
  length (OrderedSet_add m ms) ≤ S (length ms).
Proof.
  unfold OrderedSet_add. destruct (decide (m ∈ ms)); [lia|].
  rewrite length_app. simpl. lia.
Qed.

Lemma OrderedSet_add_elem (m x : nat) (ms : OrderedSet) :
  x ∈ OrderedSet_add m ms ↔ x = m ∨ x ∈ ms.
Proof.
  unfold OrderedSet_add. destruct (decide (m ∈ ms)) as [Hm|Hm].
  - split; [tauto|]. intros [->|]; done.
  - rewrite elem_of_app, list_elem_of_singleton. tauto.
Qed.

Lemma obj_get_module_allocated h (x : pyobj) :
  closed h -> allocated h x ->
  ∃ m, obj_get_module h x = Ok m ∧ is_Some (h_modules h !! m).
Proof.
  intros (_ & Hin & Hout) Hx. destruct x as [ix|ox|]; simpl in *; [| |done].
  - destruct Hx as [i Hi]. rewrite Hi. simpl. exists (i_module i).
    split; [done|]. by destruct (Hin ix i Hi).
  - destruct Hx as [o Ho]. rewrite Ho. simpl. exists (o_module o).
    split; [done|]. by destruct (Hout ox o Ho).
Qed.

Lemma extract_loop_spec h (lst : list pyobj) (ms : OrderedSet) :
  closed h -> Forall (allocated h) lst ->
  Forall (fun m => is_Some (h_modules h !! m)) ms ->
  ∃ ms', extract_loop h lst ms = Ok ms' ∧
         length ms' ≤ length ms + length lst ∧
         Forall (fun m => is_Some (h_modules h !! m)) ms'.
Proof.
  intros Hcl Hlst. revert ms.
  induction Hlst as [|x lst Hx Hlst IH]; intros ms Hms; simpl.
  - exists ms. split; [done|]. split; [lia|done].
  - destruct (obj_get_module_allocated h x Hcl Hx) as (m & -> & Hm). simpl.
    destruct (IH (OrderedSet_add m ms)) as (ms' & Hrun & Hlen & Hall).
    { rewrite Forall_forall in *. intros y Hy.
      apply OrderedSet_add_elem in Hy as [->|Hy]; auto. }
    exists ms'. split; [done|]. split; [|done].
    pose proof (OrderedSet_add_length m ms). lia.
Qed.

Lemma extract_unique_modules_spec h (lst : list pyobj) :
  closed h -> Forall (allocated h) lst ->
  ∃ ms, extract_unique_modules h lst = Ok ms ∧
        length ms ≤ length lst ∧
        Forall (fun m => is_Some (h_modules h !! m)) ms.
Proof.
  intros Hcl Hlst.
  destruct (extract_loop_spec h lst [] Hcl Hlst) as (ms & ? & ? & ?);
    [constructor|].
  exists ms. simpl in *. by repeat split.
Qed.

(** The inner loop only appends modules that are allocated, not yet in
    [memo], and one backward step away from an input of [ixs]. *)
Lemma visit_inputs_spec h (R : nat -> Prop) (ixs : list nat)
    (memo : gset nat) (ms : list nat) :
  closed h ->
  Forall (fun ix => is_Some (h_inputs h !! ix)) ixs ->
  memo ⊆ dom (h_modules h) ->
  (∀ ix i ox o, ix ∈ ixs -> h_inputs h !! ix = Some i ->
     from_output i = Some ox -> h_outputs h !! ox = Some o ->
     R (o_module o)) ->
  ∃ memo' new,
    visit_inputs h ixs memo ms = Ok (memo', ms ++ new) ∧
    memo' ⊆ dom (h_modules h) ∧
    size memo' = size memo + length new ∧
    Forall (fun m => is_Some (h_modules h !! m) ∧ R m) new.
Proof.
  intros Hcl Hixs. revert memo ms.
  induction Hixs as [|ix ixs [i Hi] Hixs IH]; intros memo ms Hmemo HR.
  - exists memo, []. simpl. rewrite app_nil_r. repeat split; [done|lia|done].
  - simpl. rewrite Hi. simpl.
    assert (HR' : ∀ ix i ox o, ix ∈ ixs -> h_inputs h !! ix = Some i ->
       from_output i = Some ox -> h_outputs h !! ox = Some o ->
       R (o_module o)).
    { intros ix' i' ox o Hin. apply HR. by right. }
    destruct Hcl as (Hmod & Hin & Hout).
    destruct (from_output i) as [ox|] eqn:Hfrom.
    + destruct (Hin ix i Hi) as [_ Hox]. rewrite Hfrom in Hox.
      destruct Hox as [o Ho]. rewrite Ho. simpl.
      destruct (Hout ox o Ho) as [Hm _].
      destruct (decide (o_module o ∈ memo)) as [Hseen|Hnew].
      * by apply IH.
      * destruct (IH ({[o_module o]} ∪ memo) (ms ++ [o_module o]))
          as (memo' & new & Hrun & Hsub & Hsize & Hall); [|done|].
        { apply union_subseteq. split; [|done].
          apply singleton_subseteq_l, elem_of_dom, Hm. }
        exists memo', (o_module o :: new).
        rewrite Hrun, <- app_assoc. split; [done|]. split; [done|].
        split.
        -- rewrite Hsize, size_union, size_singleton
             by by apply disjoint_singleton_l.
           simpl. lia.
        -- constructor; [|done]. split; [done|].
           eapply HR; [by left|done..].
    + by apply IH.
Qed.

(** The order of visits [vs] of a traversal that is never stopped, from
    iterator position [idx] on: it exists as soon as the budget covers the
    unseen modules and the pending ones, and it only holds allocated modules
    that satisfy whatever [R] the pending ones and their predecessors do. *)
Lemma traverse_backward_loop_order h (R : nat -> Prop) (fuel idx : nat)
    (ms : list nat) (memo : gset nat) (acc : list nat) :
  closed h ->
  (∀ m M ix i ox o, R m -> h_modules h !! m = Some M ->
     ix ∈ itervalues (inputs M) -> h_inputs h !! ix = Some i ->
     from_output i = Some ox -> h_outputs h !! ox = Some o ->
     R (o_module o)) ->
  memo ⊆ dom (h_modules h) ->
  Forall (fun m => is_Some (h_modules h !! m) ∧ R m) ms ->
  (size (h_modules h) - size memo) + (length ms - idx) < fuel ->
  ∃ vs,
    traverse_backward_loop h record_visit fuel idx ms memo acc
      = Ok (acc ++ vs) ∧
    Forall (fun m => is_Some (h_modules h !! m) ∧ R m) vs.
Proof.
  intros Hcl HR. revert idx ms memo acc.
  induction fuel as [|fuel IH]; intros idx ms memo acc Hmemo Hms Hfuel;
    [lia|].
  simpl. destruct (ms !! idx) as [m|] eqn:Hm.
  - pose proof (lookup_lt_Some _ _ _ Hm) as Hidx.
    pose proof (proj1 (Forall_forall _ _) Hms m
                  (list_elem_of_lookup_2 _ _ _ Hm)) as [[M HM] HRm].
    simpl. rewrite HM. simpl.
    destruct (visit_inputs_spec h R (itervalues (inputs M)) memo ms)
      as (memo' & new & Hrun & Hsub & Hsize & Hnew); [done| |done| |].
    { destruct Hcl as (Hmod & _). by destruct (Hmod m M HM). }
    { intros ix i ox o Hix. by apply (HR m M). }
    rewrite Hrun. simpl.
    pose proof (subseteq_size _ _ Hsub) as Hle. rewrite size_dom in Hle.
    destruct (IH (S idx) (ms ++ new) memo' (acc ++ [m])) as (vs & Hvs & Hall);
      [done|by apply Forall_app|rewrite length_app; lia|].
    exists (m :: vs). rewrite Hvs, <- app_assoc. split; [done|].
    by constructor.
  - exists []. by rewrite app_nil_r.
Qed.

(** Whatever the visit function, a traversal is that function run along the
    order of visits, up to its first request to stop. *)
Lemma traverse_backward_loop_run h (fuel idx : nat)
    (ms : list nat) (memo : gset nat) (acc r : list nat) :
  traverse_backward_loop h record_visit fuel idx ms memo acc = Ok r ->
  ∃ vs, r = acc ++ vs ∧
    ∀ St (fn : nat -> St -> result (bool * St)) (st : St),
      traverse_backward_loop h fn fuel idx ms memo st = run_visits fn vs st.
Proof.
  revert idx ms memo acc.
  induction fuel as [|fuel IH]; intros idx ms memo acc; [done|].
  simpl. destruct (ms !! idx) as [m|] eqn:Hm.
  - simpl. destruct (deref (h_modules h !! m)) as [M|e] eqn:HM; [|done].
    simpl.
    destruct (visit_inputs h (itervalues (inputs M)) memo ms)
      as [q|e] eqn:Hq; [|done].
    simpl. intros Hrec.
    destruct (IH _ _ _ _ Hrec) as (vs & -> & Hrun).
    exists (m :: vs). rewrite <- app_assoc. split; [done|].
    intros St fn st. simpl.
    destruct (fn m st) as [[stop st']|e]; [|done]. simpl.
    destruct stop; [done|]. apply Hrun.
  - intros [= <-]. exists []. by rewrite app_nil_r.
Qed.

(** The first request to stop ends the run: nothing after it is visited. *)
Lemma run_visits_stop {St} (fn : nat -> St -> result (bool * St))
    (m : nat) (vs : list nat) (st st' : St) :
  fn m st = Ok (true, st') -> run_visits fn (m :: vs) st = Ok st'.
Proof. intros Hstop. simpl. by rewrite Hstop. Qed.

(** With the budget [traverse_fuel], a traversal of a closed graph from
    allocated outputs has an order of visits [vs], made of allocated modules
    that are backward reachable from the seed modules. *)
Lemma traverse_backward_order h (output_lst : list pyobj) :
  closed h -> Forall (allocated h) output_lst ->
  ∃ ms vs,
    extract_unique_modules h output_lst = Ok ms ∧
    Forall (fun m => is_Some (h_modules h !! m) ∧ reach_backward h ms m) vs ∧
    ∀ St (fn : nat -> St -> result (bool * St)) (st : St),
      traverse_backward h (traverse_fuel h output_lst) output_lst fn st
        = run_visits fn vs st.
Proof.
  intros Hcl Hlst.
  destruct (extract_unique_modules_spec h output_lst Hcl Hlst)
    as (ms & Hms & Hlen & Hall).
  destruct (traverse_backward_loop_order h (reach_backward h ms)
              (traverse_fuel h output_lst) 0 ms ∅ [])
    as (vs & Hvs & Hreach); [done|..].
  { intros m M ix i ox o. apply reach_step. }
  { apply empty_subseteq. }
  { rewrite Forall_forall in *. intros m Hm. split; [auto|].
    by apply reach_seed. }
  { unfold traverse_fuel. rewrite size_empty. lia. }
  destruct (traverse_backward_loop_run h _ _ _ _ _ _ Hvs) as (vs' & Heq & Hrun).
  simpl in Heq. subst vs'.
  exists ms, vs. split; [done|]. split; [done|].
  intros St fn st. unfold traverse_backward. rewrite Hms. simpl. apply Hrun.
Qed.

Lemma is_specified_fn_loop_spec h (hps : list nat) (is_spec : bool) :
  Forall (fun hp => is_Some (h_hyperps h !! hp)) hps ->
  is_specified_fn_loop h hps is_spec =
    Ok (if any_unset h hps then (true, false) else (false, is_spec)).
Proof.
  induction 1 as [|hp hps [H HH] _ IH]; [done|].
  simpl. rewrite HH. simpl. destruct (set_done H); simpl; [apply IH|done].
Qed.

Lemma OrderedSet_add_nonempty (x : nat) (d : OrderedSet) :
  OrderedSet_add x d ≠ [].
Proof.
  unfold OrderedSet_add. destruct (decide (x ∈ d)) as [Hx|Hx].
  - intros ->. by apply not_elem_of_nil in Hx.
  - by destruct d.
Qed.

Lemma get_unset_fn_loop_spec h (hps : list nat) (hs : OrderedSet) :
  Forall (fun hp => is_Some (h_hyperps h !! hp)) hps ->
  ∃ hs', get_unset_fn_loop h hps hs = Ok (false, hs') ∧
         (hs ≠ [] -> hs' ≠ []) ∧
         (any_unset h hps = true -> hs' ≠ []).
Proof.
  intros Hall. revert hs.
  induction Hall as [|hp hps [H HH] _ IH]; intros hs.
  - exists hs. by repeat split.
  - simpl. rewrite HH. simpl. destruct (set_done H); simpl.
    + apply IH.
    + destruct (IH (OrderedSet_add hp hs)) as (hs' & Hrun & Hmono & _).
      pose proof (OrderedSet_add_nonempty hp hs).
      exists hs'. split; [done|]. split; auto.
Qed.

(** Along an order of visits in a closed graph: [is_specified]'s closure
    always returns, and when it ends with [False] in its cell, the closure of
    [get_unset_hyperparameters] has collected at least one hyperparameter
    by the end of the same order. *)
Lemma run_visits_is_specified h (vs : list nat) :
  closed h ->
  Forall (fun m => is_Some (h_modules h !! m)) vs ->
  ∃ b, run_visits (is_specified_fn h) vs true = Ok b ∧
    ∀ hs, ∃ hs', run_visits (get_unset_fn h) vs hs = Ok hs' ∧
                 (hs ≠ [] -> hs' ≠ []) ∧ (b = false -> hs' ≠ []).
Proof.
  intros Hcl Hvs.
  induction Hvs as [|m vs [M HM] _ (b & Hb & IH)].
  - exists true. split; [done|]. intros hs. exists hs. by repeat split.
  - assert (Hhps : Forall (fun hp => is_Some (h_hyperps h !! hp))
                     (itervalues (hyperps M))).
    { destruct Hcl as (Hmod & _). by destruct (Hmod m M HM) as (_ & _ & ?). }
    simpl. unfold is_specified_fn at 1, get_unset_fn at 1.
    rewrite HM. simpl.
    rewrite (is_specified_fn_loop_spec h _ _ Hhps).
    destruct (any_unset h (itervalues (hyperps M))) eqn:Hany; simpl.
    + exists false. split; [done|]. intros hs.
      destruct (get_unset_fn_loop_spec h _ hs Hhps) as (hs1 & -> & _ & Hne).
      simpl. destruct (IH hs1) as (hs' & Hrun & Hmono & _).
      exists hs'. split; [done|]. split; auto.
    + exists b. split; [done|]. intros hs.
      destruct (get_unset_fn_loop_spec h _ hs Hhps) as (hs1 & -> & Hmono1 & _).
      simpl. destruct (IH hs1) as (hs' & Hrun & Hmono & Hfalse).
      exists hs'. split; [done|]. split; auto.
Qed.

(** C3 (amended). On a closed graph and allocated outputs, [is_specified]
    returns a boolean, and it returns [False] exactly when
    [get_unset_hyperparameters] returns a collection, which is then not
    empty.  When [is_specified] returns [True],
    [get_unset_hyperparameters] does not return: its leading
    [assert not is_specified(output_lst)] fails. *)
Theorem get_unset_hyperparameters_iff_not_specified h
    (output_lst : list pyobj) :
  closed h -> Forall (allocated h) output_lst ->
  let fuel := traverse_fuel h output_lst in
  (∃ b, is_specified h fuel output_lst = Ok b) ∧
  (is_specified h fuel output_lst = Ok false ↔
     ∃ hs, get_unset_hyperparameters h fuel output_lst = Ok hs ∧ hs ≠ []) ∧
  (is_specified h fuel output_lst = Ok true ↔
     get_unset_hyperparameters h fuel output_lst = Raise AssertionError).
Proof.
  intros Hcl Hlst fuel.
  destruct (traverse_backward_order h output_lst Hcl Hlst)
    as (ms & vs & _ & Hvs & Hrun).
  destruct (run_visits_is_specified h vs Hcl) as (b & Hb & Hunset).
  { eapply Forall_impl; [exact Hvs|]. by intros m [? _]. }
  destruct (Hunset []) as (hs & Hhs & _ & Hne).
  unfold get_unset_hyperparameters, is_specified, fuel.
  rewrite !Hrun, Hb, Hhs. simpl.
  split; [by exists b|].
  destruct b; simpl.
  - split; split; try done. by intros (? & ? & _).
  - split; split; try done. intros _. exists hs. auto.
Qed.

(** C10. [is_specified] of the empty list of outputs is [True], in any heap;
    and on a closed graph it is [True] for every list of allocated outputs
    from whose modules a backward walk only reaches modules without
    hyperparameters. *)
Theorem is_specified_without_hyperparameters h (output_lst : list pyobj) :
  (∀ fuel, is_specified h (S fuel) [] = Ok true) ∧
  (closed h -> Forall (allocated h) output_lst ->
   (∀ ms m M, extract_unique_modules h output_lst = Ok ms ->
      reach_backward h ms m -> h_modules h !! m = Some M ->
      hyperps M = []) ->
   is_specified h (traverse_fuel h output_lst) output_lst = Ok true).
Proof.
  split; [done|]. intros Hcl Hlst Hnone.
  destruct (traverse_backward_order h output_lst Hcl Hlst)
    as (ms & vs & Hms & Hvs & Hrun).
  unfold is_specified. rewrite Hrun. clear Hrun.
  induction Hvs as [|m vs [[M HM] Hreach] _ IH]; [done|].
  simpl. unfold is_specified_fn at 1. rewrite HM. simpl.
  rewrite (Hnone ms m M Hms Hreach HM). simpl. exact IH.
Qed.

End TraversalProperties.

Section EvalSeqProperties.
Context {Val : Type}.
Implicit Types h : Heap Val.

Lemma pending_fanout_of_cons h (memo : gset nat) (p : nat * ModuleObj)
    (l : list (nat * ModuleObj)) :
  pending_fanout_of h memo (p :: l) =
    (if decide (p.1 ∈ memo) then 0 else fanout h p.2)
    + pending_fanout_of h memo l.
Proof. done. Qed.

Lemma pending_fanout_of_other h (memo : gset nat)
    (l : list (nat * ModuleObj)) (m : nat) :
  m ∉ l.*1 ->
  pending_fanout_of h ({[m]} ∪ memo) l = pending_fanout_of h memo l.
Proof.
  induction l as [|[k K] l IH]; intros Hm; [done|].
  rewrite fmap_cons in Hm. apply not_elem_of_cons in Hm as [Hne Hm].
  rewrite !pending_fanout_of_cons, (IH Hm). f_equal. simpl in *.
  destruct (decide (k ∈ memo)).
  - rewrite decide_True; [done|]. apply elem_of_union. by right.
  - rewrite decide_False; [done|].
    rewrite elem_of_union, elem_of_singleton. intros [?|?]; congruence.
Qed.

Lemma pending_fanout_of_add h (memo : gset nat) (l : list (nat * ModuleObj))
    (m : nat) (M : ModuleObj) :
  NoDup l.*1 -> (m, M) ∈ l -> m ∉ memo ->
  pending_fanout_of h memo l =
    pending_fanout_of h ({[m]} ∪ memo) l + fanout h M.
Proof.
  induction l as [|[k K] l IH]; intros Hnd Hin Hm; [by inversion Hin|].
  rewrite fmap_cons in Hnd. apply NoDup_cons in Hnd as [Hk Hnd].
  rewrite !pending_fanout_of_cons. simpl in *.
  apply elem_of_cons in Hin as [[= <- <-]|Hin].
  - rewrite (pending_fanout_of_other h memo l m Hk).
    rewrite decide_False by done.
    rewrite decide_True; [lia|].
    apply elem_of_union. left. by apply elem_of_singleton.
  - assert (k ≠ m).
    { intros ->. apply Hk. apply list_elem_of_fmap. by exists (m, M). }
    rewrite (IH Hnd Hin Hm).
    destruct (decide (k ∈ memo)).
    + rewrite decide_True; [lia|]. apply elem_of_union. by right.
    + rewrite decide_False; [lia|].
      rewrite elem_of_union, elem_of_singleton. intros [?|?]; congruence.
Qed.

Lemma pending_fanout_add h (memo : gset nat) (m : nat) (M : ModuleObj) :
  h_modules h !! m = Some M -> m ∉ memo ->
  pending_fanout h memo = pending_fanout h ({[m]} ∪ memo) + fanout h M.
Proof.
  intros HM Hm. apply pending_fanout_of_add; [|by apply elem_of_map_to_list|done].
  apply NoDup_fst_map_to_list.
Qed.

Lemma result_mapM_modules h (ixs : list nat) :
  closed h -> Forall (fun ix => is_Some (h_inputs h !! ix)) ixs ->
  ∃ m_lst, result_mapM (fun ix => obj_get_module h (PInput ix)) ixs
             = Ok m_lst ∧
           length m_lst = length ixs ∧
           Forall (fun m => is_Some (h_modules h !! m)) m_lst.
Proof.
  intros Hcl. induction 1 as [|ix ixs Hix _ (m_lst & Hrun & Hlen & Hall)].
  - by exists [].
  - destruct (obj_get_module_allocated h (PInput ix) Hcl Hix) as (m & Hm & Ha).
    exists (m :: m_lst). cbn [result_mapM]. rewrite Hm, Hrun. simpl.
    split; [done|]. split; [by rewrite Hlen|by constructor].
Qed.

Lemma extend_outputs_spec h (oxs : list nat) (input_memo : gset nat)
    (ms : list nat) :
  closed h -> Forall (fun ox => is_Some (h_outputs h !! ox)) oxs ->
  ∃ input_memo' new,
    extend_outputs h oxs input_memo ms = Ok (input_memo', ms ++ new) ∧
    length new =
      sum_list ((fun ox => from_option (fun o => length (to_inputs o)) 0
                             (h_outputs h !! ox)) <$> oxs) ∧
    Forall (fun m => is_Some (h_modules h !! m)) new ∧
    ∀ ix, ix ∈ input_memo' ->
      ix ∈ input_memo ∨
      ∃ ox o, ox ∈ oxs ∧ h_outputs h !! ox = Some o ∧ ix ∈ to_inputs o.
Proof.
  intros Hcl Hoxs. revert input_memo ms.
  induction Hoxs as [|ox oxs [o Ho] _ IH]; intros input_memo ms.
  - exists input_memo, []. simpl. rewrite app_nil_r. repeat split; auto.
  - cbn [extend_outputs]. rewrite Ho. cbn [deref rbind].
    destruct (result_mapM_modules h (to_inputs o) Hcl)
      as (m_lst & -> & Hlen & Hall).
    { destruct Hcl as (_ & _ & Hout). by destruct (Hout ox o Ho). }
    cbn [rbind].
    destruct (IH (list_to_set (to_inputs o) ∪ input_memo) (ms ++ m_lst))
      as (im' & new & Hrun & Hlen' & Hall' & Hmemo).
    exists im', (m_lst ++ new). rewrite Hrun, <- app_assoc.
    split; [done|].
    split; [rewrite length_app, fmap_cons, Ho; simpl; lia|].
    split; [by apply Forall_app|].
    intros ix Hix. destruct (Hmemo ix Hix) as [Hin|(ox' & o' & ? & ? & ?)].
    + apply elem_of_union in Hin as [Hin|Hin]; [|by left].
      right. exists ox, o. rewrite elem_of_list_to_set in Hin.
      split; [by left|done].
    + right. exists ox', o'. split; [by right|done].
Qed.

Lemma satisfied_snoc h (seeds seq : list nat) (m k ix : nat) :
  satisfied h seeds seq k ix -> satisfied h seeds (seq ++ [m]) k ix.
Proof.
  intros [?|(j & m' & Hj & Hlook & Hfed)]; [by left|].
  right. exists j, m'. split; [done|]. split; [|done].
  by apply lookup_app_l_Some.
Qed.

Lemma eval_seq_loop_spec h (seeds : list nat) (fuel idx : nat)
    (ms module_seq : list nat) (module_memo input_memo : gset nat) :
  closed h ->
  Forall (fun m => is_Some (h_modules h !! m)) ms ->
  (∀ m, m ∈ module_memo ↔ m ∈ module_seq) ->
  NoDup module_seq ->
  (∀ ix, ix ∈ input_memo ->
     ix ∈ seeds ∨ ∃ j m, module_seq !! j = Some m ∧ fed_by h m ix) ->
  (∀ k m M ix, module_seq !! k = Some m -> h_modules h !! m = Some M ->
     ix ∈ itervalues (inputs M) -> satisfied h seeds module_seq k ix) ->
  pending_fanout h module_memo + (length ms - idx) < fuel ->
  ∃ seq,
    eval_seq_loop h fuel idx ms module_seq module_memo input_memo = Ok seq ∧
    NoDup seq ∧
    ∀ k m M ix, seq !! k = Some m -> h_modules h !! m = Some M ->
      ix ∈ itervalues (inputs M) -> satisfied h seeds seq k ix.
Proof.
  intros Hcl. revert idx ms module_seq module_memo input_memo.
  induction fuel as [|fuel IH];
    intros idx ms seq mmemo imemo Hms Hmemo Hnd Himemo Hsat Hfuel; [lia|].
  simpl. destruct (ms !! idx) as [m|] eqn:Hm; [|by exists seq].
  pose proof (lookup_lt_Some _ _ _ Hm) as Hidx.
  destruct (decide (m ∈ mmemo)) as [Hseen|Hnew].
  { apply IH; try done. lia. }
  pose proof (proj1 (Forall_forall _ _) Hms m
                (list_elem_of_lookup_2 _ _ _ Hm)) as [M HM].
  rewrite HM. simpl.
  destruct (forallb _ _) eqn:Hready; [|apply IH; try done; lia].
  destruct (extend_outputs_spec h (itervalues (outputs M)) imemo ms)
    as (imemo' & new & Hrun & Hlen & Hall & Hfed); [done| |].
  { destruct Hcl as (Hmod & _). by destruct (Hmod m M HM) as (_ & ? & _). }
  rewrite Hrun. simpl.
  pose proof (pending_fanout_add h mmemo m M HM Hnew) as Hpend.
  fold (fanout h M) in Hlen.
  apply IH.
  - by apply Forall_app.
  - intros m'. rewrite elem_of_union, elem_of_singleton, elem_of_app,
      list_elem_of_singleton, Hmemo. tauto.
  - apply NoDup_app. split; [done|]. split; [|apply NoDup_singleton].
    intros x Hx ->%list_elem_of_singleton. by apply Hnew, Hmemo.
  - intros ix Hix. destruct (Hfed ix Hix) as [Hold|(ox & o & Hox & Ho & Hin)].
    + destruct (Himemo ix Hold) as [?|(j & m' & Hj & ?)]; [by left|].
      right. exists j, m'. split; [by apply lookup_app_l_Some|done].
    + right. exists (length seq), m. split.
      * by rewrite lookup_app_r, Nat.sub_diag by lia.
      * by exists M, ox, o.
  - intros k m' M' ix Hk HM' Hix.
    destruct (decide (k < length seq)) as [Hlt|Hge].
    + rewrite lookup_app_l in Hk by done.
      apply satisfied_snoc. by apply (Hsat k m' M').
    + pose proof (lookup_lt_Some _ _ _ Hk) as Hklen.
      rewrite length_app in Hklen. simpl in Hklen.
      assert (k = length seq) as -> by lia.
      rewrite lookup_app_r, Nat.sub_diag in Hk by lia.
      injection Hk as <-. rewrite HM in HM'. injection HM' as <-.
      rewrite forallb_forall in Hready.
      assert (Hmem : ix ∈ imemo).
      { apply list_elem_of_In, Hready in Hix.
        by apply bool_decide_eq_true in Hix. }
      destruct (Himemo ix Hmem) as [?|(j & m' & Hj & Hfedby)]; [by left|].
      right. exists j, m'. split; [by apply lookup_lt_Some in Hj|].
      split; [by apply lookup_app_l_Some|done].
  - rewrite length_app. lia.
Qed.

(** C4. On a closed graph and allocated seed inputs,
    [determine_module_eval_seq] returns a sequence in which no module
    occurs twice and in which every declared input of the module at a
    position is a seed input or is listed as connected by an output of a
    module at a strictly smaller position.  This holds whether or not the
    seeds suffice to drive the whole graph. *)
Theorem determine_module_eval_seq_satisfied h (input_lst : list nat) :
  closed h ->
  Forall (fun ix => is_Some (h_inputs h !! ix)) input_lst ->
  ∃ seq,
    determine_module_eval_seq h (eval_seq_fuel h input_lst) input_lst
      = Ok seq ∧
    NoDup seq ∧
    ∀ k m M ix, seq !! k = Some m -> h_modules h !! m = Some M ->
      ix ∈ itervalues (inputs M) -> satisfied h input_lst seq k ix.
Proof.
  intros Hcl Hlst. unfold determine_module_eval_seq.
  destruct (extract_unique_modules_spec h (PInput <$> input_lst) Hcl)
    as (ms & -> & Hlen & Hall).
  { by apply Forall_fmap. }
  cbn [rbind]. rewrite length_fmap in Hlen.
  apply (eval_seq_loop_spec h input_lst); [done|done| | | | |].
  - intros m. split; intros Hm.
    + by apply not_elem_of_empty in Hm.
    + by apply not_elem_of_nil in Hm.
  - constructor.
  - intros ix Hix. left. by apply elem_of_list_to_set in Hix.
  - intros k m M ix Hk. by rewrite lookup_nil in Hk.
  - unfold eval_seq_fuel. lia.
Qed.

End EvalSeqProperties.

(** * The properties on the sample graphs *)

Lemma fanout_graph_closed : closed fanout_graph.
Proof. compute_done. Qed.

Lemma chain_graph_closed (H : Hyperparameter nat) : closed (chain_graph H).
Proof.
  assert (Hc : closed (chain_graph unset_hyperp)) by compute_done.
  destruct Hc as (Hm & Hi & Ho). split; [|split]; [|exact Hi|exact Ho].
  intros m M HM. destruct (Hm m M HM) as (? & ? & Hh).
  split; [done|]. split; [done|].
  eapply Forall_impl; [exact Hh|]. intros hp [H' Hhp]. simpl in *.
  apply lookup_singleton_Some in Hhp as [<- _].
  exists H. apply lookup_singleton_eq.
Qed.

(** Input 2 and output 1 of the fan-out graph, connected and disconnected
    again. *)
Lemma connect_disconnect_round_trip_witness :
  ∃ w1 l,
    Output_connect 1 1 (PInput 2) (mkWorld fanout_graph []) = (w1, Ok tt) ∧
    Input_is_connected 2 w1 = (w1, Ok true) ∧
    Input_get_connected_output 2 w1 = (w1, Ok (Some 1)) ∧
    Output_get_connected_inputs 1 w1 = (w1, Ok l) ∧
    length (filter (fun x => x = 2) l) = 1 ∧
    Input_disconnect 2 w1 = (mkWorld fanout_graph [], Ok tt).
Proof.
  apply (connect_disconnect_round_trip (mkWorld fanout_graph []) 0 1 2
           (mkOutput 3 []) (mkInput 3 None)).
  - compute_done.
  - reflexivity.
  - reflexivity.
  - reflexivity.
Defined.

(** Output 0 of the fan-out graph, connected to inputs [0; 1], rerouted to
    output 1. *)
Lemma reroute_all_leaves_second_input_witness :
  ∃ w',
    Output_reroute_all_connected_inputs 2 0 (POutput 1)
      (mkWorld fanout_graph []) = (w', Ok tt) ∧
    to_inputs <$> h_outputs (heap w') !! 0 = Some [1] ∧
    to_inputs <$> h_outputs (heap w') !! 1 = Some ([] ++ [0]) ∧
    from_output <$> h_inputs (heap w') !! 0 = Some (Some 1) ∧
    from_output <$> h_inputs (heap w') !! 1 = Some (Some 0).
Proof.
  apply (reroute_all_leaves_second_input (mkWorld fanout_graph []) 0 0 1 0 1
           (mkOutput 0 [0; 1]) (mkOutput 3 [])
           (mkInput 1 (Some 0)) (mkInput 2 (Some 0)));
    first [reflexivity | lia].
Defined.

(** [set_val] on the set hyperparameter of the chain graph, and with the
    invalid value 12 on the unset one. *)
Lemma set_val_failure_leaves_state_witness :
  Hyperparameter_set_val (B := sample_classes) 0 3
      (mkWorld (chain_graph set_hyperp_7) [])
    = (mkWorld (chain_graph set_hyperp_7) [], Raise AssertionError) ∧
  Hyperparameter_set_val (B := sample_classes) 0 12
      (mkWorld (chain_graph unset_hyperp) [])
    = (mkWorld (chain_graph unset_hyperp)
         [CheckVal 0 12 (chain_graph unset_hyperp)], Raise AssertionError).
Proof.
  split.
  - apply (set_val_failure_leaves_state (B := sample_classes)
             (mkWorld (chain_graph set_hyperp_7) []) 0 3 set_hyperp_7);
      reflexivity.
  - apply (set_val_failure_leaves_state (B := sample_classes)
             (mkWorld (chain_graph unset_hyperp) []) 0 12 unset_hyperp);
      reflexivity.
Defined.

(** Modules 0, 1 and 0 again register with a fresh hyperparameter, which is
    then set to 3: module 0 is notified first, module 1 second, each once. *)
Lemma set_val_notifies_in_order_witness :
  let fresh := mkHyperparameter false None [] in
  ∃ w1 w2 cs,
    register_modules 0 [0; 1; 0] (mkWorld (chain_graph fresh) [])
      = (w1, Ok tt) ∧
    Hyperparameter_set_val (B := sample_classes) 0 3 w1 = (w2, Ok tt) ∧
    calls w2 = [] ++ CheckVal 0 3 (heap w1) :: cs ∧
    call_method <$> cs = [(M_update, 0); (M_update, 1)] ∧
    NoDup [0; 1] ∧
    (∀ m, m ∈ [0; 1] ↔ m ∈ [0; 1; 0]) ∧
    Forall (fun c => h_hyperps (call_heap c) !! 0 =
              Some (mkHyperparameter true (Some 3) [0; 1])) cs ∧
    h_hyperps (heap w2) !! 0 = Some (mkHyperparameter true (Some 3) [0; 1]).
Proof.
  intros fresh.
  apply (set_val_notifies_in_order (B := sample_classes)
           (mkWorld (chain_graph fresh) []) 0 3 [0; 1; 0]).
  - reflexivity.
  - intros h. exists h. split; reflexivity.
  - intros m h. exists h. split; reflexivity.
Defined.

(** Two [forward()] calls on module 0 of the chain graph. *)
Lemma forward_compiles_exactly_once_witness :
  let w := mkWorld (chain_graph unset_hyperp) [] in
  ∃ w' cs,
    forward_times (B := sample_classes) 2 0 w = (w', Ok tt) ∧
    calls w' = [] ++ Compile 0 (heap w) :: cs ∧
    call_method <$> cs = [(M_forward, 0); (M_forward, 0)] ∧
    Forall (fun c => compiled_flag 0 (call_heap c) = Some true) cs ∧
    compiled_flag 0 (heap w') = Some true.
Proof.
  intros w.
  apply (forward_compiles_exactly_once (B := sample_classes) w 0 1).
  - reflexivity.
  - intros h. exists h. split; reflexivity.
  - intros h. eexists. split; reflexivity.
Defined.

(** C3, as stated, fails on the chain graph once its hyperparameter is set:
    [is_specified] is [True], and [get_unset_hyperparameters] returns no
    collection, empty or not, whatever the budget. *)
Lemma get_unset_hyperparameters_specified_counterexample :
  is_specified (chain_graph set_hyperp_7)
    (traverse_fuel (chain_graph set_hyperp_7) [POutput 1]) [POutput 1]
    = Ok true ∧
  get_unset_hyperparameters (chain_graph set_hyperp_7)
    (traverse_fuel (chain_graph set_hyperp_7) [POutput 1]) [POutput 1]
    = Raise AssertionError ∧
  ¬ ∃ fuel, get_unset_hyperparameters (chain_graph set_hyperp_7) fuel
              [POutput 1] = Ok [].
Proof.
  split; [reflexivity|]. split; [reflexivity|].
  intros [fuel Hrun]. destruct fuel as [|[|[|fuel]]]; vm_compute in Hrun;
    discriminate.
Qed.

(** The chain graph with its hyperparameter unset, seen from output 1. *)
Lemma get_unset_hyperparameters_iff_not_specified_witness :
  let h := chain_graph unset_hyperp in
  let fuel := traverse_fuel h [POutput 1] in
  (∃ b, is_specified h fuel [POutput 1] = Ok b) ∧
  (is_specified h fuel [POutput 1] = Ok false ↔
     ∃ hs, get_unset_hyperparameters h fuel [POutput 1] = Ok hs ∧ hs ≠ []) ∧
  (is_specified h fuel [POutput 1] = Ok true ↔
     get_unset_hyperparameters h fuel [POutput 1] = Raise AssertionError).
Proof.
  apply (get_unset_hyperparameters_iff_not_specified
           (chain_graph unset_hyperp) [POutput 1]).
  - compute_done.
  - compute_done.
Defined.

(** The chain graph seeded with the free input of module 0. *)
Lemma determine_module_eval_seq_satisfied_witness :
  let h := chain_graph set_hyperp_7 in
  ∃ seq,
    determine_module_eval_seq h (eval_seq_fuel h [1]) [1] = Ok seq ∧
    NoDup seq ∧
    ∀ k m M ix, seq !! k = Some m -> h_modules h !! m = Some M ->
      ix ∈ itervalues (inputs M) -> satisfied h [1] seq k ix.
Proof.
  apply (determine_module_eval_seq_satisfied (chain_graph set_hyperp_7) [1]).
  - compute_done.
  - compute_done.
Defined.

(** The fan-out graph, where no module has a hyperparameter. *)
Lemma is_specified_without_hyperparameters_witness :
  is_specified fanout_graph 1 [] = Ok true ∧
  is_specified fanout_graph (traverse_fuel fanout_graph [POutput 0])
    [POutput 0] = Ok true.
Proof.
  destruct (is_specified_without_hyperparameters fanout_graph [POutput 0])
    as [Hempty Hgen].
  split; [apply Hempty|]. apply Hgen.
  - compute_done.
  - compute_done.
  - intros ms m M _ _ HM.
    assert (Hall : map_Forall (fun _ M => hyperps M = [])
                     (h_modules fanout_graph)) by compute_done.
    exact (Hall m M HM).
Defined.

(** * Further properties of core.py *)

Section ScopeProperties.
Context {Elem : Type} `{Countable Elem}.
Implicit Types sc : Scope Elem.

Lemma scope_register_spec sc sc' (name : string) (elem : Elem) :
  scope_consistent sc ->
  Scope_register name elem sc = Ok sc' ->
  Scope_get_name elem sc' = Some name ∧
  Scope_get_elem name sc' = Some elem ∧
  (∀ n, n ≠ name -> Scope_get_elem n sc' = Scope_get_elem n sc) ∧
  scope_consistent sc'.
Proof.
  intros Hcons Hreg. unfold Scope_register in Hreg.
  destruct (name_to_elem sc !! name) as [?|] eqn:Hfree; [done|].
  injection Hreg as <-. unfold Scope_get_name, Scope_get_elem. simpl.
  split; [apply lookup_insert_eq|]. split; [apply lookup_insert_eq|].
  split; [intros n Hn; by apply lookup_insert_ne|].
  intros e n. simpl. destruct (decide (elem = e)) as [->|Hne].
  - rewrite lookup_insert_eq. intros [= <-]. apply lookup_insert_eq.
  - rewrite lookup_insert_ne by done. intros He.
    pose proof (Hcons e n He) as Hn.
    rewrite lookup_insert_ne; [done|]. intros <-. congruence.
Qed.

(** X1. A successful [register(name, elem)] makes [get_name(elem)] return
    [name] and [get_elem(name)] return [elem], leaves every other name as
    it was, and keeps the scope consistent: the name of every registered
    element still resolves to that element. *)
Theorem scope_register_lookup sc sc' (name : string) (elem : Elem) :
  scope_consistent sc ->
  Scope_register name elem sc = Ok sc' ->
  Scope_get_name elem sc' = Some name ∧
  Scope_get_elem name sc' = Some elem ∧
  (∀ n, n ≠ name -> Scope_get_elem n sc' = Scope_get_elem n sc) ∧
  scope_consistent sc'.
Proof. apply scope_register_spec. Qed.

(** X2. Once a name is registered, registering it again, for whatever
    element, fails on the assertion, and the first element keeps its
    name. *)
Theorem scope_register_twice sc sc' (name : string) (x y : Elem) :
  Scope_register name x sc = Ok sc' ->
  Scope_register name y sc' = Raise AssertionError ∧
  Scope_get_name x sc' = Some name ∧
  Scope_get_elem name sc' = Some x.
Proof.
  intros Hreg. unfold Scope_register in *.
  destruct (name_to_elem sc !! name) as [?|] eqn:Hfree; [done|].
  injection Hreg as <-. unfold Scope_get_name, Scope_get_elem. simpl.
  by rewrite !lookup_insert_eq.
Qed.

Lemma names_taken_bound sc (prefix : string) (n : nat) :
  (∀ j, j < n -> is_Some (name_to_elem sc !! (prefix +:+ pretty j))) ->
  n ≤ size (name_to_elem sc).
Proof.
  intros Htaken.
  set (names := (fun j => prefix +:+ pretty j) <$> seq 0 n).
  assert (Hnd : NoDup names).
  { apply NoDup_fmap_2; [|apply NoDup_seq].
    intros i j Hij. by apply (inj (String.app prefix)), (inj pretty) in Hij. }
  assert (Hsub : list_to_set names ⊆ dom (name_to_elem sc)).
  { intros s Hs. apply elem_of_list_to_set in Hs.
    apply list_elem_of_fmap in Hs as (j & -> & Hj).
    apply elem_of_seq in Hj. apply elem_of_dom, Htaken. lia. }
  apply subseteq_size in Hsub.
  rewrite size_list_to_set, size_dom in Hsub by done.
  unfold names in Hsub. by rewrite length_fmap, length_seq in Hsub.
Qed.

Lemma get_unused_name_loop_spec sc (prefix : string) (fuel i : nat) :
  (∀ j, j < i -> is_Some (name_to_elem sc !! (prefix +:+ pretty j))) ->
  size (name_to_elem sc) < fuel + i ->
  ∃ k, get_unused_name_loop fuel prefix i sc = Ok (prefix +:+ pretty k) ∧
       name_to_elem sc !! (prefix +:+ pretty k) = None ∧
       ∀ j, j < k -> is_Some (name_to_elem sc !! (prefix +:+ pretty j)).
Proof.
  revert i. induction fuel as [|fuel IH]; intros i Htaken Hfuel.
  - pose proof (names_taken_bound sc prefix i Htaken). lia.
  - simpl.
    destruct (name_to_elem sc !! (prefix +:+ pretty i)) as [e|] eqn:Hi.
    + apply IH; [|lia]. intros j Hj.
      destruct (decide (j = i)) as [->|]; [by rewrite Hi|].
      apply Htaken. lia.
    + by exists i.
Qed.

Lemma get_unused_name_spec sc (prefix : string) (fuel : nat) :
  size (name_to_elem sc) < fuel ->
  ∃ i, Scope_get_unused_name fuel prefix sc = Ok (prefix +:+ pretty i) ∧
       Scope_get_elem (prefix +:+ pretty i) sc = None ∧
       ∀ j, j < i -> is_Some (Scope_get_elem (prefix +:+ pretty j) sc).
Proof.
  intros Hfuel. apply get_unused_name_loop_spec; [|lia].
  intros j Hj. lia.
Qed.

(** X3. [get_unused_name(prefix)] needs at most one round more than there
    are names in the scope.  It returns [prefix + str(i)] for the least [i]
    whose name is not registered: the name returned is free and every
    smaller suffix is taken. *)
Theorem get_unused_name_least sc (prefix : string) (fuel : nat) :
  size (name_to_elem sc) < fuel ->
  ∃ i, Scope_get_unused_name fuel prefix sc = Ok (prefix +:+ pretty i) ∧
       Scope_get_elem (prefix +:+ pretty i) sc = None ∧
       ∀ j, j < i -> is_Some (Scope_get_elem (prefix +:+ pretty j) sc).
Proof. apply get_unused_name_spec. Qed.

(** X4. The naming of a new hyperparameter or module never fails: the name
    obtained from [get_unused_name] is accepted by [register], the new
    object reads that name, and the objects registered before keep theirs. *)
Theorem addressable_init_named_succeeds sc (fuel : nat)
    (kind base : string) (self : Elem) :
  size (name_to_elem sc) < fuel ->
  scope_consistent sc ->
  ∃ sc' (i : nat),
    let name := (kind +:+ "." +:+ base +:+ "-") +:+ pretty i in
    Addressable_init_named fuel kind base self sc = Ok sc' ∧
    Scope_get_name self sc' = Some name ∧
    Scope_get_elem name sc' = Some self ∧
    scope_consistent sc' ∧
    ∀ n e, Scope_get_elem n sc = Some e -> Scope_get_elem n sc' = Some e.
Proof.
  intros Hfuel Hcons.
  destruct (get_unused_name_spec sc (kind +:+ "." +:+ base +:+ "-") fuel
              Hfuel) as (i & Hname & Hfree & _).
  unfold Addressable_init_named. rewrite Hname. simpl.
  unfold Scope_get_elem in Hfree.
  destruct (Scope_register _ self sc) as [sc'|e] eqn:Hreg.
  - destruct (scope_register_spec sc sc' _ self Hcons Hreg)
      as (Hgn & Hge & Hother & Hcons').
    exists sc', i. simpl. split; [done|]. split; [done|]. split; [done|].
    split; [done|]. intros n e Hn. rewrite Hother; [done|].
    intros ->. unfold Scope_get_elem in Hn. congruence.
  - unfold Scope_register in Hreg. by rewrite Hfree in Hreg.
Qed.

End ScopeProperties.

Lemma list_remove_first_split (x : nat) (l : list nat) :
  x ∈ l ->
  ∃ l1 l2, l = l1 ++ x :: l2 ∧ (x ∉ l1) ∧
           list_remove_first x l = Some (l1 ++ l2).
Proof.
  induction l as [|y l IH]; intros Hx; [by apply not_elem_of_nil in Hx|].
  simpl. destruct (decide (x = y)) as [->|Hne].
  - exists [], l. split; [done|]. split; [apply not_elem_of_nil|done].
  - apply elem_of_cons in Hx as [?|Hx]; [done|].
    destruct (IH Hx) as (l1 & l2 & -> & Hl1 & ->).
    exists (y :: l1), l2. split; [done|]. split; [|done].
    by apply not_elem_of_cons.
Qed.

Section PortInvariantProperties.
Context {Val : Type}.
Implicit Types w : World Val.
Implicit Types h : Heap Val.

Lemma input_connect_spec w (I O : nat) i o :
  h_inputs (heap w) !! I = Some i -> from_output i = None ->
  h_outputs (heap w) !! O = Some o ->
  Input_connect I (POutput O) w =
    (set_ports w
       (<[I := mkInput (i_module i) (Some O)]> (h_inputs (heap w)))
       (<[O := mkOutput (o_module o) (to_inputs o ++ [I])]>
          (h_outputs (heap w))), Ok tt).
Proof.
  intros HI Hfree HO. unfold Input_connect. py_unfold.
  rewrite HI, Hfree. simpl. by rewrite HO.
Qed.

Lemma input_disconnect_spec w (I O : nat) i o l1 l2 :
  h_inputs (heap w) !! I = Some i -> from_output i = Some O ->
  h_outputs (heap w) !! O = Some o ->
  to_inputs o = l1 ++ (I :: l2) -> I ∉ l1 ->
  Input_disconnect I w =
    (set_ports w
       (<[I := mkInput (i_module i) None]> (h_inputs (heap w)))
       (<[O := mkOutput (o_module o) (l1 ++ l2)]> (h_outputs (heap w))),
     Ok tt).
Proof.
  intros HI Hfrom HO Hsplit Hl1. unfold Input_disconnect. py_unfold.
  rewrite HI, Hfrom. simpl. rewrite HO, Hsplit.
  assert (Hrem : list_remove_first I (l1 ++ I :: l2) = Some (l1 ++ l2)).
  { clear -Hl1. induction l1 as [|y l1 IH]; simpl.
    - by rewrite decide_True.
    - apply not_elem_of_cons in Hl1 as [? ?].
      rewrite decide_False by done. by rewrite IH. }
  by rewrite Hrem.
Qed.

Lemma ports_consistent_lists h (O : nat) o (ix : nat) :
  ports_consistent h -> h_outputs h !! O = Some o -> ix ∈ to_inputs o ->
  ∃ i, h_inputs h !! ix = Some i ∧ from_output i = Some O.
Proof.
  intros (Hsym & _) HO Hix.
  pose proof (proj1 (Forall_forall _ _) (Hsym O o HO) ix Hix) as Hi.
  simpl in Hi. destruct (h_inputs h !! ix) as [i|]; simpl in Hi; [|done].
  exists i. split; [done|]. congruence.
Qed.

Lemma ports_consistent_points h (I O : nat) i :
  ports_consistent h -> h_inputs h !! I = Some i -> from_output i = Some O ->
  ∃ o, h_outputs h !! O = Some o ∧ I ∈ to_inputs o ∧ NoDup (to_inputs o).
Proof.
  intros (_ & Hnd & Hback) HI Hfrom.
  pose proof (Hback I i HI) as Ho. cbv beta in Ho. rewrite Hfrom in Ho.
  simpl in Ho. destruct (h_outputs h !! O) as [o|] eqn:HO;
    [|by apply not_elem_of_nil in Ho].
  exists o. split; [done|]. split; [done|]. by apply (Hnd O o).
Qed.

Lemma ports_consistent_connect h (I O : nat) i o :
  ports_consistent h ->
  h_inputs h !! I = Some i -> from_output i = None ->
  h_outputs h !! O = Some o ->
  ports_consistent
    (mkHeap (<[I := mkInput (i_module i) (Some O)]> (h_inputs h))
            (<[O := mkOutput (o_module o) (to_inputs o ++ [I])]>
               (h_outputs h))
            (h_modules h) (h_hyperps h)).
Proof.
  intros Hc HI Hfree HO.
  assert (Hfresh : ∀ O' o', h_outputs h !! O' = Some o' -> I ∉ to_inputs o').
  { intros O' o' HO' Hin.
    destruct (ports_consistent_lists h O' o' I Hc HO' Hin) as (i' & ? & ?).
    congruence. }
  pose proof Hc as (Hsym & Hnd & Hback).
  split; [|split]; simpl.
  - intros ox o'. simpl. destruct (decide (O = ox)) as [<-|Hne].
    + rewrite lookup_insert_eq. intros [= <-]. simpl.
      apply Forall_app. split.
      * apply Forall_forall. intros ix Hix.
        rewrite lookup_insert_ne by (intros <-; by apply (Hfresh O o)).
        by apply (proj1 (Forall_forall _ _) (Hsym O o HO)).
      * constructor; [|done]. by rewrite lookup_insert_eq.
    + rewrite lookup_insert_ne by done. intros Hox.
      apply Forall_forall. intros ix Hix.
      rewrite lookup_insert_ne by (intros <-; by apply (Hfresh ox o')).
      by apply (proj1 (Forall_forall _ _) (Hsym ox o' Hox)).
  - intros ox o'. simpl. destruct (decide (O = ox)) as [<-|Hne].
    + rewrite lookup_insert_eq. intros [= <-]. simpl.
      apply NoDup_app. split; [by apply (Hnd O o)|].
      split; [|apply NoDup_singleton].
      intros x Hx ->%list_elem_of_singleton. by apply (Hfresh O o).
    + rewrite lookup_insert_ne by done. apply Hnd.
  - intros ix i'. simpl. destruct (decide (I = ix)) as [<-|Hne].
    + rewrite lookup_insert_eq. intros [= <-]. simpl.
      rewrite lookup_insert_eq. simpl.
      apply elem_of_app. right. by apply list_elem_of_singleton.
    + rewrite lookup_insert_ne by done. intros Hix.
      pose proof (Hback ix i' Hix) as Hb. cbv beta in Hb.
      destruct (from_output i') as [ox|]; [|done]. simpl in *.
      destruct (decide (O = ox)) as [<-|HneO].
      * rewrite lookup_insert_eq. simpl. rewrite HO in Hb.
        apply elem_of_app. by left.
      * by rewrite lookup_insert_ne.
Qed.

Lemma ports_consistent_disconnect h (I O : nat) i o l1 l2 :
  ports_consistent h ->
  h_inputs h !! I = Some i -> from_output i = Some O ->
  h_outputs h !! O = Some o -> to_inputs o = l1 ++ (I :: l2) ->
  ports_consistent
    (mkHeap (<[I := mkInput (i_module i) None]> (h_inputs h))
            (<[O := mkOutput (o_module o) (l1 ++ l2)]> (h_outputs h))
            (h_modules h) (h_hyperps h)).
Proof.
  intros Hc HI Hfrom HO Hsplit.
  pose proof Hc as (Hsym & Hnd & Hback).
  pose proof (Hnd O o HO) as HndO. cbv beta in HndO.
  rewrite Hsplit in HndO.
  apply NoDup_app in HndO as (Hnd1 & Hdisj & Hnd2).
  apply NoDup_cons in Hnd2 as (HI2 & Hnd2).
  assert (HI1 : I ∉ l1).
  { intros Hin. apply (Hdisj I Hin). by left. }
  assert (Hrest : ∀ x, x ∈ l1 ++ l2 -> x ∈ to_inputs o ∧ x ≠ I).
  { intros x Hx. rewrite Hsplit. apply elem_of_app in Hx as [Hx|Hx].
    - split; [apply elem_of_app; by left|]. by intros ->.
    - split; [apply elem_of_app; right; by right|]. by intros ->. }
  split; [|split]; simpl.
  - intros ox o'. simpl. destruct (decide (O = ox)) as [<-|Hne].
    + rewrite lookup_insert_eq. intros [= <-]. simpl.
      apply Forall_forall. intros ix Hix.
      destruct (Hrest ix Hix) as [Hin HneI].
      rewrite lookup_insert_ne by done.
      by apply (proj1 (Forall_forall _ _) (Hsym O o HO)).
    + rewrite lookup_insert_ne by done. intros Hox.
      apply Forall_forall. intros ix Hix.
      destruct (ports_consistent_lists h ox o' ix Hc Hox Hix) as (i' & Hi' & Hf').
      assert (ix ≠ I) by (intros ->; congruence).
      rewrite lookup_insert_ne by done.
      by apply (proj1 (Forall_forall _ _) (Hsym ox o' Hox)).
  - intros ox o'. simpl. destruct (decide (O = ox)) as [<-|Hne].
    + rewrite lookup_insert_eq. intros [= <-]. simpl.
      apply NoDup_app. split; [done|]. split; [|done].
      intros x Hx1 Hx2. apply (Hdisj x Hx1). by right.
    + rewrite lookup_insert_ne by done. apply Hnd.
  - intros ix i'. simpl. destruct (decide (I = ix)) as [<-|Hne].
    + rewrite lookup_insert_eq. by intros [= <-].
    + rewrite lookup_insert_ne by done. intros Hix.
      pose proof (Hback ix i' Hix) as Hb. cbv beta in Hb.
      destruct (from_output i') as [ox|]; [|done]. simpl in *.
      destruct (decide (O = ox)) as [<-|HneO].
      * rewrite lookup_insert_eq. simpl. rewrite HO in Hb. simpl in Hb.
        rewrite Hsplit in Hb. apply elem_of_app in Hb as [?|Hin];
          [apply elem_of_app; by left|].
        apply elem_of_cons in Hin as [?|?]; [done|].
        apply elem_of_app. by right.
      * by rewrite lookup_insert_ne.
Qed.

(** X5. On a consistent graph, connecting an output to an unconnected input
    returns normally and keeps the graph consistent; disconnecting a
    connected input never fails (neither assertion nor [list.remove]
    raises), leaves that input unconnected, and keeps the graph
    consistent. *)
Theorem connect_disconnect_keep_consistent w (I O : nat) i :
  ports_consistent (heap w) ->
  h_inputs (heap w) !! I = Some i ->
  (from_output i = None -> is_Some (h_outputs (heap w) !! O) ->
     ∃ w', Input_connect I (POutput O) w = (w', Ok tt) ∧
           ports_consistent (heap w')) ∧
  (from_output i = Some O ->
     ∃ w', Input_disconnect I w = (w', Ok tt) ∧
           from_output <$> h_inputs (heap w') !! I = Some None ∧
           ports_consistent (heap w')).
Proof.
  intros Hc HI. split.
  - intros Hfree [o HO]. eexists.
    split; [by apply (input_connect_spec w I O i o)|].
    by apply ports_consistent_connect.
  - intros Hfrom.
    destruct (ports_consistent_points _ I O i Hc HI Hfrom)
      as (o & HO & Hin & Hnd).
    destruct (list_remove_first_split I (to_inputs o) Hin)
      as (l1 & l2 & Hsplit & Hl1 & _).
    eexists.
    split; [by apply (input_disconnect_spec w I O i o l1 l2)|].
    split; [simpl; by rewrite lookup_insert_eq|].
    by apply ports_consistent_disconnect.
Qed.

End PortInvariantProperties.

Lemma evens_elem (x : nat) (l : list nat) : x ∈ evens l -> x ∈ l.
Proof.
  revert x. induction l as [l IH] using (induction_ltof1 _ length).
  unfold ltof in IH. intros x. destruct l as [|a [|b l]]; simpl.
  - done.
  - done.
  - intros [->|Hx]%elem_of_cons; [by left|].
    right. right. apply IH; [simpl; lia|done].
Qed.

Lemma odds_elem (x : nat) (l : list nat) : x ∈ odds l -> x ∈ l.
Proof.
  revert x. induction l as [l IH] using (induction_ltof1 _ length).
  unfold ltof in IH. intros x. destruct l as [|a [|b l]]; simpl.
  - done.
  - intros Hx. by apply not_elem_of_nil in Hx.
  - intros [->|Hx]%elem_of_cons; [right; by left|].
    right. right. apply IH; [simpl; lia|done].
Qed.

Lemma odds_length (l : list nat) : length (odds l) = length l / 2.
Proof.
  induction l as [l IH] using (induction_ltof1 _ length).
  unfold ltof in IH. destruct l as [|a [|b l]]; [done|done|].
  cbn [odds length]. rewrite IH by (simpl; lia).
  replace (S (S (length l))) with (length l + 1 * 2) by lia.
  rewrite Nat.div_add by done. lia.
Qed.

Section IterationProperties.
Context {Val : Type}.
Implicit Types w : World Val.

Lemma disconnect_all_loop_unfold w (O fuel idx : nat) o :
  h_outputs (heap w) !! O = Some o ->
  disconnect_all_loop (S fuel) O idx w =
    match to_inputs o !! idx with
    | None => (w, Ok tt)
    | Some ix =>
        match Input_disconnect ix w with
        | (w1, Ok _) => disconnect_all_loop fuel O (S idx) w1
        | (w1, Raise e) => (w1, Raise e)
        end
    end.
Proof.
  intros HO. cbn [disconnect_all_loop]. unfold bind at 1, get_output.
  rewrite HO. by destruct (to_inputs o !! idx).
Qed.

Lemma disconnect_all_loop_spec (O : nat) (fuel : nat) :
  ∀ w o (p r : list nat),
    ports_consistent (heap w) ->
    h_outputs (heap w) !! O = Some o ->
    to_inputs o = p ++ r ->
    length r < fuel ->
    ∃ w',
      disconnect_all_loop fuel O (length p) w = (w', Ok tt) ∧
      ports_consistent (heap w') ∧
      to_inputs <$> h_outputs (heap w') !! O = Some (p ++ odds r) ∧
      (∀ ix, ix ∈ evens r ->
         from_output <$> h_inputs (heap w') !! ix = Some None) ∧
      (∀ ix, ix ∉ evens r ->
         h_inputs (heap w') !! ix = h_inputs (heap w) !! ix) ∧
      (∀ ox, ox ≠ O -> h_outputs (heap w') !! ox = h_outputs (heap w) !! ox).
Proof.
  induction fuel as [|fuel IH]; intros w o p r Hc HO Hto Hfuel; [lia|].
  rewrite (disconnect_all_loop_unfold w O fuel _ o HO), Hto.
  destruct r as [|x r1].
  - rewrite lookup_ge_None_2 by (rewrite app_nil_r; lia).
    exists w. rewrite HO. simpl. rewrite Hto.
    split; [done|]. split; [done|]. split; [done|].
    split; [|by split]. intros ix Hix. by apply not_elem_of_nil in Hix.
  - rewrite list_lookup_middle by done.
    assert (Hx : x ∈ to_inputs o).
    { rewrite Hto. apply elem_of_app. right. by left. }
    destruct (ports_consistent_lists _ O o x Hc HO Hx) as (i & Hi & Hfrom).
    pose proof Hc as (_ & Hnd & _). pose proof (Hnd O o HO) as HndO.
    cbv beta in HndO. rewrite Hto in HndO.
    assert (Hxp : x ∉ p).
    { apply NoDup_app in HndO as (_ & Hdisj & _).
      intros Hin. apply (Hdisj x Hin). by left. }
    assert (Hxr : x ∉ r1).
    { apply NoDup_app in HndO as (_ & _ & Hr).
      by apply NoDup_cons in Hr as [? _]. }
    rewrite (input_disconnect_spec w x O i o p r1 Hi Hfrom HO Hto Hxp).
    pose proof (ports_consistent_disconnect _ x O i o p r1 Hc Hi Hfrom HO Hto)
      as Hc1.
    set (w1 := set_ports w _ _) in *.
    assert (HO1 : h_outputs (heap w1) !! O
                  = Some (mkOutput (o_module o) (p ++ r1)))
      by apply lookup_insert_eq.
    destruct r1 as [|y r2].
    + destruct fuel as [|fuel]; [simpl in Hfuel; lia|].
      rewrite (disconnect_all_loop_unfold w1 O fuel _ _ HO1).
      cbn [to_inputs].
      rewrite lookup_ge_None_2 by (rewrite app_nil_r; lia).
      exists w1. split; [done|]. split; [done|].
      rewrite HO1. split; [done|]. split; [|split].
      * intros ix ->%list_elem_of_singleton. simpl.
        by rewrite lookup_insert_eq.
      * intros ix Hix. simpl. apply lookup_insert_ne.
        intros <-. apply Hix. by left.
      * intros ox Hox. simpl. by apply lookup_insert_ne.
    + destruct (IH w1 (mkOutput (o_module o) (p ++ y :: r2)) (p ++ [y]) r2)
        as (w' & Hrun & Hc' & Hlist & Hev & Hframe & Houts);
        [done|done|by rewrite <- app_assoc|simpl in *; lia|].
      rewrite length_app in Hrun. simpl in Hrun.
      rewrite Nat.add_1_r in Hrun.
      exists w'. split; [done|]. split; [done|].
      split; [by rewrite Hlist, <- app_assoc|].
      assert (Hxe : x ∉ evens r2).
      { intros Hin. apply Hxr. right. by apply evens_elem. }
      split; [|split].
      * simpl. intros ix [->|Hix]%elem_of_cons; [|by apply Hev].
        rewrite Hframe by done. simpl. by rewrite lookup_insert_eq.
      * simpl. intros ix Hix. apply not_elem_of_cons in Hix as [Hne Hix].
        rewrite Hframe by done. simpl. by apply lookup_insert_ne.
      * intros ox Hox. rewrite Houts by done. simpl.
        by apply lookup_insert_ne.
Qed.

(** X6. On a consistent graph, [disconnect_all] returns normally but only
    disconnects the inputs at even positions of the output's list (the
    first, third, ...): the inputs at odd positions stay listed and keep
    pointing at the output.  An output with two or more connected inputs is
    therefore still connected afterwards. *)
Theorem disconnect_all_skips_every_other w (fuel O : nat) o :
  ports_consistent (heap w) ->
  h_outputs (heap w) !! O = Some o ->
  length (to_inputs o) < fuel ->
  ∃ w',
    Output_disconnect_all fuel O w = (w', Ok tt) ∧
    Output_get_connected_inputs O w' = (w', Ok (odds (to_inputs o))) ∧
    (∀ ix, ix ∈ evens (to_inputs o) -> Input_is_connected ix w' = (w', Ok false)) ∧
    (∀ ix, ix ∈ odds (to_inputs o) -> Input_is_connected ix w' = (w', Ok true)) ∧
    (2 ≤ length (to_inputs o) -> Output_is_connected O w' = (w', Ok true)) ∧
    ports_consistent (heap w').
Proof.
  intros Hc HO Hfuel.
  destruct (disconnect_all_loop_spec O fuel w o [] (to_inputs o))
    as (w' & Hrun & Hc' & Hlist & Hev & _); [done..|].
  simpl in Hlist.
  destruct (h_outputs (heap w') !! O) as [o'|] eqn:HO'; [|done].
  simpl in Hlist. injection Hlist as Hlist.
  exists w'. split; [done|].
  split; [unfold Output_get_connected_inputs; py_unfold; by rewrite HO', Hlist|].
  split; [|split; [|split; [|done]]].
  - intros ix Hix. specialize (Hev ix Hix).
    unfold Input_is_connected. py_unfold.
    destruct (h_inputs (heap w') !! ix) as [i|]; [|done].
    simpl in Hev. injection Hev as ->. done.
  - intros ix Hix. rewrite <- Hlist in Hix.
    destruct (ports_consistent_lists _ O o' ix Hc' HO' Hix) as (i & Hi & Hf).
    unfold Input_is_connected. py_unfold. rewrite Hi, Hf. done.
  - intros Hlen. unfold Output_is_connected. py_unfold. rewrite HO', Hlist.
    rewrite odds_length.
    assert (1 ≤ length (to_inputs o) / 2)
      by (apply Nat.div_le_lower_bound; lia).
    by rewrite bool_decide_eq_true_2 by lia.
Qed.

End IterationProperties.

Section RerouteProperties.
Context {Val : Type}.
Implicit Types w : World Val.

Lemma reroute_all_loop_unfold w (O fuel idx : nat) (dst : pyobj) o :
  h_outputs (heap w) !! O = Some o ->
  reroute_all_loop (S fuel) O dst idx w =
    match to_inputs o !! idx with
    | None => (w, Ok tt)
    | Some ix =>
        match Input_disconnect ix w with
        | (w1, Ok _) =>
            match Input_connect ix dst w1 with
            | (w2, Ok _) => reroute_all_loop fuel O dst (S idx) w2
            | (w2, Raise e) => (w2, Raise e)
            end
        | (w1, Raise e) => (w1, Raise e)
        end
    end.
Proof.
  intros HO. cbn [reroute_all_loop]. unfold bind at 1, get_output.
  rewrite HO. destruct (to_inputs o !! idx) as [ix|]; [|done].
  unfold bind. by destruct (Input_disconnect ix w) as [w1 [[]|e]].
Qed.

Lemma reroute_all_loop_spec (O O2 : nat) (fuel : nat) :
  O ≠ O2 ->
  ∀ w o o2 (p r : list nat),
    ports_consistent (heap w) ->
    h_outputs (heap w) !! O = Some o ->
    to_inputs o = p ++ r ->
    h_outputs (heap w) !! O2 = Some o2 ->
    length r < fuel ->
    ∃ w',
      reroute_all_loop fuel O (POutput O2) (length p) w = (w', Ok tt) ∧
      ports_consistent (heap w') ∧
      to_inputs <$> h_outputs (heap w') !! O = Some (p ++ odds r) ∧
      to_inputs <$> h_outputs (heap w') !! O2
        = Some (to_inputs o2 ++ evens r).
Proof.
  intros HOO.
  induction fuel as [|fuel IH]; intros w o o2 p r Hc HO Hto HO2 Hfuel; [lia|].
  rewrite (reroute_all_loop_unfold w O fuel _ _ o HO), Hto.
  destruct r as [|x r1].
  - rewrite lookup_ge_None_2 by (rewrite app_nil_r; lia).
    exists w. rewrite HO, HO2. simpl. rewrite Hto, !app_nil_r. done.
  - rewrite list_lookup_middle by done.
    assert (Hx : x ∈ to_inputs o).
    { rewrite Hto. apply elem_of_app. right. by left. }
    destruct (ports_consistent_lists _ O o x Hc HO Hx) as (i & Hi & Hfrom).
    pose proof Hc as (_ & Hnd & _). pose proof (Hnd O o HO) as HndO.
    cbv beta in HndO. rewrite Hto in HndO.
    assert (Hxp : x ∉ p).
    { apply NoDup_app in HndO as (_ & Hdisj & _).
      intros Hin. apply (Hdisj x Hin). by left. }
    rewrite (input_disconnect_spec w x O i o p r1 Hi Hfrom HO Hto Hxp).
    pose proof (ports_consistent_disconnect _ x O i o p r1 Hc Hi Hfrom HO Hto)
      as Hc1.
    set (w1 := set_ports w _ _) in *.
    assert (Hi1 : h_inputs (heap w1) !! x = Some (mkInput (i_module i) None))
      by apply lookup_insert_eq.
    assert (HO21 : h_outputs (heap w1) !! O2 = Some o2)
      by (simpl; by rewrite lookup_insert_ne).
    rewrite (input_connect_spec w1 x O2 _ o2 Hi1 eq_refl HO21).
    pose proof (ports_consistent_connect _ x O2 _ o2 Hc1 Hi1 eq_refl HO21)
      as Hc2.
    set (w2 := set_ports w1 _ _) in *.
    assert (HOw2 : h_outputs (heap w2) !! O
                   = Some (mkOutput (o_module o) (p ++ r1))).
    { simpl. rewrite lookup_insert_ne by done. apply lookup_insert_eq. }
    assert (HO2w2 : h_outputs (heap w2) !! O2
                    = Some (mkOutput (o_module o2) (to_inputs o2 ++ [x])))
      by apply lookup_insert_eq.
    destruct r1 as [|y r2].
    + destruct fuel as [|fuel]; [simpl in Hfuel; lia|].
      rewrite (reroute_all_loop_unfold w2 O fuel _ _ _ HOw2).
      cbn [to_inputs].
      rewrite lookup_ge_None_2 by (rewrite app_nil_r; lia).
      exists w2. split; [done|]. split; [done|].
      by rewrite HOw2, HO2w2.
    + destruct (IH w2 (mkOutput (o_module o) (p ++ y :: r2))
                  (mkOutput (o_module o2) (to_inputs o2 ++ [x]))
                  (p ++ [y]) r2)
        as (w' & Hrun & Hc' & HlistO & HlistO2);
        [done|done|by rewrite <- app_assoc|done|simpl in *; lia|].
      rewrite length_app in Hrun. simpl in Hrun.
      rewrite Nat.add_1_r in Hrun.
      exists w'. split; [done|]. split; [done|].
      split; [by rewrite HlistO, <- app_assoc|].
      rewrite HlistO2. simpl. by rewrite <- app_assoc.
Qed.

(** X7. On a consistent graph, [reroute_all_connected_inputs] towards
    another output returns normally having moved only the inputs at even
    positions of the list, in order, to the end of the new output's list;
    the inputs at odd positions stay with the old output.  The graph stays
    consistent. *)
Theorem reroute_all_moves_every_other w (fuel O O2 : nat) o o2 :
  ports_consistent (heap w) ->
  O ≠ O2 ->
  h_outputs (heap w) !! O = Some o ->
  h_outputs (heap w) !! O2 = Some o2 ->
  length (to_inputs o) < fuel ->
  ∃ w',
    Output_reroute_all_connected_inputs fuel O (POutput O2) w = (w', Ok tt) ∧
    Output_get_connected_inputs O w' = (w', Ok (odds (to_inputs o))) ∧
    Output_get_connected_inputs O2 w'
      = (w', Ok (to_inputs o2 ++ evens (to_inputs o))) ∧
    ports_consistent (heap w').
Proof.
  intros Hc HOO HO HO2 Hfuel.
  destruct (reroute_all_loop_spec O O2 fuel HOO w o o2 [] (to_inputs o))
    as (w' & Hrun & Hc' & HlistO & HlistO2); [done..|].
  exists w'. split; [done|].
  unfold Output_get_connected_inputs. py_unfold.
  destruct (h_outputs (heap w') !! O) as [o'|]; [|done].
  destruct (h_outputs (heap w') !! O2) as [o2'|]; [|done].
  simpl in *. injection HlistO as ->. injection HlistO2 as ->. done.
Qed.

Lemma reroute_connected_output_unfold w (depth I J O : nat) i :
  h_inputs (heap w) !! I = Some i -> from_output i = Some O ->
  Input_reroute_connected_output (S depth) I (PInput J) w =
    match Input_disconnect I w with
    | (w1, Ok _) => Input_connect J (POutput O) w1
    | (w1, Raise e) => (w1, Raise e)
    end.
Proof.
  intros HI Hfrom. unfold Input_reroute_connected_output.
  unfold bind at 1, get_input at 1. rewrite HI, Hfrom. unfold bind.
  by destruct (Input_disconnect I w) as [w1 [[]|e]].
Qed.

(** X8. On a consistent graph, [I.reroute_connected_output(J)] with [I]
    connected to [O] and [J] unconnected returns normally: [I] ends
    unconnected, [J] connected to [O], and the graph consistent. *)
Theorem reroute_connected_output_moves w (depth I J O : nat) i j :
  ports_consistent (heap w) ->
  h_inputs (heap w) !! I = Some i -> from_output i = Some O ->
  h_inputs (heap w) !! J = Some j -> from_output j = None ->
  ∃ w',
    Input_reroute_connected_output (S depth) I (PInput J) w = (w', Ok tt) ∧
    Input_is_connected I w' = (w', Ok false) ∧
    Input_get_connected_output J w' = (w', Ok (Some O)) ∧
    ports_consistent (heap w').
Proof.
  intros Hc HI Hfrom HJ Hfree.
  assert (HIJ : I ≠ J) by (intros ->; congruence).
  destruct (ports_consistent_points _ I O i Hc HI Hfrom)
    as (o & HO & Hin & Hnd).
  destruct (list_remove_first_split I (to_inputs o) Hin)
    as (l1 & l2 & Hsplit & Hl1 & _).
  rewrite (reroute_connected_output_unfold w depth I J O i HI Hfrom).
  rewrite (input_disconnect_spec w I O i o l1 l2 HI Hfrom HO Hsplit Hl1).
  pose proof (ports_consistent_disconnect _ I O i o l1 l2 Hc HI Hfrom HO Hsplit)
    as Hc1.
  set (w1 := set_ports w _ _) in *.
  assert (HJ1 : h_inputs (heap w1) !! J = Some j)
    by (simpl; by rewrite lookup_insert_ne).
  assert (HO1 : h_outputs (heap w1) !! O
                = Some (mkOutput (o_module o) (l1 ++ l2)))
    by apply lookup_insert_eq.
  rewrite (input_connect_spec w1 J O j _ HJ1 Hfree HO1).
  pose proof (ports_consistent_connect _ J O j _ Hc1 HJ1 Hfree HO1) as Hc2.
  eexists. split; [done|].
  unfold Input_is_connected, Input_get_connected_output. py_unfold. simpl.
  rewrite lookup_insert_ne by done. rewrite !lookup_insert_eq. done.
Qed.

(** X9. The reroute is not atomic.  When the target input [J] already has a
    connected output, [I.reroute_connected_output(J)] raises on the
    assertion of [connect] after [I] has been disconnected: [I] is left
    unconnected, its former output no longer lists it, and [J] keeps the
    connection it had. *)
Theorem reroute_connected_output_no_rollback w (depth I J O O' : nat) i j :
  ports_consistent (heap w) ->
  I ≠ J ->
  h_inputs (heap w) !! I = Some i -> from_output i = Some O ->
  h_inputs (heap w) !! J = Some j -> from_output j = Some O' ->
  ∃ w' l,
    Input_reroute_connected_output (S depth) I (PInput J) w
      = (w', Raise AssertionError) ∧
    Input_is_connected I w' = (w', Ok false) ∧
    Output_get_connected_inputs O w' = (w', Ok l) ∧ (I ∉ l) ∧
    Input_get_connected_output J w' = (w', Ok (Some O')) ∧
    ports_consistent (heap w').
Proof.
  intros Hc HIJ HI Hfrom HJ Hbusy.
  destruct (ports_consistent_points _ I O i Hc HI Hfrom)
    as (o & HO & Hin & Hnd).
  destruct (list_remove_first_split I (to_inputs o) Hin)
    as (l1 & l2 & Hsplit & Hl1 & _).
  rewrite (reroute_connected_output_unfold w depth I J O i HI Hfrom).
  rewrite (input_disconnect_spec w I O i o l1 l2 HI Hfrom HO Hsplit Hl1).
  pose proof (ports_consistent_disconnect _ I O i o l1 l2 Hc HI Hfrom HO Hsplit)
    as Hc1.
  set (w1 := set_ports w _ _) in *.
  assert (HJ1 : h_inputs (heap w1) !! J = Some j)
    by (simpl; by rewrite lookup_insert_ne).
  rewrite (input_connect_twice w1 J O O' j HJ1 Hbusy).
  exists w1, (l1 ++ l2). split; [done|].
  unfold Input_is_connected, Input_get_connected_output,
    Output_get_connected_inputs. py_unfold.
  rewrite HJ1, Hbusy. simpl. rewrite !lookup_insert_eq. simpl.
  split; [done|]. split; [done|]. split; [|done].
  rewrite Hsplit in Hnd. apply NoDup_app in Hnd as (_ & _ & Hnd2).
  apply NoDup_cons in Hnd2 as [HI2 _].
  intros [?|?]%elem_of_app; done.
Qed.

End RerouteProperties.

Section WorklistProperties.

Lemma absorb_spec (ns : list nat) (memo : gset nat) (ms : list nat) :
  ∃ new,
    (absorb ns memo ms).2 = ms ++ new ∧
    (∀ n, n ∈ (absorb ns memo ms).1 ↔ n ∈ memo ∨ n ∈ new) ∧
    (∀ n, n ∈ ns -> n ∈ (absorb ns memo ms).1) ∧
    (∀ n, n ∈ new -> n ∈ ns) ∧
    size (absorb ns memo ms).1 = size memo + length new.
Proof.
  revert memo ms. induction ns as [|x ns IH]; intros memo ms.
  - exists []. simpl. rewrite app_nil_r. split; [done|].
    split; [|split; [|split; [done|lia]]].
    + intros n. split; [by left|]. intros [?|Hn]; [done|].
      by apply not_elem_of_nil in Hn.
    + intros n Hn. by apply not_elem_of_nil in Hn.
  - simpl. destruct (decide (x ∈ memo)) as [Hx|Hx].
    + destruct (IH memo ms) as (new & Hms & Hmemo & Hall & Hnew & Hsize).
      exists new. split; [done|]. split; [done|].
      split; [|split; [|done]].
      * intros n [->|Hn]%elem_of_cons; [|by apply Hall].
        apply Hmemo. by left.
      * intros n Hn. right. by apply Hnew.
    + destruct (IH ({[x]} ∪ memo) (ms ++ [x]))
        as (new & Hms & Hmemo & Hall & Hnew & Hsize).
      exists (x :: new). rewrite Hms, <- app_assoc. split; [done|].
      split; [|split; [|split]].
      * intros n. rewrite Hmemo, elem_of_union, elem_of_singleton,
          elem_of_cons. tauto.
      * intros n [->|Hn]%elem_of_cons; [|by apply Hall].
        apply Hmemo. left. apply elem_of_union. left.
        by apply elem_of_singleton.
      * intros n [->|Hn]%elem_of_cons; [by left|]. right. by apply Hnew.
      * rewrite Hsize, size_union, size_singleton
          by by apply disjoint_singleton_l.
        simpl. lia.
Qed.

Lemma absorb_app (ns ns' : list nat) (memo : gset nat) (ms : list nat) :
  absorb (ns ++ ns') memo ms =
    absorb ns' (absorb ns memo ms).1 (absorb ns memo ms).2.
Proof.
  revert memo ms. induction ns as [|x ns IH]; intros memo ms; [done|].
  simpl. destruct (decide (x ∈ memo)); apply IH.
Qed.

Lemma reach_along_extend (nbrs : nat -> result (list nat))
    (ms new : list nat) (m : nat) :
  (∀ n, n ∈ new -> reach_along nbrs ms n) ->
  reach_along nbrs (ms ++ new) m -> reach_along nbrs ms m.
Proof.
  intros Hnew. induction 1 as [m Hm|m ns n _ IH Hns Hn].
  - apply elem_of_app in Hm as [Hm|Hm]; [by apply along_seed|by apply Hnew].
  - by apply (along_step nbrs ms m ns n).
Qed.

(** The worklist loop, never stopped: the list it ends with holds the
    pending list as a prefix, only modules reachable from it, and all the
    neighbours of its own members. *)
Lemma worklist_loop_order (nbrs : nat -> result (list nat)) (D : gset nat)
    (fuel idx : nat) (ms : list nat) (memo : gset nat) (acc : list nat) :
  (∀ m, m ∈ D -> ∃ ns, nbrs m = Ok ns ∧ ∀ n, n ∈ ns -> n ∈ D) ->
  memo ⊆ D ->
  (∀ m, m ∈ ms -> m ∈ D) ->
  (∀ n, n ∈ memo -> n ∈ ms) ->
  (∀ j m ns n, j < idx -> ms !! j = Some m -> nbrs m = Ok ns -> n ∈ ns ->
     n ∈ ms) ->
  (size D - size memo) + (length ms - idx) < fuel ->
  ∃ ms',
    worklist_loop nbrs record_visit fuel idx ms memo acc
      = Ok (acc ++ drop idx ms') ∧
    ms `prefix_of` ms' ∧
    (∀ m, m ∈ ms' -> m ∈ D ∧ reach_along nbrs ms m) ∧
    (∀ m ns n, m ∈ ms' -> nbrs m = Ok ns -> n ∈ ns -> n ∈ ms').
Proof.
  intros Hnbrs. revert idx ms memo acc.
  induction fuel as [|fuel IH];
    intros idx ms memo acc Hmemo Hms Hseen Hdone Hfuel; [lia|].
  simpl. destruct (ms !! idx) as [m|] eqn:Hm.
  - pose proof (lookup_lt_Some _ _ _ Hm) as Hidx.
    pose proof (list_elem_of_lookup_2 _ _ _ Hm) as Hin.
    destruct (Hnbrs m (Hms m Hin)) as (ns & Hns & HnsD).
    simpl. rewrite Hns. simpl.
    destruct (absorb_spec ns memo ms)
      as (new & Hq2 & Hq1 & Hall & Hnew & Hsize).
    assert (Hsub : (absorb ns memo ms).1 ⊆ D).
    { intros n Hn. apply Hq1 in Hn as [Hn|Hn]; [by apply Hmemo|].
      by apply HnsD, Hnew. }
    pose proof (subseteq_size _ _ Hsub) as Hle.
    destruct (IH (S idx) (absorb ns memo ms).2 (absorb ns memo ms).1
                (acc ++ [m]))
      as (ms' & Hrun & Hpre & Hreach & Hclosed).
    + done.
    + rewrite Hq2. intros n [Hn|Hn]%elem_of_app; [by apply Hms|].
      by apply HnsD, Hnew.
    + rewrite Hq2. intros n Hn. apply elem_of_app.
      apply Hq1 in Hn as [Hn|Hn]; [left; by apply Hseen|by right].
    + rewrite Hq2. intros j m' ns' n Hj Hm' Hns' Hn. apply elem_of_app.
      destruct (decide (j = idx)) as [->|Hne].
      * rewrite lookup_app_l in Hm' by done.
        assert (m' = m) as -> by congruence.
        assert (ns' = ns) as -> by congruence.
        apply Hall, Hq1 in Hn as [Hn|Hn]; [left; by apply Hseen|by right].
      * rewrite lookup_app_l in Hm' by lia.
        left. apply (Hdone j m' ns' n); [lia|done..].
    + rewrite Hq2, length_app. lia.
    + rewrite Hq2 in Hpre.
      assert (Hpre' : ms `prefix_of` ms').
      { etrans; [|exact Hpre]. by apply prefix_app_r. }
      exists ms'. split; [|split; [done|split; [|done]]].
      * rewrite Hrun, <- app_assoc. do 2 f_equal. simpl.
        symmetry. apply drop_S.
        destruct Hpre' as [k ->]. by apply lookup_app_l_Some.
      * intros m0 Hm0. destruct (Hreach m0 Hm0) as [HD Hr].
        split; [done|]. rewrite Hq2 in Hr.
        apply (reach_along_extend nbrs ms new); [|done].
        intros n Hn. apply (along_step nbrs ms m ns n); [|done|by apply Hnew].
        by apply along_seed.
  - apply lookup_ge_None_1 in Hm.
    exists ms. rewrite drop_ge by lia. rewrite app_nil_r.
    split; [done|]. split; [done|]. split.
    + intros m Hin. split; [by apply Hms|by apply along_seed].
    + intros m ns n Hin Hns Hn.
      apply list_elem_of_lookup in Hin as [j Hj].
      pose proof (lookup_lt_Some _ _ _ Hj).
      apply (Hdone j m ns n); [lia|done..].
Qed.

(** Whatever the visit function, the worklist loop is that function run
    along the order of visits. *)
Lemma worklist_loop_run (nbrs : nat -> result (list nat)) (fuel idx : nat)
    (ms : list nat) (memo : gset nat) (acc r : list nat) :
  worklist_loop nbrs record_visit fuel idx ms memo acc = Ok r ->
  ∃ vs, r = acc ++ vs ∧
    ∀ St (fn : nat -> St -> result (bool * St)) (st : St),
      worklist_loop nbrs fn fuel idx ms memo st = run_visits fn vs st.
Proof.
  revert idx ms memo acc.
  induction fuel as [|fuel IH]; intros idx ms memo acc; [done|].
  simpl. destruct (ms !! idx) as [m|] eqn:Hm.
  - simpl. destruct (nbrs m) as [ns|e] eqn:Hns; [|done]. simpl.
    intros Hrec. destruct (IH _ _ _ _ Hrec) as (vs & -> & Hrun).
    exists (m :: vs). rewrite <- app_assoc. split; [done|].
    intros St fn st. simpl.
    destruct (fn m st) as [[stop st']|e]; [|done]. simpl.
    destruct stop; [done|]. apply Hrun.
  - intros [= <-]. exists []. by rewrite app_nil_r.
Qed.

(** A worklist traversal from [seeds]: its visits are the same whatever the
    visit function, and they are exactly the modules reachable from the
    seeds along [nbrs]. *)
Lemma worklist_traversal (nbrs : nat -> result (list nat)) (D : gset nat)
    (fuel : nat) (seeds : list nat) :
  (∀ m, m ∈ D -> ∃ ns, nbrs m = Ok ns ∧ ∀ n, n ∈ ns -> n ∈ D) ->
  (∀ m, m ∈ seeds -> m ∈ D) ->
  size D + length seeds < fuel ->
  ∃ vs,
    (∀ St (fn : nat -> St -> result (bool * St)) (st : St),
       worklist_loop nbrs fn fuel 0 seeds ∅ st = run_visits fn vs st) ∧
    (∀ m, m ∈ vs ↔ reach_along nbrs seeds m) ∧
    (∀ m, m ∈ vs -> m ∈ D).
Proof.
  intros Hnbrs Hseeds Hfuel.
  destruct (worklist_loop_order nbrs D fuel 0 seeds ∅ [] Hnbrs)
    as (ms' & Hrun & Hpre & Hreach & Hclosed).
  - apply empty_subseteq.
  - done.
  - intros n Hn. by apply not_elem_of_empty in Hn.
  - intros j m ns n Hj. lia.
  - rewrite size_empty. lia.
  - destruct (worklist_loop_run nbrs _ _ _ _ _ _ Hrun) as (vs & Heq & Hfn).
    simpl in Heq. rewrite drop_0 in Heq. subst vs.
    exists ms'. split; [done|]. split; [|intros m Hm; by apply Hreach].
    intros m. split; [intros Hm; by apply Hreach|].
    induction 1 as [m Hm|m ns n _ IH Hns Hn].
    + destruct Hpre as [k ->]. apply elem_of_app. by left.
    + by apply (Hclosed m ns n).
Qed.

End WorklistProperties.

Section BackwardReach.
Context {Val : Type}.
Implicit Types h : Heap Val.

Lemma visit_inputs_absorb h (ixs : list nat) (memo : gset nat)
    (ms : list nat) :
  visit_inputs h ixs memo ms =
    let? ns := upstream_of h ixs in Ok (absorb ns memo ms).
Proof.
  revert memo ms. induction ixs as [|ix ixs IH]; intros memo ms; [done|].
  simpl. destruct (deref (h_inputs h !! ix)) as [i|e]; [|done]. simpl.
  destruct (from_output i) as [ox|]; [|apply IH].
  destruct (deref (h_outputs h !! ox)) as [o|e]; [|done]. simpl.
  destruct (decide (o_module o ∈ memo)) as [Hin|Hin]; rewrite IH;
    destruct (upstream_of h ixs) as [ns|e]; simpl; try done.
  - by rewrite decide_True.
  - by rewrite decide_False.
Qed.

Lemma traverse_backward_loop_worklist {St} h
    (fn : nat -> St -> result (bool * St)) (fuel idx : nat)
    (ms : list nat) (memo : gset nat) (st : St) :
  traverse_backward_loop h fn fuel idx ms memo st =
    worklist_loop (upstream h) fn fuel idx ms memo st.
Proof.
  revert idx ms memo st.
  induction fuel as [|fuel IH]; intros idx ms memo st; [done|].
  simpl. destruct (ms !! idx) as [m|]; [|done].
  destruct (fn m st) as [[stop st']|e]; [|done]. simpl.
  destruct stop; [done|]. unfold upstream.
  destruct (deref (h_modules h !! m)) as [M|e]; [|done]. simpl.
  rewrite visit_inputs_absorb.
  destruct (upstream_of h (itervalues (inputs M))) as [ns|e]; [|done].
  simpl. apply IH.
Qed.

Lemma upstream_of_elem h (ixs ns : list nat) (n : nat) :
  upstream_of h ixs = Ok ns ->
  n ∈ ns ↔ ∃ ix i ox o, ix ∈ ixs ∧ h_inputs h !! ix = Some i ∧
             from_output i = Some ox ∧ h_outputs h !! ox = Some o ∧
             o_module o = n.
Proof.
  revert ns. induction ixs as [|ix ixs IH]; intros ns.
  - intros [= <-]. split; [intros Hn; by apply not_elem_of_nil in Hn|].
    intros (ix & ? & ? & ? & Hix & _). by apply not_elem_of_nil in Hix.
  - simpl. destruct (h_inputs h !! ix) as [i|] eqn:Hi; [|done]. simpl.
    destruct (from_output i) as [ox|] eqn:Hfrom.
    + destruct (h_outputs h !! ox) as [o|] eqn:Ho; [|done]. simpl.
      destruct (upstream_of h ixs) as [ns'|] eqn:Hns'; [|done]. simpl.
      intros [= <-]. rewrite elem_of_cons, (IH ns' eq_refl). split.
      * intros [->|(ix' & i' & ox' & o' & Hin & ?)].
        -- exists ix, i, ox, o. split; [by left|done].
        -- exists ix', i', ox', o'. split; [by right|done].
      * intros (ix' & i' & ox' & o' & [->|Hin]%elem_of_cons & Hi' & Hf' & Ho' & Hn).
        -- left. congruence.
        -- right. by exists ix', i', ox', o'.
    + intros Hns. rewrite (IH ns Hns). split.
      * intros (ix' & i' & ox' & o' & Hin & ?).
        exists ix', i', ox', o'. split; [by right|done].
      * intros (ix' & i' & ox' & o' & [->|Hin]%elem_of_cons & Hi' & Hf' & Ho' & Hn).
        -- congruence.
        -- by exists ix', i', ox', o'.
Qed.

Lemma upstream_of_total h (ixs : list nat) :
  closed h -> Forall (fun ix => is_Some (h_inputs h !! ix)) ixs ->
  ∃ ns, upstream_of h ixs = Ok ns ∧
        ∀ n, n ∈ ns -> n ∈ dom (h_modules h).
Proof.
  intros (Hmod & Hin & Hout). induction 1 as [|ix ixs [i Hi] _ (ns & Hns & HD)].
  - exists []. split; [done|]. intros n Hn. by apply not_elem_of_nil in Hn.
  - simpl. rewrite Hi. simpl. destruct (Hin ix i Hi) as [_ Hox].
    destruct (from_output i) as [ox|]; [|by exists ns].
    destruct Hox as [o Ho]. rewrite Ho. simpl. rewrite Hns. simpl.
    exists (o_module o :: ns). split; [done|].
    intros n [->|Hn]%elem_of_cons; [|by apply HD].
    apply elem_of_dom. by destruct (Hout ox o Ho).
Qed.

Lemma upstream_total h (m : nat) :
  closed h -> m ∈ dom (h_modules h) ->
  ∃ ns, upstream h m = Ok ns ∧ ∀ n, n ∈ ns -> n ∈ dom (h_modules h).
Proof.
  intros Hcl [M HM]%elem_of_dom. unfold upstream. rewrite HM. simpl.
  apply upstream_of_total; [done|].
  destruct Hcl as (Hmod & _). by destruct (Hmod m M HM).
Qed.

Lemma reach_along_upstream h (ms : list nat) (m : nat) :
  closed h ->
  reach_along (upstream h) ms m ↔ reach_backward h ms m.
Proof.
  intros Hcl. split.
  - induction 1 as [m Hm|m ns n _ IH Hns Hn]; [by apply reach_seed|].
    unfold upstream in Hns.
    destruct (h_modules h !! m) as [M|] eqn:HM; [|done]. simpl in Hns.
    apply (upstream_of_elem h _ ns n Hns) in Hn
      as (ix & i & ox & o & Hix & Hi & Hf & Ho & <-).
    by apply (reach_step h ms m M ix i ox o).
  - induction 1 as [m Hm|m M ix i ox o _ IH HM Hix Hi Hf Ho];
      [by apply along_seed|].
    destruct (upstream_total h m Hcl) as (ns & Hns & _);
      [apply elem_of_dom; by exists M|].
    apply (along_step _ ms m ns); [done|done|].
    unfold upstream in Hns. rewrite HM in Hns. simpl in Hns.
    apply (upstream_of_elem h _ ns _ Hns). by exists ix, i, ox, o.
Qed.

Lemma traverse_backward_reach h (output_lst : list pyobj) :
  closed h -> Forall (allocated h) output_lst ->
  ∃ ms vs,
    extract_unique_modules h output_lst = Ok ms ∧
    (∀ St (fn : nat -> St -> result (bool * St)) (st : St),
       traverse_backward h (traverse_fuel h output_lst) output_lst fn st
         = run_visits fn vs st) ∧
    (∀ m, m ∈ vs ↔ reach_backward h ms m) ∧
    (∀ m, m ∈ vs -> is_Some (h_modules h !! m)).
Proof.
  intros Hcl Hlst.
  destruct (extract_unique_modules_spec h output_lst Hcl Hlst)
    as (ms & Hms & Hlen & Hall).
  destruct (worklist_traversal (upstream h) (dom (h_modules h))
              (traverse_fuel h output_lst) ms)
    as (vs & Hrun & Hreach & HD).
  - intros m. by apply upstream_total.
  - intros m Hm. apply elem_of_dom.
    by apply (proj1 (Forall_forall _ _) Hall).
  - unfold traverse_fuel. rewrite size_dom. lia.
  - exists ms, vs. split; [done|]. split; [|split].
    + intros St fn st. unfold traverse_backward. rewrite Hms. cbn [rbind].
      rewrite traverse_backward_loop_worklist. apply Hrun.
    + intros m. rewrite Hreach. by apply reach_along_upstream.
    + intros m Hm. by apply elem_of_dom, HD.
Qed.

(** X10. On a closed graph, the modules [traverse_backward] visits, and the
    order it visits them in, do not depend on the visit function, which is
    simply run along that order until it asks to stop; and a traversal that
    is never stopped visits a module if and only if a backward walk from
    the seed modules reaches it. *)
Theorem traverse_backward_visits_reachable h (output_lst : list pyobj) :
  closed h -> Forall (allocated h) output_lst ->
  ∃ ms vs,
    extract_unique_modules h output_lst = Ok ms ∧
    (∀ St (fn : nat -> St -> result (bool * St)) (st : St),
       traverse_backward h (traverse_fuel h output_lst) output_lst fn st
         = run_visits fn vs st) ∧
    (∀ m, m ∈ vs ↔ reach_backward h ms m) ∧
    (∀ m, m ∈ vs -> is_Some (h_modules h !! m)).
Proof. apply traverse_backward_reach. Qed.

End BackwardReach.

Lemma OrderedSet_add_NoDup (x : nat) (d : OrderedSet) :
  NoDup d -> NoDup (OrderedSet_add x d).
Proof.
  intros Hd. unfold OrderedSet_add. destruct (decide (x ∈ d)); [done|].
  apply NoDup_app. split; [done|]. split; [|apply NoDup_singleton].
  by intros y Hy ->%list_elem_of_singleton.
Qed.

Section CollectorProperties.
Context {Val : Type}.
Implicit Types h : Heap Val.

Lemma any_unset_true h (hps : list nat) :
  any_unset h hps = true ↔
  ∃ hp H, hp ∈ hps ∧ h_hyperps h !! hp = Some H ∧ set_done H = false.
Proof.
  unfold any_unset. induction hps as [|hp hps IH]; simpl.
  - split; [done|]. intros (hp & ? & Hin & _). by apply not_elem_of_nil in Hin.
  - rewrite orb_true_iff, IH. split.
    + intros [Hhp|(hp' & H & Hin & ?)].
      * destruct (h_hyperps h !! hp) as [H|] eqn:HH; [|done]. simpl in Hhp.
        exists hp, H. split; [by left|]. split; [done|].
        by apply negb_true_iff.
      * exists hp', H. split; [by right|done].
    + intros (hp' & H & [->|Hin]%elem_of_cons & HH & Hset).
      * left. rewrite HH. simpl. by rewrite Hset.
      * right. by exists hp', H.
Qed.

Lemma run_visits_is_specified_iff h (vs : list nat) (b : bool) :
  closed h ->
  Forall (fun m => is_Some (h_modules h !! m)) vs ->
  ∃ b', run_visits (is_specified_fn h) vs b = Ok b' ∧
        (b' = true ↔ b = true ∧ ∀ m hp, m ∈ vs -> ¬ unset_in h m hp).
Proof.
  intros Hcl Hvs.
  induction Hvs as [|m vs [M HM] _ (b' & Hb' & IH)].
  - exists b. split; [done|]. split; [|by intros [? _]].
    intros ->. split; [done|]. intros m hp Hm. by apply not_elem_of_nil in Hm.
  - assert (Hhps : Forall (fun hp => is_Some (h_hyperps h !! hp))
                     (itervalues (hyperps M))).
    { destruct Hcl as (Hmod & _). by destruct (Hmod m M HM) as (_ & _ & ?). }
    simpl. unfold is_specified_fn at 1. rewrite HM. simpl.
    rewrite (is_specified_fn_loop_spec h _ _ Hhps).
    destruct (any_unset h (itervalues (hyperps M))) eqn:Hany; simpl.
    + exists false. split; [done|]. split; [done|]. intros [_ Hnone].
      apply any_unset_true in Hany as (hp & H & Hin & HH & Hset).
      exfalso. apply (Hnone m hp); [by left|]. by exists M, H.
    + exists b'. split; [done|]. rewrite IH. split.
      * intros [-> Hnone]. split; [done|].
        intros m' hp [->|Hm']%elem_of_cons; [|by apply Hnone].
        intros (M' & H & HM' & Hin & HH & Hset).
        assert (M' = M) as -> by congruence.
        assert (any_unset h (itervalues (hyperps M)) = true) as Hcontra
          by (apply any_unset_true; by exists hp, H).
        congruence.
      * intros [-> Hnone]. split; [done|].
        intros m' hp Hm'. apply Hnone. by right.
Qed.

(** X11. On a closed graph, [is_specified] returns a boolean, and it
    returns [True] exactly when no module reachable backward from the
    outputs has a hyperparameter that is not set. *)
Theorem is_specified_iff_all_set h (output_lst : list pyobj) :
  closed h -> Forall (allocated h) output_lst ->
  ∃ ms b,
    extract_unique_modules h output_lst = Ok ms ∧
    is_specified h (traverse_fuel h output_lst) output_lst = Ok b ∧
    (b = true ↔ ∀ m hp, reach_backward h ms m -> ¬ unset_in h m hp).
Proof.
  intros Hcl Hlst.
  destruct (traverse_backward_reach h output_lst Hcl Hlst)
    as (ms & vs & Hms & Hrun & Hreach & Halloc).
  destruct (run_visits_is_specified_iff h vs true Hcl) as (b & Hb & Hiff).
  { by apply Forall_forall. }
  exists ms, b. split; [done|]. unfold is_specified. rewrite Hrun.
  split; [done|]. rewrite Hiff. split.
  - intros [_ Hnone] m hp Hm. apply Hnone. by apply Hreach.
  - intros Hnone. split; [done|]. intros m hp Hm. apply Hnone.
    by apply Hreach.
Qed.

Lemma get_unset_fn_loop_elem h (hps : list nat) (hs : OrderedSet) :
  Forall (fun hp => is_Some (h_hyperps h !! hp)) hps ->
  ∃ hs', get_unset_fn_loop h hps hs = Ok (false, hs') ∧
         (NoDup hs -> NoDup hs') ∧
         ∀ hp, hp ∈ hs' ↔
           hp ∈ hs ∨ (hp ∈ hps ∧ ∃ H, h_hyperps h !! hp = Some H ∧
                                       set_done H = false).
Proof.
  intros Hall. revert hs.
  induction Hall as [|hp0 hps [H0 HH0] _ IH]; intros hs.
  - exists hs. split; [done|]. split; [done|]. intros hp.
    split; [by left|]. intros [?|[Hin _]]; [done|].
    by apply not_elem_of_nil in Hin.
  - simpl. rewrite HH0. simpl. destruct (set_done H0) eqn:Hset; simpl.
    + destruct (IH hs) as (hs' & Hrun & Hnd & Helem).
      exists hs'. split; [done|]. split; [done|]. intros hp.
      rewrite Helem. split.
      * intros [?|[Hin ?]]; [by left|]. right. split; [by right|done].
      * intros [?|[[->|Hin]%elem_of_cons (H & HH & Hs)]]; [by left| |].
        -- congruence.
        -- right. split; [done|]. by exists H.
    + destruct (IH (OrderedSet_add hp0 hs)) as (hs' & Hrun & Hnd & Helem).
      exists hs'. split; [done|].
      split; [intros ?; by apply Hnd, OrderedSet_add_NoDup|].
      intros hp. rewrite Helem, OrderedSet_add_elem. split.
      * intros [[->|?]|[Hin ?]].
        -- right. split; [by left|]. by exists H0.
        -- by left.
        -- right. split; [by right|done].
      * intros [?|[[->|Hin]%elem_of_cons ?]].
        -- left. by right.
        -- left. by left.
        -- by right.
Qed.

Lemma run_visits_get_unset h (vs : list nat) (hs : OrderedSet) :
  closed h ->
  Forall (fun m => is_Some (h_modules h !! m)) vs ->
  ∃ hs', run_visits (get_unset_fn h) vs hs = Ok hs' ∧
         (NoDup hs -> NoDup hs') ∧
         ∀ hp, hp ∈ hs' ↔ hp ∈ hs ∨ ∃ m, m ∈ vs ∧ unset_in h m hp.
Proof.
  intros Hcl Hvs. revert hs.
  induction Hvs as [|m vs [M HM] _ IH]; intros hs.
  - exists hs. split; [done|]. split; [done|]. intros hp.
    split; [by left|]. intros [?|(m & Hm & _)]; [done|].
    by apply not_elem_of_nil in Hm.
  - assert (Hhps : Forall (fun hp => is_Some (h_hyperps h !! hp))
                     (itervalues (hyperps M))).
    { destruct Hcl as (Hmod & _). by destruct (Hmod m M HM) as (_ & _ & ?). }
    simpl. unfold get_unset_fn at 1. rewrite HM. simpl.
    destruct (get_unset_fn_loop_elem h _ hs Hhps) as (hs1 & -> & Hnd1 & Hel1).
    simpl. destruct (IH hs1) as (hs' & Hrun & Hnd & Hel).
    exists hs'. split; [done|]. split; [auto|]. intros hp.
    rewrite Hel, Hel1. split.
    + intros [[?|[Hin (H & HH & Hs)]]|(m' & Hm' & Hu)].
      * by left.
      * right. exists m. split; [by left|]. by exists M, H.
      * right. exists m'. split; [by right|done].
    + intros [?|(m' & [->|Hm']%elem_of_cons & Hu)].
      * left. by left.
      * destruct Hu as (M' & H & HM' & Hin & HH & Hs).
        assert (M' = M) as -> by congruence.
        left. right. split; [done|]. by exists H.
      * right. by exists m'.
Qed.

(** X12. On a closed graph that is not fully specified,
    [get_unset_hyperparameters] returns, without repetition, exactly the
    hyperparameters that are not set among those of the modules reachable
    backward from the outputs. *)
Theorem get_unset_hyperparameters_exact h (output_lst : list pyobj) :
  closed h -> Forall (allocated h) output_lst ->
  is_specified h (traverse_fuel h output_lst) output_lst = Ok false ->
  ∃ ms hs,
    extract_unique_modules h output_lst = Ok ms ∧
    get_unset_hyperparameters h (traverse_fuel h output_lst) output_lst
      = Ok hs ∧
    NoDup hs ∧
    ∀ hp, hp ∈ hs ↔ ∃ m, reach_backward h ms m ∧ unset_in h m hp.
Proof.
  intros Hcl Hlst Hspec.
  destruct (traverse_backward_reach h output_lst Hcl Hlst)
    as (ms & vs & Hms & Hrun & Hreach & Halloc).
  destruct (run_visits_get_unset h vs [] Hcl) as (hs & Hhs & Hnd & Hel).
  { by apply Forall_forall. }
  exists ms, hs. split; [done|].
  unfold get_unset_hyperparameters. rewrite Hspec. simpl. rewrite Hrun.
  split; [done|]. split; [apply Hnd; constructor|].
  intros hp. rewrite Hel. split.
  - intros [Hin|(m & Hm & Hu)]; [by apply not_elem_of_nil in Hin|].
    exists m. split; [by apply Hreach|done].
  - intros (m & Hm & Hu). right. exists m. split; [by apply Hreach|done].
Qed.

Lemma unconnected_inputs_loop_elem h (ixs : list nat) (l : list nat) :
  Forall (fun ix => is_Some (h_inputs h !! ix)) ixs ->
  ∃ l', unconnected_inputs_loop h ixs l = Ok (false, l') ∧
        ∀ ix, ix ∈ l' ↔
          ix ∈ l ∨ (ix ∈ ixs ∧ ∃ i, h_inputs h !! ix = Some i ∧
                                     from_output i = None).
Proof.
  intros Hall. revert l.
  induction Hall as [|ix0 ixs [i0 Hi0] _ IH]; intros l.
  - exists l. split; [done|]. intros ix.
    split; [by left|]. intros [?|[Hin _]]; [done|].
    by apply not_elem_of_nil in Hin.
  - simpl. rewrite Hi0. simpl.
    destruct (from_output i0) as [ox|] eqn:Hfrom; simpl.
    + destruct (IH l) as (l' & Hrun & Hel). exists l'.
      split; [done|]. intros ix. rewrite Hel. split.
      * intros [?|[Hin ?]]; [by left|]. right. split; [by right|done].
      * intros [?|[[->|Hin]%elem_of_cons (i & Hi & Hf)]]; [by left| |].
        -- congruence.
        -- right. split; [done|]. by exists i.
    + destruct (IH (l ++ [ix0])) as (l' & Hrun & Hel). exists l'.
      split; [done|]. intros ix.
      rewrite Hel, elem_of_app, list_elem_of_singleton. split.
      * intros [[? | ->]|[Hin ?]].
        -- by left.
        -- right. split; [by left|]. by exists i0.
        -- right. split; [by right|done].
      * intros [?|[[->|Hin]%elem_of_cons ?]].
        -- left. by left.
        -- left. by right.
        -- by right.
Qed.

Lemma run_visits_unconnected_inputs h (vs : list nat) (l : list nat) :
  closed h ->
  Forall (fun m => is_Some (h_modules h !! m)) vs ->
  ∃ l', run_visits (unconnected_inputs_fn h) vs l = Ok l' ∧
        ∀ ix, ix ∈ l' ↔ ix ∈ l ∨ ∃ m, m ∈ vs ∧ unconnected_in h m ix.
Proof.
  intros Hcl Hvs. revert l.
  induction Hvs as [|m vs [M HM] _ IH]; intros l.
  - exists l. split; [done|]. intros ix.
    split; [by left|]. intros [?|(m & Hm & _)]; [done|].
    by apply not_elem_of_nil in Hm.
  - assert (Hixs : Forall (fun ix => is_Some (h_inputs h !! ix))
                     (itervalues (inputs M))).
    { destruct Hcl as (Hmod & _). by destruct (Hmod m M HM). }
    simpl. unfold unconnected_inputs_fn at 1. rewrite HM. simpl.
    destruct (unconnected_inputs_loop_elem h _ l Hixs) as (l1 & -> & Hel1).
    simpl. destruct (IH l1) as (l' & Hrun & Hel).
    exists l'. split; [done|]. intros ix. rewrite Hel, Hel1. split.
    + intros [[?|[Hin (i & Hi & Hf)]]|(m' & Hm' & Hu)].
      * by left.
      * right. exists m. split; [by left|]. by exists M, i.
      * right. exists m'. split; [by right|done].
    + intros [?|(m' & [->|Hm']%elem_of_cons & Hu)].
      * left. by left.
      * destruct Hu as (M' & i & HM' & Hin & Hi & Hf).
        assert (M' = M) as -> by congruence.
        left. right. split; [done|]. by exists i.
      * right. by exists m'.
Qed.

(** X13. On a closed graph, [get_unconnected_inputs] returns a list that
    holds exactly the inputs without a connected output among those of the
    modules reachable backward from the outputs. *)
Theorem get_unconnected_inputs_exact h (output_lst : list pyobj) :
  closed h -> Forall (allocated h) output_lst ->
  ∃ ms ix_lst,
    extract_unique_modules h output_lst = Ok ms ∧
    get_unconnected_inputs h (traverse_fuel h output_lst) output_lst
      = Ok ix_lst ∧
    ∀ ix, ix ∈ ix_lst ↔ ∃ m, reach_backward h ms m ∧ unconnected_in h m ix.
Proof.
  intros Hcl Hlst.
  destruct (traverse_backward_reach h output_lst Hcl Hlst)
    as (ms & vs & Hms & Hrun & Hreach & Halloc).
  destruct (run_visits_unconnected_inputs h vs [] Hcl) as (l & Hl & Hel).
  { by apply Forall_forall. }
  exists ms, l. split; [done|].
  unfold get_unconnected_inputs. rewrite Hrun. split; [done|].
  intros ix. rewrite Hel. split.
  - intros [Hin|(m & Hm & Hu)]; [by apply not_elem_of_nil in Hin|].
    exists m. split; [by apply Hreach|done].
  - intros (m & Hm & Hu). right. exists m. split; [by apply Hreach|done].
Qed.

End CollectorProperties.

Section ForwardReach.
Context {Val : Type}.
Implicit Types h : Heap Val.

Lemma visit_connected_absorb h (ixs : list nat) (memo : gset nat)
    (ms : list nat) :
  visit_connected h ixs memo ms =
    let? ns := owners_of h ixs in Ok (absorb ns memo ms).
Proof.
  revert memo ms. induction ixs as [|ix ixs IH]; intros memo ms; [done|].
  simpl. destruct (deref (h_inputs h !! ix)) as [i|e]; [|done]. simpl.
  destruct (decide (i_module i ∈ memo)) as [Hin|Hin]; rewrite IH;
    destruct (owners_of h ixs) as [ns|e]; simpl; try done.
  - by rewrite decide_True.
  - by rewrite decide_False.
Qed.

Lemma visit_outputs_absorb h (oxs : list nat) (memo : gset nat)
    (ms : list nat) :
  visit_outputs h oxs memo ms =
    let? ns := downstream_of h oxs in Ok (absorb ns memo ms).
Proof.
  revert memo ms. induction oxs as [|ox oxs IH]; intros memo ms; [done|].
  simpl. destruct (deref (h_outputs h !! ox)) as [o|e]; [|done]. simpl.
  destruct (bool_decide (0 < length (to_inputs o))) eqn:Hconn.
  - rewrite visit_connected_absorb.
    destruct (owners_of h (to_inputs o)) as [ns|e]; [|done]. simpl.
    rewrite IH. destruct (downstream_of h oxs) as [ns'|e]; [|done]. simpl.
    by rewrite absorb_app.
  - apply bool_decide_eq_false in Hconn.
    destruct (to_inputs o) as [|ix l]; [|simpl in Hconn; lia]. simpl.
    rewrite IH. by destruct (downstream_of h oxs).
Qed.

Lemma traverse_forward_loop_worklist {St} h
    (fn : nat -> St -> result (bool * St)) (fuel idx : nat)
    (ms : list nat) (memo : gset nat) (st : St) :
  traverse_forward_loop h fn fuel idx ms memo st =
    worklist_loop (downstream h) fn fuel idx ms memo st.
Proof.
  revert idx ms memo st.
  induction fuel as [|fuel IH]; intros idx ms memo st; [done|].
  simpl. destruct (ms !! idx) as [m|]; [|done].
  destruct (fn m st) as [[stop st']|e]; [|done]. simpl.
  destruct stop; [done|]. unfold downstream.
  destruct (deref (h_modules h !! m)) as [M|e]; [|done]. simpl.
  rewrite visit_outputs_absorb.
  destruct (downstream_of h (itervalues (outputs M))) as [ns|e]; [|done].
  simpl. apply IH.
Qed.

Lemma owners_of_elem h (ixs ns : list nat) (n : nat) :
  owners_of h ixs = Ok ns ->
  n ∈ ns ↔ ∃ ix i, ix ∈ ixs ∧ h_inputs h !! ix = Some i ∧ i_module i = n.
Proof.
  revert ns. induction ixs as [|ix ixs IH]; intros ns.
  - intros [= <-]. split; [intros Hn; by apply not_elem_of_nil in Hn|].
    intros (ix & ? & Hix & _). by apply not_elem_of_nil in Hix.
  - simpl. destruct (h_inputs h !! ix) as [i|] eqn:Hi; [|done]. simpl.
    destruct (owners_of h ixs) as [ns'|] eqn:Hns'; [|done]. simpl.
    intros [= <-]. rewrite elem_of_cons, (IH ns' eq_refl). split.
    + intros [->|(ix' & i' & Hin & ?)].
      * exists ix, i. split; [by left|done].
      * exists ix', i'. split; [by right|done].
    + intros (ix' & i' & Hin & Hi' & Hn).
      apply elem_of_cons in Hin as [->|Hin].
      * left. congruence.
      * right. by exists ix', i'.
Qed.

Lemma downstream_of_elem h (oxs ns : list nat) (n : nat) :
  downstream_of h oxs = Ok ns ->
  n ∈ ns ↔ ∃ ox o ix i, ox ∈ oxs ∧ h_outputs h !! ox = Some o ∧
             ix ∈ to_inputs o ∧ h_inputs h !! ix = Some i ∧ i_module i = n.
Proof.
  revert ns. induction oxs as [|ox oxs IH]; intros ns.
  - intros [= <-]. split; [intros Hn; by apply not_elem_of_nil in Hn|].
    intros (ox & ? & ? & ? & Hox & _). by apply not_elem_of_nil in Hox.
  - simpl. destruct (h_outputs h !! ox) as [o|] eqn:Ho; [|done]. simpl.
    destruct (owners_of h (to_inputs o)) as [ns1|] eqn:Hns1; [|done]. simpl.
    destruct (downstream_of h oxs) as [ns'|] eqn:Hns'; [|done]. simpl.
    intros [= <-].
    rewrite elem_of_app, (IH ns' eq_refl), (owners_of_elem h _ ns1 n Hns1).
    split.
    + intros [(ix & i & Hin & Hi & Hn)|(ox' & o' & ix & i & Hin & ?)].
      * exists ox, o, ix, i. split; [by left|done].
      * exists ox', o', ix, i. split; [by right|done].
    + intros (ox' & o' & ix & i & Hin & Ho' & Hix & Hi & Hn).
      apply elem_of_cons in Hin as [->|Hin].
      * left. exists ix, i. split; [congruence|done].
      * right. by exists ox', o', ix, i.
Qed.

Lemma owners_of_total h (ixs : list nat) :
  closed h -> Forall (fun ix => is_Some (h_inputs h !! ix)) ixs ->
  ∃ ns, owners_of h ixs = Ok ns ∧ ∀ n, n ∈ ns -> n ∈ dom (h_modules h).
Proof.
  intros (Hmod & Hin & Hout).
  induction 1 as [|ix ixs [i Hi] _ (ns & Hns & HD)].
  - exists []. split; [done|]. intros n Hn. by apply not_elem_of_nil in Hn.
  - simpl. rewrite Hi. simpl. rewrite Hns. simpl.
    exists (i_module i :: ns). split; [done|].
    intros n Hn. apply elem_of_cons in Hn as [->|Hn]; [|by apply HD].
    apply elem_of_dom. by destruct (Hin ix i Hi).
Qed.

Lemma downstream_of_total h (oxs : list nat) :
  closed h -> Forall (fun ox => is_Some (h_outputs h !! ox)) oxs ->
  ∃ ns, downstream_of h oxs = Ok ns ∧ ∀ n, n ∈ ns -> n ∈ dom (h_modules h).
Proof.
  intros Hcl. induction 1 as [|ox oxs [o Ho] _ (ns & Hns & HD)].
  - exists []. split; [done|]. intros n Hn. by apply not_elem_of_nil in Hn.
  - simpl. rewrite Ho. simpl.
    destruct (owners_of_total h (to_inputs o) Hcl) as (ns1 & Hns1 & HD1).
    { destruct Hcl as (_ & _ & Hout). by destruct (Hout ox o Ho). }
    rewrite Hns1. simpl. rewrite Hns. simpl.
    exists (ns1 ++ ns). split; [done|].
    intros n Hn. apply elem_of_app in Hn as [Hn|Hn]; auto.
Qed.

Lemma downstream_total h (m : nat) :
  closed h -> m ∈ dom (h_modules h) ->
  ∃ ns, downstream h m = Ok ns ∧ ∀ n, n ∈ ns -> n ∈ dom (h_modules h).
Proof.
  intros Hcl [M HM]%elem_of_dom. unfold downstream. rewrite HM. simpl.
  apply downstream_of_total; [done|].
  destruct Hcl as (Hmod & _). by destruct (Hmod m M HM) as (_ & ? & _).
Qed.

Lemma reach_along_downstream h (ms : list nat) (m : nat) :
  closed h ->
  reach_along (downstream h) ms m ↔ reach_forward h ms m.
Proof.
  intros Hcl. split.
  - induction 1 as [m Hm|m ns n _ IH Hns Hn]; [by apply fwd_seed|].
    unfold downstream in Hns.
    destruct (h_modules h !! m) as [M|] eqn:HM; [|done]. simpl in Hns.
    apply (downstream_of_elem h _ ns n Hns) in Hn
      as (ox & o & ix & i & Hox & Ho & Hix & Hi & <-).
    by apply (fwd_step h ms m M ox o ix i).
  - induction 1 as [m Hm|m M ox o ix i _ IH HM Hox Ho Hix Hi];
      [by apply along_seed|].
    destruct (downstream_total h m Hcl) as (ns & Hns & _);
      [apply elem_of_dom; by exists M|].
    apply (along_step _ ms m ns); [done|done|].
    unfold downstream in Hns. rewrite HM in Hns. simpl in Hns.
    apply (downstream_of_elem h _ ns _ Hns). by exists ox, o, ix, i.
Qed.

Lemma traverse_forward_reach h (input_lst : list pyobj) :
  closed h -> Forall (allocated h) input_lst ->
  ∃ ms vs,
    extract_unique_modules h input_lst = Ok ms ∧
    (∀ St (fn : nat -> St -> result (bool * St)) (st : St),
       traverse_forward h (traverse_fuel h input_lst) input_lst fn st
         = run_visits fn vs st) ∧
    (∀ m, m ∈ vs ↔ reach_forward h ms m) ∧
    (∀ m, m ∈ vs -> is_Some (h_modules h !! m)).
Proof.
  intros Hcl Hlst.
  destruct (extract_unique_modules_spec h input_lst Hcl Hlst)
    as (ms & Hms & Hlen & Hall).
  destruct (worklist_traversal (downstream h) (dom (h_modules h))
              (traverse_fuel h input_lst) ms)
    as (vs & Hrun & Hreach & HD).
  - intros m. by apply downstream_total.
  - intros m Hm. apply elem_of_dom.
    by apply (proj1 (Forall_forall _ _) Hall).
  - unfold traverse_fuel. rewrite size_dom. lia.
  - exists ms, vs. split; [done|]. split; [|split].
    + intros St fn st. unfold traverse_forward. rewrite Hms. cbn [rbind].
      rewrite traverse_forward_loop_worklist. apply Hrun.
    + intros m. rewrite Hreach. by apply reach_along_downstream.
    + intros m Hm. by apply elem_of_dom, HD.
Qed.

(** X14. On a closed graph, [traverse_forward] too runs the visit function
    along an order of visits that does not depend on it, within a budget of
    one round per seed and per allocated module; never stopped, it visits a
    module if and only if a forward walk from the seed modules reaches
    it. *)
Theorem traverse_forward_visits_reachable h (input_lst : list pyobj) :
  closed h -> Forall (allocated h) input_lst ->
  ∃ ms vs,
    extract_unique_modules h input_lst = Ok ms ∧
    (∀ St (fn : nat -> St -> result (bool * St)) (st : St),
       traverse_forward h (traverse_fuel h input_lst) input_lst fn st
         = run_visits fn vs st) ∧
    (∀ m, m ∈ vs ↔ reach_forward h ms m) ∧
    (∀ m, m ∈ vs -> is_Some (h_modules h !! m)).
Proof. apply traverse_forward_reach. Qed.

Lemma unconnected_outputs_loop_elem h (oxs : list nat) (l : list nat) :
  Forall (fun ox => is_Some (h_outputs h !! ox)) oxs ->
  ∃ l', unconnected_outputs_loop h oxs l = Ok (false, l') ∧
        ∀ ox, ox ∈ l' ↔
          ox ∈ l ∨ (ox ∈ oxs ∧ ∃ o, h_outputs h !! ox = Some o ∧
                                     to_inputs o = []).
Proof.
  intros Hall. revert l.
  induction Hall as [|ox0 oxs [o0 Ho0] _ IH]; intros l.
  - exists l. split; [done|]. intros ox.
    split; [by left|]. intros [?|[Hin _]]; [done|].
    by apply not_elem_of_nil in Hin.
  - simpl. rewrite Ho0. simpl.
    destruct (bool_decide (0 < length (to_inputs o0))) eqn:Hconn.
    + apply bool_decide_eq_true in Hconn.
      destruct (IH l) as (l' & Hrun & Hel). exists l'.
      split; [done|]. intros ox. rewrite Hel. split.
      * intros [?|[Hin ?]]; [by left|]. right. split; [by right|done].
      * intros [?|[Hin (o & Ho & Hf)]]; [by left|].
        apply elem_of_cons in Hin as [->|Hin].
        -- assert (o = o0) as -> by congruence.
           rewrite Hf in Hconn. simpl in Hconn. lia.
        -- right. split; [done|]. by exists o.
    + apply bool_decide_eq_false in Hconn.
      assert (Hempty : to_inputs o0 = []).
      { destruct (to_inputs o0); [done|simpl in Hconn; lia]. }
      destruct (IH (l ++ [ox0])) as (l' & Hrun & Hel). exists l'.
      split; [done|]. intros ox.
      rewrite Hel, elem_of_app, list_elem_of_singleton. split.
      * intros [[? | ->]|[Hin ?]].
        -- by left.
        -- right. split; [by left|]. by exists o0.
        -- right. split; [by right|done].
      * intros [?|[Hin ?]]; [left; by left|].
        apply elem_of_cons in Hin as [->|Hin]; [left; by right|by right].
Qed.

Lemma run_visits_unconnected_outputs h (vs : list nat) (l : list nat) :
  closed h ->
  Forall (fun m => is_Some (h_modules h !! m)) vs ->
  ∃ l', run_visits (unconnected_outputs_fn h) vs l = Ok l' ∧
        ∀ ox, ox ∈ l' ↔ ox ∈ l ∨ ∃ m, m ∈ vs ∧ dangling_in h m ox.
Proof.
  intros Hcl Hvs. revert l.
  induction Hvs as [|m vs [M HM] _ IH]; intros l.
  - exists l. split; [done|]. intros ox.
    split; [by left|]. intros [?|(m & Hm & _)]; [done|].
    by apply not_elem_of_nil in Hm.
  - assert (Hoxs : Forall (fun ox => is_Some (h_outputs h !! ox))
                     (itervalues (outputs M))).
    { destruct Hcl as (Hmod & _). by destruct (Hmod m M HM) as (_ & ? & _). }
    simpl. unfold unconnected_outputs_fn at 1. rewrite HM. simpl.
    destruct (unconnected_outputs_loop_elem h _ l Hoxs) as (l1 & -> & Hel1).
    simpl. destruct (IH l1) as (l' & Hrun & Hel).
    exists l'. split; [done|]. intros ox. rewrite Hel, Hel1. split.
    + intros [[?|[Hin (o & Ho & Hf)]]|(m' & Hm' & Hu)].
      * by left.
      * right. exists m. split; [by left|]. by exists M, o.
      * right. exists m'. split; [by right|done].
    + intros [?|(m' & Hm' & Hu)]; [left; by left|].
      apply elem_of_cons in Hm' as [->|Hm'].
      * destruct Hu as (M' & o & HM' & Hin & Ho & Hf).
        assert (M' = M) as -> by congruence.
        left. right. split; [done|]. by exists o.
      * right. by exists m'.
Qed.

(** X15. On a closed graph, [get_unconnected_outputs] returns a list that
    holds exactly the outputs without a connected input among those of the
    modules reachable forward from the inputs. *)
Theorem get_unconnected_outputs_exact h (input_lst : list pyobj) :
  closed h -> Forall (allocated h) input_lst ->
  ∃ ms ox_lst,
    extract_unique_modules h input_lst = Ok ms ∧
    get_unconnected_outputs h (traverse_fuel h input_lst) input_lst
      = Ok ox_lst ∧
    ∀ ox, ox ∈ ox_lst ↔ ∃ m, reach_forward h ms m ∧ dangling_in h m ox.
Proof.
  intros Hcl Hlst.
  destruct (traverse_forward_reach h input_lst Hcl Hlst)
    as (ms & vs & Hms & Hrun & Hreach & Halloc).
  destruct (run_visits_unconnected_outputs h vs [] Hcl) as (l & Hl & Hel).
  { by apply Forall_forall. }
  exists ms, l. split; [done|].
  unfold get_unconnected_outputs. rewrite Hrun. split; [done|].
  intros ox. rewrite Hel. split.
  - intros [Hin|(m & Hm & Hu)]; [by apply not_elem_of_nil in Hin|].
    exists m. split; [by apply Hreach|done].
  - intros (m & Hm & Hu). right. exists m. split; [by apply Hreach|done].
Qed.

End ForwardReach.

Section ExtractProperties.
Context {Val : Type}.
Implicit Types h : Heap Val.

Lemma extract_loop_update h (lst : list pyobj) (ms : OrderedSet) :
  extract_loop h lst ms =
    let? owners := result_mapM (obj_get_module h) lst in
    Ok (OrderedSet_update owners ms).
Proof.
  revert ms. induction lst as [|x lst IH]; intros ms; [done|].
  cbn [extract_loop result_mapM].
  destruct (obj_get_module h x) as [m|e]; [|done]. cbn [rbind].
  rewrite IH. by destruct (result_mapM (obj_get_module h) lst).
Qed.

(** X16. [extract_unique_modules] returns the modules owning the given
    ports in the order in which they first occur, each once; when a port
    cannot give its module (the list holds something that is neither an
    Input nor an Output) it raises what that element raises. *)
Theorem extract_unique_modules_first_occurrences h (lst : list pyobj) :
  (∀ owners, result_mapM (obj_get_module h) lst = Ok owners ->
     extract_unique_modules h lst = Ok (dedup_first [] owners) ∧
     NoDup (dedup_first [] owners) ∧
     ∀ m, m ∈ dedup_first [] owners ↔ m ∈ owners) ∧
  (∀ e, result_mapM (obj_get_module h) lst = Raise e ->
     extract_unique_modules h lst = Raise e) ∧
  (POther ∈ lst -> Forall (fun x => x = POther ∨ allocated h x) lst ->
     extract_unique_modules h lst = Raise AssertionError).
Proof.
  unfold extract_unique_modules. rewrite extract_loop_update.
  split; [|split].
  - intros owners ->. cbn [rbind]. rewrite OrderedSet_update_dedup.
    split; [done|]. split; [apply dedup_first_NoDup|].
    intros m. rewrite dedup_first_elem. split; [by intros [? _]|].
    intros Hm. split; [done|apply not_elem_of_nil].
  - by intros e ->.
  - intros Hin Hall.
    assert (result_mapM (obj_get_module h) lst = Raise AssertionError) as ->;
      [|done].
    induction Hall as [|x lst Hx Hall IH]; [by apply not_elem_of_nil in Hin|].
    cbn [result_mapM]. destruct Hx as [->|Hx]; [done|].
    apply elem_of_cons in Hin as [<-|Hin]; [done|].
    destruct x as [ix|ox|]; [| |done]; simpl in Hx; destruct Hx as [? Hx];
      simpl; rewrite Hx; simpl; by rewrite (IH Hin).
Qed.

End ExtractProperties.

(** X17. [OrderedSet.update] on a set without repetition gives a set
    without repetition that holds the old elements, in their old places,
    and the new ones; doing the same update again changes nothing. *)
Theorem OrderedSet_update_is_set (xs : list nat) (d : OrderedSet) :
  NoDup d ->
  NoDup (OrderedSet_update xs d) ∧
  (∀ x, x ∈ OrderedSet_update xs d ↔ x ∈ d ∨ x ∈ xs) ∧
  d `prefix_of` OrderedSet_update xs d ∧
  OrderedSet_update xs (OrderedSet_update xs d) = OrderedSet_update xs d.
Proof.
  intros Hd. rewrite !OrderedSet_update_dedup.
  assert (Hel : ∀ x, x ∈ d ++ dedup_first d xs ↔ x ∈ d ∨ x ∈ xs).
  { intros x. rewrite elem_of_app, dedup_first_elem.
    destruct (decide (x ∈ d)); tauto. }
  split; [|split; [done|split; [by apply prefix_app_r|]]].
  - apply NoDup_app. split; [done|]. split; [|apply dedup_first_NoDup].
    intros x Hx Hx'. apply dedup_first_elem in Hx' as [_ Hx']. done.
  - assert (Hnil : ∀ seen, (∀ x, x ∈ xs -> x ∈ seen) ->
                           dedup_first seen xs = []).
    { clear. induction xs as [|y xs IH]; intros seen Hall; [done|].
      simpl. rewrite decide_True by (apply Hall; by left).
      apply IH. intros x Hx. apply Hall. by right. }
    rewrite (Hnil (d ++ dedup_first d xs)); [by rewrite app_nil_r|].
    intros x Hx. apply Hel. by right.
Qed.

Section RegistrationProperties.
Context {Val : Type} {B : Behaviour Val}.
Implicit Types w : World Val.

Lemma register_hyperparameter_spec w (m hp : nat) (name : string) M H :
  h_modules (heap w) !! m = Some M ->
  h_hyperps (heap w) !! hp = Some H ->
  name ∉ (hyperps M).*1 ->
  Module_register_hyperparameter m hp name w =
    (mkWorld
       (mkHeap (h_inputs (heap w)) (h_outputs (heap w))
          (<[m := mkModule (inputs M) (outputs M)
                    (hyperps M ++ [(name, hp)]) (_is_compiled M)]>
             (h_modules (heap w)))
          (<[hp := mkHyperparameter (set_done H) (val H)
                     (OrderedSet_add m (modules H))]>
             (h_hyperps (heap w))))
       (calls w), Ok tt).
Proof.
  intros HM HH Hname.
  unfold Module_register_hyperparameter, Hyperparameter_register_module.
  py_unfold. rewrite HM. simpl.
  rewrite bool_decide_eq_true_2 by done. simpl. by rewrite HH.
Qed.

(** X18. [m._register_hyperparameter(h, name)] under a role name that [m]
    has not used appends [h] to the module's hyperparameters and makes [m]
    a dependent of [h]; registering under the same role name again, for
    whatever hyperparameter, fails on the assertion with nothing
    written. *)
Theorem register_hyperparameter_links w (m hp : nat) (name : string) M H :
  h_modules (heap w) !! m = Some M ->
  h_hyperps (heap w) !! hp = Some H ->
  name ∉ (hyperps M).*1 ->
  ∃ w' M' H',
    Module_register_hyperparameter m hp name w = (w', Ok tt) ∧
    h_modules (heap w') !! m = Some M' ∧
    itervalues (hyperps M') = itervalues (hyperps M) ++ [hp] ∧
    h_hyperps (heap w') !! hp = Some H' ∧
    m ∈ modules H' ∧ set_done H' = set_done H ∧
    ∀ hp', Module_register_hyperparameter m hp' name w'
             = (w', Raise AssertionError).
Proof.
  intros HM HH Hname.
  rewrite (register_hyperparameter_spec w m hp name M H HM HH Hname).
  eexists _, _, _. split; [done|]. simpl.
  split; [apply lookup_insert_eq|]. simpl.
  split; [unfold itervalues; by rewrite fmap_app|].
  split; [apply lookup_insert_eq|]. simpl.
  split; [apply OrderedSet_add_elem; by left|]. split; [done|].
  intros hp'. unfold Module_register_hyperparameter. py_unfold. simpl.
  rewrite lookup_insert_eq. simpl.
  rewrite bool_decide_eq_false_2; [done|].
  intros Hnot. apply Hnot. rewrite fmap_app. apply elem_of_app. right.
  by apply list_elem_of_singleton.
Qed.

(** X19. A module that registers a hyperparameter is notified when that
    hyperparameter is set: after [m._register_hyperparameter(h, name)] on
    an unset [h], [h.set_val(v)] calls, after the validation, the
    [_update] hook of each earlier dependent and of [m], [m] last when it
    was not a dependent before. *)
Theorem registered_module_is_notified w (m hp : nat) (name : string)
    (v : Val) M H :
  h_modules (heap w) !! m = Some M ->
  h_hyperps (heap w) !! hp = Some H ->
  name ∉ (hyperps M).*1 ->
  set_done H = false ->
  returns_keeping (fun h => h_hyperps h !! hp) (_check_val hp v) ->
  (∀ m', returns_keeping (fun h => h_hyperps h !! hp) (_update m')) ->
  ∃ w1 w2 cs,
    Module_register_hyperparameter m hp name w = (w1, Ok tt) ∧
    Hyperparameter_set_val hp v w1 = (w2, Ok tt) ∧
    calls w2 = calls w ++ CheckVal hp v (heap w1) :: cs ∧
    call_method <$> cs =
      (fun m' => (M_update, m')) <$> OrderedSet_add m (modules H) ∧
    (M_update, m) ∈ call_method <$> cs.
Proof.
  intros HM HH Hname Hunset Hcheck Hupd.
  rewrite (register_hyperparameter_spec w m hp name M H HM HH Hname).
  match goal with |- context [(?w1, Ok tt) = _] =>
    destruct (set_val_spec w1 hp v
                (mkHyperparameter (set_done H) (val H)
                   (OrderedSet_add m (modules H))))
      as (w2 & cs & Hrun & Hcalls & Hmeth & _);
      [apply lookup_insert_eq|done|done|done|];
    exists w1, w2, cs
  end.
  split; [done|]. split; [done|]. split; [done|]. split; [done|].
  rewrite Hmeth. simpl. apply list_elem_of_fmap. exists m.
  split; [done|]. apply OrderedSet_add_elem. by left.
Qed.

(** X20. [get_val] on a hyperparameter that is not set fails on its
    assertion.  After a successful [set_val(v)], [is_set()] is true,
    [get_val()] returns [v], and a second [set_val] fails on the assertion
    without calling the validation or any hook: the value is assigned at
    most once. *)
Theorem set_val_then_get_val w (self : nat) (v : Val) H :
  h_hyperps (heap w) !! self = Some H ->
  set_done H = false ->
  returns_keeping (fun h => h_hyperps h !! self) (_check_val self v) ->
  (∀ m, returns_keeping (fun h => h_hyperps h !! self) (_update m)) ->
  Hyperparameter_get_val self w = (w, Raise AssertionError) ∧
  ∃ w',
    Hyperparameter_set_val self v w = (w', Ok tt) ∧
    Hyperparameter_is_set self w' = (w', Ok true) ∧
    Hyperparameter_get_val self w' = (w', Ok v) ∧
    ∀ v', Hyperparameter_set_val self v' w' = (w', Raise AssertionError).
Proof.
  intros HH Hunset Hcheck Hupd. split.
  - unfold Hyperparameter_get_val. py_unfold. by rewrite HH, Hunset.
  - destruct (set_val_spec w self v H HH Hunset Hcheck Hupd)
      as (w' & cs & Hrun & _ & _ & _ & Hfin).
    exists w'. split; [done|].
    unfold Hyperparameter_is_set, Hyperparameter_get_val,
      Hyperparameter_set_val. py_unfold. rewrite Hfin. simpl. done.
Qed.

End RegistrationProperties.

Section EvalSeqReach.
Context {Val : Type}.
Implicit Types h : Heap Val.

Lemma result_mapM_owner_elem h (ixs l : list nat) (n : nat) :
  result_mapM (fun ix => obj_get_module h (PInput ix)) ixs = Ok l ->
  n ∈ l ->
  ∃ ix i, ix ∈ ixs ∧ h_inputs h !! ix = Some i ∧ i_module i = n.
Proof.
  revert l. induction ixs as [|ix ixs IH]; intros l.
  - intros [= <-] Hn. by apply not_elem_of_nil in Hn.
  - cbn [result_mapM obj_get_module].
    destruct (h_inputs h !! ix) as [i|] eqn:Hi; [|done]. simpl.
    destruct (result_mapM _ ixs) as [l'|] eqn:Hl'; [|done]. simpl.
    intros [= <-] Hn. apply elem_of_cons in Hn as [->|Hn].
    + exists ix, i. split; [by left|done].
    + destruct (IH l' eq_refl Hn) as (ix' & i' & Hin & ?).
      exists ix', i'. split; [by right|done].
Qed.

Lemma extend_outputs_elem h (oxs : list nat) (im : gset nat) (ms : list nat)
    q (n : nat) :
  extend_outputs h oxs im ms = Ok q ->
  n ∈ q.2 ->
  n ∈ ms ∨ ∃ ox o ix i, ox ∈ oxs ∧ h_outputs h !! ox = Some o ∧
             ix ∈ to_inputs o ∧ h_inputs h !! ix = Some i ∧ i_module i = n.
Proof.
  revert im ms. induction oxs as [|ox oxs IH]; intros im ms.
  - intros [= <-] Hn. by left.
  - cbn [extend_outputs].
    destruct (h_outputs h !! ox) as [o|] eqn:Ho; [|done]. cbn [deref rbind].
    destruct (result_mapM _ (to_inputs o)) as [l|] eqn:Hl; [|done].
    cbn [rbind]. intros Hrun Hn.
    destruct (IH _ _ Hrun Hn) as [Hin|(ox' & o' & ix & i & Hin & ?)].
    + apply elem_of_app in Hin as [?|Hin]; [by left|]. right.
      destruct (result_mapM_owner_elem h _ l n Hl Hin) as (ix & i & ? & ? & ?).
      exists ox, o, ix, i. split; [by left|done].
    + right. exists ox', o', ix, i. split; [by right|done].
Qed.

Lemma eval_seq_loop_reach h (R : nat -> Prop) (fuel idx : nat)
    (ms module_seq : list nat) (module_memo input_memo : gset nat) seq :
  (∀ m M ox o ix i, R m -> h_modules h !! m = Some M ->
     ox ∈ itervalues (outputs M) -> h_outputs h !! ox = Some o ->
     ix ∈ to_inputs o -> h_inputs h !! ix = Some i -> R (i_module i)) ->
  Forall R ms -> Forall R module_seq ->
  eval_seq_loop h fuel idx ms module_seq module_memo input_memo = Ok seq ->
  Forall R seq.
Proof.
  intros HR. revert idx ms module_seq module_memo input_memo.
  induction fuel as [|fuel IH]; intros idx ms mseq mm im Hms Hseq; [done|].
  simpl. destruct (ms !! idx) as [m|] eqn:Hm; [|by intros [= <-]].
  assert (HRm : R m).
  { apply (proj1 (Forall_forall _ _) Hms). by eapply list_elem_of_lookup_2. }
  destruct (decide (m ∈ mm)) as [Hseen|Hnew]; [by apply IH|].
  destruct (h_modules h !! m) as [M|] eqn:HM; [|done]. simpl.
  destruct (forallb _ _); [|by apply IH].
  destruct (extend_outputs h (itervalues (outputs M)) im ms) as [q|] eqn:Hq;
    [|done].
  simpl. apply IH.
  - apply Forall_forall. intros n Hn.
    destruct (extend_outputs_elem h _ _ _ q n Hq Hn)
      as [Hin|(ox & o & ix & i & Hox & Ho & Hix & Hi & <-)].
    + by apply (proj1 (Forall_forall _ _) Hms).
    + by apply (HR m M ox o ix i).
  - apply Forall_app. split; [done|]. by constructor.
Qed.

(** X21. On a closed graph, [determine_module_eval_seq] only schedules
    modules that a forward walk from the modules of the seed inputs
    reaches. *)
Theorem determine_module_eval_seq_reachable h (input_lst : list nat) :
  closed h ->
  Forall (fun ix => is_Some (h_inputs h !! ix)) input_lst ->
  ∃ ms seq,
    extract_unique_modules h (PInput <$> input_lst) = Ok ms ∧
    determine_module_eval_seq h (eval_seq_fuel h input_lst) input_lst
      = Ok seq ∧
    ∀ m, m ∈ seq -> reach_forward h ms m.
Proof.
  intros Hcl Hlst. unfold determine_module_eval_seq.
  destruct (extract_unique_modules_spec h (PInput <$> input_lst) Hcl)
    as (ms & Hms & Hlen & Hall).
  { by apply Forall_fmap. }
  rewrite Hms. cbn [rbind]. rewrite length_fmap in Hlen.
  destruct (eval_seq_loop_spec h input_lst (eval_seq_fuel h input_lst) 0 ms
              [] ∅ (list_to_set input_lst)) as (seq & Hrun & _);
    [done|done| | | | | |].
  - intros m. split; intros Hm.
    + by apply not_elem_of_empty in Hm.
    + by apply not_elem_of_nil in Hm.
  - constructor.
  - intros ix Hix. left. by apply elem_of_list_to_set in Hix.
  - intros k m M ix Hk. by rewrite lookup_nil in Hk.
  - unfold eval_seq_fuel. lia.
  - exists ms, seq. split; [done|]. split; [done|].
    apply Forall_forall.
    apply (eval_seq_loop_reach h (reach_forward h ms) _ _ _ _ _ _ seq)
      in Hrun; [done| | |constructor].
    + intros m M ox o ix i. apply fwd_step.
    + apply Forall_forall. intros m Hm. by apply fwd_seed.
Qed.

End EvalSeqReach.

(** * The further properties on the sample graphs *)

Lemma sample_scope_consistent : scope_consistent sample_scope.
Proof.
  change (map_Forall (fun e n => name_to_elem sample_scope !! n = Some e)
            (elem_to_name sample_scope)).
  compute_done.
Qed.

Lemma scope_register_lookup_witness :
  let sc' := mkScope (<["H.D-2" := 9]> (name_to_elem sample_scope))
                     (<[9 := "H.D-2"]> (elem_to_name sample_scope)) in
  Scope_get_name 9 sc' = Some "H.D-2" ∧
  Scope_get_elem "H.D-2" sc' = Some 9 ∧
  (∀ n, n ≠ "H.D-2" -> Scope_get_elem n sc' = Scope_get_elem n sample_scope) ∧
  scope_consistent sc'.
Proof.
  apply (scope_register_lookup sample_scope _ "H.D-2" 9).
  - exact sample_scope_consistent.
  - reflexivity.
Defined.

Lemma scope_register_twice_witness :
  let sc' := mkScope (<["H.D-2" := 9]> (name_to_elem sample_scope))
                     (<[9 := "H.D-2"]> (elem_to_name sample_scope)) in
  Scope_register "H.D-2" 4 sc' = Raise AssertionError ∧
  Scope_get_name 9 sc' = Some "H.D-2" ∧
  Scope_get_elem "H.D-2" sc' = Some 9.
Proof.
  apply (scope_register_twice sample_scope _ "H.D-2" 9 4). reflexivity.
Defined.

Lemma get_unused_name_least_witness :
  ∃ i, Scope_get_unused_name 3 "H.D-" sample_scope
         = Ok ("H.D-" +:+ pretty i) ∧
       Scope_get_elem ("H.D-" +:+ pretty i) sample_scope = None ∧
       ∀ j, j < i -> is_Some (Scope_get_elem ("H.D-" +:+ pretty j) sample_scope).
Proof.
  apply (get_unused_name_least sample_scope "H.D-" 3). compute_done.
Defined.

Lemma addressable_init_named_succeeds_witness :
  ∃ sc' (i : nat),
    let name := ("H" +:+ "." +:+ "D" +:+ "-") +:+ pretty i in
    Addressable_init_named 3 "H" "D" 9 sample_scope = Ok sc' ∧
    Scope_get_name 9 sc' = Some name ∧
    Scope_get_elem name sc' = Some 9 ∧
    scope_consistent sc' ∧
    ∀ n e, Scope_get_elem n sample_scope = Some e ->
           Scope_get_elem n sc' = Some e.
Proof.
  apply (addressable_init_named_succeeds sample_scope 3 "H" "D" 9).
  - compute_done.
  - exact sample_scope_consistent.
Defined.

Lemma connect_disconnect_keep_consistent_witness :
  (∃ w', Input_connect 2 (POutput 1) (mkWorld fanout_graph []) = (w', Ok tt) ∧
         ports_consistent (heap w')) ∧
  (∃ w', Input_disconnect 0 (mkWorld fanout_graph []) = (w', Ok tt) ∧
         from_output <$> h_inputs (heap w') !! 0 = Some None ∧
         ports_consistent (heap w')).
Proof.
  split.
  - apply (connect_disconnect_keep_consistent (mkWorld fanout_graph []) 2 1
             (mkInput 3 None)); [compute_done|reflexivity|reflexivity|].
    by eexists.
  - apply (connect_disconnect_keep_consistent (mkWorld fanout_graph []) 0 0
             (mkInput 1 (Some 0))); [compute_done|reflexivity|reflexivity].
Defined.

Lemma disconnect_all_skips_every_other_witness :
  let w := mkWorld wide_graph [] in
  ∃ w',
    Output_disconnect_all 6 0 w = (w', Ok tt) ∧
    Output_get_connected_inputs 0 w' = (w', Ok (odds [0; 1; 2; 3; 4])) ∧
    (∀ ix, ix ∈ evens [0; 1; 2; 3; 4] ->
       Input_is_connected ix w' = (w', Ok false)) ∧
    (∀ ix, ix ∈ odds [0; 1; 2; 3; 4] ->
       Input_is_connected ix w' = (w', Ok true)) ∧
    (2 ≤ length [0; 1; 2; 3; 4] -> Output_is_connected 0 w' = (w', Ok true)) ∧
    ports_consistent (heap w').
Proof.
  apply (disconnect_all_skips_every_other (mkWorld wide_graph []) 6 0
           (mkOutput 0 [0; 1; 2; 3; 4])).
  - compute_done.
  - reflexivity.
  - simpl. lia.
Defined.

Lemma reroute_all_moves_every_other_witness :
  let w := mkWorld wide_graph [] in
  ∃ w',
    Output_reroute_all_connected_inputs 6 0 (POutput 1) w = (w', Ok tt) ∧
    Output_get_connected_inputs 0 w' = (w', Ok (odds [0; 1; 2; 3; 4])) ∧
    Output_get_connected_inputs 1 w'
      = (w', Ok ([] ++ evens [0; 1; 2; 3; 4])) ∧
    ports_consistent (heap w').
Proof.
  apply (reroute_all_moves_every_other (mkWorld wide_graph []) 6 0 1
           (mkOutput 0 [0; 1; 2; 3; 4]) (mkOutput 0 [])).
  - compute_done.
  - lia.
  - reflexivity.
  - reflexivity.
  - simpl. lia.
Defined.

Lemma reroute_connected_output_moves_witness :
  ∃ w',
    Input_reroute_connected_output 1 0 (PInput 2) (mkWorld fanout_graph [])
      = (w', Ok tt) ∧
    Input_is_connected 0 w' = (w', Ok false) ∧
    Input_get_connected_output 2 w' = (w', Ok (Some 0)) ∧
    ports_consistent (heap w').
Proof.
  apply (reroute_connected_output_moves (mkWorld fanout_graph []) 0 0 2 0
           (mkInput 1 (Some 0)) (mkInput 3 None)).
  - compute_done.
  - reflexivity.
  - reflexivity.
  - reflexivity.
  - reflexivity.
Defined.

Lemma reroute_connected_output_no_rollback_witness :
  ∃ w' l,
    Input_reroute_connected_output 1 0 (PInput 1) (mkWorld fanout_graph [])
      = (w', Raise AssertionError) ∧
    Input_is_connected 0 w' = (w', Ok false) ∧
    Output_get_connected_inputs 0 w' = (w', Ok l) ∧ (0 ∉ l) ∧
    Input_get_connected_output 1 w' = (w', Ok (Some 0)) ∧
    ports_consistent (heap w').
Proof.
  apply (reroute_connected_output_no_rollback (mkWorld fanout_graph []) 0 0 1
           0 0 (mkInput 1 (Some 0)) (mkInput 2 (Some 0))).
  - compute_done.
  - lia.
  - reflexivity.
  - reflexivity.
  - reflexivity.
  - reflexivity.
Defined.

Lemma traverse_backward_visits_reachable_witness :
  let h := chain_graph unset_hyperp in
  ∃ ms vs,
    extract_unique_modules h [POutput 1] = Ok ms ∧
    (∀ St (fn : nat -> St -> result (bool * St)) (st : St),
       traverse_backward h (traverse_fuel h [POutput 1]) [POutput 1] fn st
         = run_visits fn vs st) ∧
    (∀ m, m ∈ vs ↔ reach_backward h ms m) ∧
    (∀ m, m ∈ vs -> is_Some (h_modules h !! m)).
Proof.
  apply (traverse_backward_visits_reachable (chain_graph unset_hyperp)
           [POutput 1]); compute_done.
Defined.

Lemma is_specified_iff_all_set_witness :
  let h := chain_graph unset_hyperp in
  ∃ ms b,
    extract_unique_modules h [POutput 1] = Ok ms ∧
    is_specified h (traverse_fuel h [POutput 1]) [POutput 1] = Ok b ∧
    (b = true ↔ ∀ m hp, reach_backward h ms m -> ¬ unset_in h m hp).
Proof.
  apply (is_specified_iff_all_set (chain_graph unset_hyperp) [POutput 1]);
    compute_done.
Defined.

Lemma get_unset_hyperparameters_exact_witness :
  let h := chain_graph unset_hyperp in
  ∃ ms hs,
    extract_unique_modules h [POutput 1] = Ok ms ∧
    get_unset_hyperparameters h (traverse_fuel h [POutput 1]) [POutput 1]
      = Ok hs ∧
    NoDup hs ∧
    ∀ hp, hp ∈ hs ↔ ∃ m, reach_backward h ms m ∧ unset_in h m hp.
Proof.
  apply (get_unset_hyperparameters_exact (chain_graph unset_hyperp)
           [POutput 1]); compute_done.
Defined.

Lemma get_unconnected_inputs_exact_witness :
  let h := chain_graph unset_hyperp in
  ∃ ms ix_lst,
    extract_unique_modules h [POutput 1] = Ok ms ∧
    get_unconnected_inputs h (traverse_fuel h [POutput 1]) [POutput 1]
      = Ok ix_lst ∧
    ∀ ix, ix ∈ ix_lst ↔ ∃ m, reach_backward h ms m ∧ unconnected_in h m ix.
Proof.
  apply (get_unconnected_inputs_exact (chain_graph unset_hyperp)
           [POutput 1]); compute_done.
Defined.

Lemma traverse_forward_visits_reachable_witness :
  let h := chain_graph unset_hyperp in
  ∃ ms vs,
    extract_unique_modules h [PInput 1] = Ok ms ∧
    (∀ St (fn : nat -> St -> result (bool * St)) (st : St),
       traverse_forward h (traverse_fuel h [PInput 1]) [PInput 1] fn st
         = run_visits fn vs st) ∧
    (∀ m, m ∈ vs ↔ reach_forward h ms m) ∧
    (∀ m, m ∈ vs -> is_Some (h_modules h !! m)).
Proof.
  apply (traverse_forward_visits_reachable (chain_graph unset_hyperp)
           [PInput 1]); compute_done.
Defined.

Lemma get_unconnected_outputs_exact_witness :
  let h := chain_graph unset_hyperp in
  ∃ ms ox_lst,
    extract_unique_modules h [PInput 1] = Ok ms ∧
    get_unconnected_outputs h (traverse_fuel h [PInput 1]) [PInput 1]
      = Ok ox_lst ∧
    ∀ ox, ox ∈ ox_lst ↔ ∃ m, reach_forward h ms m ∧ dangling_in h m ox.
Proof.
  apply (get_unconnected_outputs_exact (chain_graph unset_hyperp)
           [PInput 1]); compute_done.
Defined.

Lemma extract_unique_modules_first_occurrences_witness :
  extract_unique_modules fanout_graph [POutput 0; PInput 0; POutput 0]
    = Ok (dedup_first [] [0; 1; 0]) ∧
  extract_unique_modules fanout_graph [POutput 0; POther; PInput 0]
    = Raise AssertionError.
Proof.
  split.
  - apply (extract_unique_modules_first_occurrences fanout_graph
             [POutput 0; PInput 0; POutput 0]). reflexivity.
  - apply (extract_unique_modules_first_occurrences fanout_graph
             [POutput 0; POther; PInput 0]).
    + apply list_elem_of_In. simpl. tauto.
    + apply Forall_cons. split; [right; compute_done|].
      apply Forall_cons. split; [by left|].
      apply Forall_cons. split; [right; compute_done|].
      apply Forall_nil_2.
Defined.

Lemma OrderedSet_update_is_set_witness :
  NoDup (OrderedSet_update [2; 3; 3] [1; 2]) ∧
  (∀ x, x ∈ OrderedSet_update [2; 3; 3] [1; 2] ↔ x ∈ [1; 2] ∨ x ∈ [2; 3; 3]) ∧
  [1; 2] `prefix_of` OrderedSet_update [2; 3; 3] [1; 2] ∧
  OrderedSet_update [2; 3; 3] (OrderedSet_update [2; 3; 3] [1; 2])
    = OrderedSet_update [2; 3; 3] [1; 2].
Proof. apply (OrderedSet_update_is_set [2; 3; 3] [1; 2]). compute_done. Defined.

Lemma register_hyperparameter_links_witness :
  let w := mkWorld (chain_graph unset_hyperp) [] in
  ∃ w' M' H',
    Module_register_hyperparameter 1 0 "h2" w = (w', Ok tt) ∧
    h_modules (heap w') !! 1 = Some M' ∧
    itervalues (hyperps M') = [] ++ [0] ∧
    h_hyperps (heap w') !! 0 = Some H' ∧
    1 ∈ modules H' ∧ set_done H' = false ∧
    ∀ hp', Module_register_hyperparameter 1 hp' "h2" w'
             = (w', Raise AssertionError).
Proof.
  apply (register_hyperparameter_links (mkWorld (chain_graph unset_hyperp) [])
           1 0 "h2" (mkModule [("in", 0)] [("out", 1)] [] false) unset_hyperp).
  - reflexivity.
  - reflexivity.
  - apply not_elem_of_nil.
Defined.

Lemma registered_module_is_notified_witness :
  let w := mkWorld (chain_graph unset_hyperp) [] in
  ∃ w1 w2 cs,
    Module_register_hyperparameter 1 0 "h2" w = (w1, Ok tt) ∧
    Hyperparameter_set_val (B := sample_classes) 0 3 w1 = (w2, Ok tt) ∧
    calls w2 = [] ++ CheckVal 0 3 (heap w1) :: cs ∧
    call_method <$> cs =
      (fun m' => (M_update, m')) <$> OrderedSet_add 1 [0] ∧
    (M_update, 1) ∈ call_method <$> cs.
Proof.
  apply (registered_module_is_notified (B := sample_classes)
           (mkWorld (chain_graph unset_hyperp) []) 1 0 "h2" 3
           (mkModule [("in", 0)] [("out", 1)] [] false) unset_hyperp).
  - reflexivity.
  - reflexivity.
  - apply not_elem_of_nil.
  - reflexivity.
  - intros h. exists h. split; reflexivity.
  - intros m h. exists h. split; reflexivity.
Defined.

Lemma set_val_then_get_val_witness :
  let w := mkWorld (chain_graph unset_hyperp) [] in
  Hyperparameter_get_val 0 w = (w, Raise AssertionError) ∧
  ∃ w',
    Hyperparameter_set_val (B := sample_classes) 0 3 w = (w', Ok tt) ∧
    Hyperparameter_is_set 0 w' = (w', Ok true) ∧
    Hyperparameter_get_val 0 w' = (w', Ok 3) ∧
    ∀ v', Hyperparameter_set_val (B := sample_classes) 0 v' w'
            = (w', Raise AssertionError).
Proof.
  apply (set_val_then_get_val (B := sample_classes)
           (mkWorld (chain_graph unset_hyperp) []) 0 3 unset_hyperp).
  - reflexivity.
  - reflexivity.
  - intros h. exists h. split; reflexivity.
  - intros m h. exists h. split; reflexivity.
Defined.

Lemma determine_module_eval_seq_reachable_witness :
  let h := chain_graph set_hyperp_7 in
  ∃ ms seq,
    extract_unique_modules h (PInput <$> [1]) = Ok ms ∧
    determine_module_eval_seq h (eval_seq_fuel h [1]) [1] = Ok seq ∧
    ∀ m, m ∈ seq -> reach_forward h ms m.
Proof.
  apply (determine_module_eval_seq_reachable (chain_graph set_hyperp_7) [1]);
    compute_done.
Defined.
